(** * Verification of the GMM fitting core of the lab web site

    The development embeds the numeric core of the white-blood-cell
    demo ([GMMDemo], lines 95-357 and 603-608 of the script): the
    small-sample estimator [simpleMeanStd], the EM fit [simpleGMM]
    with its seeding [initializeMeans], the scores
    [calculateLogLikelihood] and [calculateBIC], the model selection
    inside [fitGMM] and the cumulative band of [plotTimeSeries].  It
    then follows the rest of the three demos: input validation, the
    traces and the summary of the WBC demo with the timer that draws
    them; validation, arrows and summary of the trajectory demo
    ([TrajectoryDemo]); the selection and fit state machine and the
    magnifier of the red-cell demo ([RBCDemo]).  Calls into the
    plotting library and the page are not modelled beyond the values
    handed to them.

    Conventions of the embedding.
    - A JavaScript Number is an element of a type [num] carrying the
      operations of the class [JsNumber].  Two instances are given:
      [IEEE], the binary64 numbers of the language (Rocq's primitive
      floats, round to nearest even), and [Exact.RArith], real
      arithmetic, for statements about what the formulas compute when
      no rounding takes place.
    - Array lengths, loop counters and the component count are
      natural numbers; integer expressions over them ([n - 1],
      [k + k + (k - 1)], [Math.floor(n / 2)]) are computed in [nat] or
      [Z] and injected with [of_Z].  On binary64 this is what the
      script computes as long as the integers stay below 2^53, which
      array lengths (below 2^32) do.
    - An array is a [list]; [a[i]] is [a !! i], with [None] for
      [undefined]; an [undefined] operand of an arithmetic operator is
      coerced to [NaN] ([toNumber]).  An object with optional
      properties is a record with [option] fields.
    - A [TypeError] is a value of the error monad [exc].
    - A string is a [String.string]; [trim] and [parseFloat] are
      parameters of the statements that involve them.
    - A handler of the page is a function on the part of the page that
      it reads and writes; a pending timeout is an entry of a queue. *)

From Stdlib Require Import ZArith List Bool Lia Floats Reals Lra Permutation Sorted.
From stdpp Require Import base list.
From Stdlib Require Ascii String.
Import ListNotations Ascii.AsciiSyntax String.StringSyntax.
Delimit Scope char_scope with char.
Delimit Scope string_scope with string.

Set Warnings "-inexact-float".

(** ** Numbers *)

(** The arithmetic used by the E-step, the M-step and the density. *)
Class Arith (num : Type) := {
  of_Z : Z -> num;
  nadd : num -> num -> num;
  nsub : num -> num -> num;
  nmul : num -> num -> num;
  ndiv : num -> num -> num;
  nopp : num -> num;
  Math_sqrt : num -> num;
  Math_exp : num -> num;
  Math_pow : num -> num -> num;
  Math_PI : num;
  (** the literal [1e-10] *)
  lit_1e_10 : num;
  (** [NaN], also the value of [ToNumber(undefined)] *)
  NaN : num
}.

(** What the rest of the pipeline needs on top: comparisons, [isNaN],
    the logarithm, the absolute value and the remaining literals. *)
Class JsNumber (num : Type) := {
  js_arith :: Arith num;
  Math_log : num -> num;
  Math_abs : num -> num;
  (** [a < b] *)
  nlt : num -> num -> bool;
  (** [a >= b] *)
  nge : num -> num -> bool;
  (** [a === b] on numbers *)
  nseq : num -> num -> bool;
  isNaN : num -> bool;
  neg_Infinity : num;
  (** the literals [0.001], [1.96] and [0.5] *)
  lit_0_001 : num;
  lit_1_96 : num;
  lit_0_5 : num
}.

Declare Scope num_scope.
Delimit Scope num_scope with num.
Infix "+" := nadd : num_scope.
Infix "-" := nsub : num_scope.
Infix "*" := nmul : num_scope.
Infix "/" := ndiv : num_scope.
Notation "- x" := (nopp x) : num_scope.
Infix "<?" := nlt : num_scope.
Infix ">=?" := nge (at level 70) : num_scope.
Infix "===" := nseq (at level 70) : num_scope.

(** ** Errors *)

Inductive exc (A : Type) : Type :=
| Ok (a : A)
| Throw_TypeError.
Arguments Ok {A} a.
Arguments Throw_TypeError {A}.

Definition exc_bind {A B} (m : exc A) (f : A -> exc B) : exc B :=
  match m with
  | Ok a => f a
  | Throw_TypeError => Throw_TypeError
  end.

Notation "x <- m ;; k" := (exc_bind m (fun x => k))
  (at level 100, m at next level, right associativity).

(** A loop whose body may throw: [for (x of xs) { s = body(s, x) }]. *)
Fixpoint for_each {A S} (xs : list A) (s : S) (body : S -> A -> exc S) : exc S :=
  match xs with
  | [] => Ok s
  | x :: xs' => s' <- body s x ;; for_each xs' s' body
  end.

(** ** Arrays and values *)

Section Js.
Context {num : Type}.

(** [ToNumber] of a value that is a number or [undefined]. *)
Definition toNumber `{Arith num} (v : option num) : num :=
  match v with
  | Some x => x
  | None => NaN
  end.

(** [a[i]] used as a number. *)
Definition get `{Arith num} (a : list num) (i : nat) : num := toNumber (a !! i).

(** [rows[i]] used as an object: reading a property of [undefined]
    throws. *)
Definition get_row {A} (rows : list A) (i : nat) : exc A :=
  match rows !! i with
  | Some r => Ok r
  | None => Throw_TypeError
  end.

(** [a.reduce(f)] without an initial value. *)
Definition reduce1 {A} (f : A -> A -> A) (a : list A) : exc A :=
  match a with
  | [] => Throw_TypeError
  | x :: rest => Ok (fold_left f rest x)
  end.

(** [new Array(k).fill(v)] *)
Definition Array_fill {A} (k : nat) (v : A) : list A := repeat v k.

(** [a.slice(0, e)] *)
Definition slice0 {A} (a : list A) (e : nat) : list A := take e a.

Context `{JsNumber num}.
Local Open Scope num_scope.

(** The global [isNaN], which first applies [ToNumber]. *)
Definition js_isNaN (v : option num) : bool :=
  match v with
  | Some x => isNaN x
  | None => true
  end.

(** [Math.max(...a)]: minus infinity for no argument, [NaN] as soon as
    one argument is [NaN].  The sign of a zero result is not tracked;
    the script only uses the result in [>=] and [===], which do not
    see it. *)
Definition Math_max (a : list num) : num :=
  fold_left (fun highest x =>
               if isNaN highest then highest
               else if isNaN x then NaN
               else if highest <? x then x else highest)
            a neg_Infinity.

(** [a.indexOf(v)], with [None] for [-1]. *)
Fixpoint indexOf_from (a : list num) (v : num) (i : nat) : option nat :=
  match a with
  | [] => None
  | x :: a' => if x === v then Some i else indexOf_from a' v (S i)
  end.

Definition indexOf (a : list num) (v : num) : option nat := indexOf_from a v 0.

(** [a[idx]] where [idx] comes from [indexOf]: index [-1] names no
    element. *)
Definition at_index (a : list num) (idx : option nat) : option num :=
  match idx with
  | Some i => a !! i
  | None => None
  end.

(** [[...a].sort((x, y) => x - y)]: the copy is sorted with the
    comparator [x - y]; [x] goes before [y] when the comparator is
    negative.  Insertion from the right keeps equal elements in their
    original order, as the (stable) library sort does.  For a
    comparator that is not consistent on the data (a [NaN] among them)
    the language leaves the order to the implementation; this is one
    such order. *)
Definition comparefn (x y : num) : num := x - y.

Definition sorts_before (x y : num) : bool := comparefn x y <? of_Z 0.

Fixpoint sort_insert (x : num) (s : list num) : list num :=
  match s with
  | [] => [x]
  | y :: s' => if sorts_before y x then y :: sort_insert x s' else x :: y :: s'
  end.

Fixpoint sort_by_comparefn (a : list num) : list num :=
  match a with
  | [] => []
  | x :: a' => sort_insert x (sort_by_comparefn a')
  end.

End Js.

(** ** The fitting core *)

Section Core.
Context {num : Type}.
Local Open Scope num_scope.

Section WithArith.
Context `{Arith num}.

Definition of_nat (n : nat) : num := of_Z (Z.of_nat n).

(** The objects built by [simpleMeanStd], [simpleGMM] and the scoring
    loop.  [isSimple] is only set by [simpleMeanStd]; [bic] and
    [passesWeightConstraint] only by the scoring loop. *)
Record Model := {
  nComponents : nat;
  means : list num;
  variances : list num;
  weights : list num;
  isSimple : option bool;
  bic : option num;
  passesWeightConstraint : option bool
}.

(** Truthiness of a property that is a boolean or absent. *)
Definition truthy (b : option bool) : bool :=
  match b with
  | Some true => true
  | _ => false
  end.

(** [gaussianPDF] (lines 604-608). *)
Definition gaussianPDF (x mean stdDev : num) : num :=
  let coefficient := of_Z 1 / (stdDev * Math_sqrt (of_Z 2 * Math_PI)) in
  let exponent := - Math_pow (x - mean) (of_Z 2) / (of_Z 2 * Math_pow stdDev (of_Z 2)) in
  coefficient * Math_exp exponent.

(** [simpleMeanStd] (lines 154-171). *)
Definition simpleMeanStd (data : list num) : Model :=
  let n := length data in
  let mean := fold_left (fun sum v => sum + v) data (of_Z 0) / of_nat n in
  let variance :=
    if (3 <=? n)%nat then
      let sumSquares :=
        fold_left (fun sum v => sum + Math_pow (v - mean) (of_Z 2)) data (of_Z 0) in
      sumSquares / of_Z (Z.of_nat n - 1)
    else NaN in
  {| nComponents := 1;
     means := [mean];
     variances := [variance];
     weights := [of_Z 1];
     isSimple := Some true;
     bic := None;
     passesWeightConstraint := None |}.

(** The three arrays the EM loop of [simpleGMM] updates in place. *)
Record EMState := {
  st_means : list num;
  st_variances : list num;
  st_weights : list num
}.

(** E-step for sample [i] (lines 191-199): the row of responsibilities,
    each divided by the row sum plus [1e-10]. *)
Definition eStepRow (data : list num) (k : nat) (st : EMState) (i : nat) : list num :=
  let '(resp, sum) :=
    fold_left
      (fun '(resp, sum) j =>
         let prob := get (st_weights st) j
                     * gaussianPDF (get data i) (get (st_means st) j)
                                   (Math_sqrt (get (st_variances st) j)) in
         (resp ++ [prob], sum + prob))
      (seq 0 k) ([], of_Z 0) in
  map (fun r => r / (sum + lit_1e_10)) resp.

(** E-step (lines 189-200). *)
Definition eStep (data : list num) (k : nat) (st : EMState) : list (list num) :=
  map (eStepRow data k st) (seq 0 (length data)).

(** M-step for component [j] (lines 204-221).  The writes
    [weights[j] = ...] are at an index below the length of the array. *)
Definition mStepComponent (data : list num) (responsibilities : list (list num))
    (st : EMState) (j : nat) : exc EMState :=
  let n := length data in
  let nk := fold_left (fun sum r => sum + get r j) responsibilities (of_Z 0) in
  let weights' := <[j := nk / of_nat n]> (st_weights st) in
  meanSum <- for_each (seq 0 n) (of_Z 0)
               (fun meanSum i =>
                  r <- get_row responsibilities i ;;
                  Ok (meanSum + get r j * get data i)) ;;
  let means' := <[j := meanSum / nk]> (st_means st) in
  varSum <- for_each (seq 0 n) (of_Z 0)
              (fun varSum i =>
                 r <- get_row responsibilities i ;;
                 let diff := get data i - get means' j in
                 Ok (varSum + get r j * diff * diff)) ;;
  let variances' := <[j := varSum / nk]> (st_variances st) in
  Ok {| st_means := means'; st_variances := variances'; st_weights := weights' |}.

(** M-step (lines 203-222). *)
Definition mStep (data : list num) (k : nat) (responsibilities : list (list num))
    (st : EMState) : exc EMState :=
  for_each (seq 0 k) st (mStepComponent data responsibilities).

(** The inner loop of [calculateLogLikelihood] (lines 264-267): the
    density of the mixture at [x]. *)
Definition mixtureSum (x : num) (means variances weights : list num) : num :=
  fold_left
    (fun sum j =>
       sum + get weights j * gaussianPDF x (get means j) (Math_sqrt (get variances j)))
    (seq 0 (length means)) (of_Z 0).

(** One pass of the loop body up to the convergence test. *)
Definition emIteration (data : list num) (k : nat) (st : EMState) : exc EMState :=
  mStep data k (eStep data k st) st.

End WithArith.

Context `{JsNumber num}.

(** [initializeMeans] (lines 241-258).  An element read past the end of
    [sortedData] is [undefined]. *)
Definition seedIndices (len k : nat) : list nat :=
  if (k =? 1)%nat then [len / 2]%nat
  else if (k =? 2)%nat then [len / 3; 2 * len / 3]%nat
  else map (fun i => ((i + 1) * len / (k + 1))%nat) (seq 0 k).

Definition initializeMeans (data : list num) (k : nat) : list (option num) :=
  let sortedData := sort_by_comparefn data in
  map (fun idx => sortedData !! idx) (seedIndices (length sortedData) k).

(** [calculateLogLikelihood] (lines 261-271). *)
Definition calculateLogLikelihood (data means variances weights : list num) : num :=
  fold_left
    (fun logLikelihood i =>
       logLikelihood
       + Math_log (mixtureSum (get data i) means variances weights + lit_1e_10))
    (seq 0 (length data)) (of_Z 0).

Definition maxIter : nat := 100.
Definition tolerance : num := lit_0_001.

(** The loop of lines 187-230, [iters] passes remaining. *)
Fixpoint emLoop (data : list num) (k : nat) (iters : nat) (st : EMState)
    (prevLogLikelihood : num) : exc EMState :=
  match iters with
  | O => Ok st
  | S iters' =>
      st' <- emIteration data k st ;;
      let logLikelihood :=
        calculateLogLikelihood data (st_means st') (st_variances st') (st_weights st') in
      if Math_abs (logLikelihood - prevLogLikelihood) <? tolerance
      then Ok st'
      else emLoop data k iters' st' logLikelihood
  end.

(** The parameters before the first pass (lines 178-180).  A seed
    that [initializeMeans] read past the end is [undefined]; the loop
    only uses the seeds as operands of arithmetic, so that it is the
    same to hold their [ToNumber] from the start. *)
Definition initialState (data : list num) (k : nat) : EMState :=
  {| st_means := map toNumber (initializeMeans data k);
     st_variances := Array_fill k (of_Z 1);
     st_weights := Array_fill k (of_Z 1 / of_nat k) |}.

(** [simpleGMM] (lines 174-238). *)
Definition simpleGMM (data : list num) (k : nat) : exc Model :=
  st <- emLoop data k maxIter (initialState data k) neg_Infinity ;;
  Ok {| nComponents := k;
        means := st_means st;
        variances := st_variances st;
        weights := st_weights st;
        isSimple := None;
        bic := None;
        passesWeightConstraint := None |}.

(** [calculateBIC] (lines 274-289). *)
Definition numParams (k : nat) : Z := Z.of_nat k + Z.of_nat k + (Z.of_nat k - 1).

Definition calculateBIC (data : list num) (model : Model) : num :=
  let n := length data in
  let k := nComponents model in
  let logLikelihood :=
    calculateLogLikelihood data (means model) (variances model) (weights model) in
  - of_Z 2 * logLikelihood + of_Z (numParams k) * Math_log (of_nat n).

(** The body of the scoring loops (lines 116-127 and 322-331): fit [k]
    components, score, and push the extended copy of the model. *)
Definition scoreModel (data : list num) (models : list Model) (k : nat) : exc (list Model) :=
  model <- simpleGMM data k ;;
  let bic := calculateBIC data model in
  let maxWeight := Math_max (weights model) in
  let passesWeightConstraint := maxWeight >=? lit_0_5 in
  Ok (models ++ [ {| nComponents := nComponents model;
                     means := means model;
                     variances := variances model;
                     weights := weights model;
                     isSimple := isSimple model;
                     bic := Some bic;
                     passesWeightConstraint := Some passesWeightConstraint |} ]).

(** The callback of the [reduce] of lines 133 and 337. *)
Definition lowerBic (best m : Model) : Model :=
  if toNumber (bic m) <? toNumber (bic best) then m else best.

(** Lines 131-134 and 335-338; [models[0]] may be [undefined]. *)
Definition selectBest (models : list Model) : exc (option Model) :=
  let validModels := List.filter (fun m => truthy (passesWeightConstraint m)) models in
  if (0 <? length validModels)%nat
  then best <- reduce1 lowerBic validModels ;; Ok (Some best)
  else Ok (models !! 0%nat).

(** The computation of [bestModel] in [fitGMM] (lines 107-135). *)
Definition fitGMM (data : list num) : exc (option Model) :=
  if (length data <? 5)%nat then Ok (Some (simpleMeanStd data))
  else
    models <- for_each [1; 2; 3]%nat [] (scoreModel data) ;;
    selectBest models.

(** The three arrays filled by the loop of [plotTimeSeries]
    (lines 297-357); [None] is [null]. *)
Record Bands := {
  upperCI : list (option num);
  lowerCI : list (option num);
  meanLine : list (option num)
}.

Definition pushBands (b : Bands) (upper lower mean : option num) : Bands :=
  {| upperCI := upperCI b ++ [upper];
     lowerCI := lowerCI b ++ [lower];
     meanLine := meanLine b ++ [mean] |}.

(** Lines 312-344: the mean and the variance for the prefix, as values
    that may be [undefined]. *)
Definition cumulativeMeanVariance (cumulativeData : list num)
    : exc (option num * option num) :=
  if (length cumulativeData <=? 4)%nat then
    let mean := fold_left (fun sum v => sum + v) cumulativeData (of_Z 0)
                / of_nat (length cumulativeData) in
    let sumSquares :=
      fold_left (fun sum v => sum + Math_pow (v - mean) (of_Z 2)) cumulativeData (of_Z 0) in
    let variance := sumSquares / of_Z (Z.of_nat (length cumulativeData) - 1) in
    Ok (Some mean, Some variance)
  else
    models <- for_each [1; 2; 3]%nat [] (scoreModel cumulativeData) ;;
    selected <- selectBest models ;;
    match selected with
    | None => Throw_TypeError
    | Some cumulativeModel =>
        let dominantIdx :=
          indexOf (weights cumulativeModel) (Math_max (weights cumulativeModel)) in
        Ok (at_index (means cumulativeModel) dominantIdx,
            at_index (variances cumulativeModel) dominantIdx)
    end.

(** The body of the loop of lines 301-357 for index [i]. *)
Definition plotTimeSeries_step (data : list num) (b : Bands) (i : nat) : exc Bands :=
  if (i <? 2)%nat then Ok (pushBands b None None None)
  else
    let cumulativeData := slice0 data (i + 1) in
    mv <- cumulativeMeanVariance cumulativeData ;;
    let '(mean, variance) := mv in
    if negb (js_isNaN variance) then
      let stdDev := Math_sqrt (toNumber variance) in
      Ok (pushBands b (Some (toNumber mean + lit_1_96 * stdDev))
                      (Some (toNumber mean - lit_1_96 * stdDev))
                      (Some (toNumber mean)))
    else Ok (pushBands b None None None).

(** The band computed by [plotTimeSeries] (lines 293-357). *)
Definition plotTimeSeries (data : list num) : exc Bands :=
  for_each (seq 0 (length data)) {| upperCI := []; lowerCI := []; meanLine := [] |}
           (plotTimeSeries_step data).

(** The point plotted at index [i]: mean, lower bound, upper bound, or
    nothing when the arrays hold [null] there. *)
Definition pointAt (b : Bands) (i : nat) : option (num * num * num) :=
  match meanLine b !! i, lowerCI b !! i, upperCI b !! i with
  | Some (Some m), Some (Some lo), Some (Some up) => Some (m, lo, up)
  | _, _, _ => None
  end.

End Core.

Arguments Model num : clear implicits.
Arguments EMState num : clear implicits.
Arguments Bands num : clear implicits.

(** ** Binary64 numbers *)

(** The language specifies [Math.exp] and [Math.log] at a few arguments
    and leaves the other values to the implementation, which may
    return any approximation.  [MathApprox] stands for that part of an
    implementation. *)
Record MathApprox := {
  approx_exp : float -> float;
  approx_log : float -> float;
  approx_pow : float -> float -> float
}.

Module F64.

Local Open Scope float_scope.

(** Integers of magnitude below 2^53 are binary64 numbers. *)
Definition of_Z (z : Z) : float :=
  match z with
  | Z0 => 0
  | Zpos _ => PrimFloat.of_uint63 (Uint63.of_Z z)
  | Zneg p => - PrimFloat.of_uint63 (Uint63.of_Z (Zpos p))
  end.

(** [Math.exp]: NaN for NaN, 1 for both zeros, the infinities as the
    limits, an approximation elsewhere. *)
Definition exp (lib : MathApprox) (x : float) : float :=
  if PrimFloat.is_nan x then nan
  else if x =? 0 then 1
  else if x =? infinity then infinity
  else if x =? neg_infinity then 0
  else approx_exp lib x.

(** [Math.log]: NaN for NaN and below zero, minus infinity for both
    zeros, 0 for 1, infinity for infinity, an approximation
    elsewhere. *)
Definition log (lib : MathApprox) (x : float) : float :=
  if PrimFloat.is_nan x then nan
  else if x <? 0 then nan
  else if x =? 0 then neg_infinity
  else if x =? 1 then 0
  else if x =? infinity then infinity
  else approx_log lib x.

(** [Math.pow]: the script only raises to the power 2, which the
    engines compute as the rounded product (the case [y == 2] of
    fdlibm's [pow]). *)
Definition pow (lib : MathApprox) (x y : float) : float :=
  if y =? 2 then x * x else approx_pow lib x y.

(** [Math.PI] *)
Definition PI : float := 0x1.921fb54442d18p+1.

(** The value of a number that is not [NaN], in units of [2^emin],
    with the infinities standing for the two bounds that no finite
    number reaches.  It is used to state the order that the sort
    comparator induces. *)
Definition sf_key (prec emax : Z) (x : spec_float) : Z :=
  match x with
  | S754_zero _ => 0
  | S754_nan => 0
  | S754_infinity s => cond_Zopp s (2 ^ (emax - SpecFloat.emin prec emax))
  | S754_finite s m e => cond_Zopp s (Zpos m * 2 ^ (e - SpecFloat.emin prec emax))
  end%Z.

Definition key (x : float) : Z := sf_key FloatOps.prec FloatOps.emax (Prim2SF x).

End F64.

(** Binary64 arithmetic over an implementation [lib] of the
    approximated functions.  [Math.sqrt] and the four operations are
    correctly rounded. *)
Definition IEEE_Arith (lib : MathApprox) : Arith float := {|
  of_Z := F64.of_Z;
  nadd := PrimFloat.add;
  nsub := PrimFloat.sub;
  nmul := PrimFloat.mul;
  ndiv := PrimFloat.div;
  nopp := PrimFloat.opp;
  Math_sqrt := PrimFloat.sqrt;
  Math_exp := F64.exp lib;
  Math_pow := F64.pow lib;
  Math_PI := F64.PI;
  lit_1e_10 := 1e-10%float;
  NaN := PrimFloat.nan
|}.

Definition IEEE (lib : MathApprox) : JsNumber float := {|
  js_arith := IEEE_Arith lib;
  Math_log := F64.log lib;
  Math_abs := PrimFloat.abs;
  nlt := PrimFloat.ltb;
  nge := fun a b => PrimFloat.leb b a;
  nseq := PrimFloat.eqb;
  isNaN := PrimFloat.is_nan;
  neg_Infinity := PrimFloat.neg_infinity;
  lit_0_001 := 0.001%float;
  lit_1_96 := 1.96%float;
  lit_0_5 := 0.5%float
|}.

(** A reference implementation of the approximated functions, used to
    run the pipeline on concrete data. *)
Module RefLib.

Local Open Scope float_scope.

(** The integer value of a float that holds an integer below 2^53. *)
Definition to_Z (x : float) : Z :=
  let '(m, e) := FloatOps.Z.frexp (PrimFloat.abs x) in
  let mag := Z.shiftl (Uint63.to_Z (PrimFloat.normfr_mantissa m)) (e - 53) in
  if x <? 0 then Z.opp mag else mag.

(** [e^x = 2^k * e^r] with [k] the integer nearest to [x / ln 2] and
    [r = x - k * ln 2], the latter by its Taylor polynomial. *)
Definition exp (x : float) : float :=
  let kf := (x * 0x1.71547652b82fep+0 + 0x1.8p+52) - 0x1.8p+52 in
  let r := (x - kf * 0x1.62e42fee00000p-1) - kf * 0x1.a39ef35793c76p-33 in
  let t := fold_right (fun i acc => 1 + r / i * acc) 1
             [1; 2; 3; 4; 5; 6; 7; 8; 9; 10; 11; 12; 13; 14] in
  FloatOps.Z.ldexp t (to_Z kf).

(** [ln x] for positive finite [x = m * 2^e], [1/2 <= m < 1]:
    [e * ln 2 + 2 * atanh ((m - 1) / (m + 1))]. *)
Definition log (x : float) : float :=
  let '(m, e) := FloatOps.Z.frexp x in
  let t := (m - 1) / (m + 1) in
  let t2 := t * t in
  let series := fold_right (fun i acc => 1 / i + t2 * acc) 0
                  [1; 3; 5; 7; 9; 11; 13; 15; 17; 19; 21; 23; 25; 27; 29; 31; 33; 35] in
  F64.of_Z e * 0x1.62e42fefa39efp-1 + 2 * t * series.

Definition pow (x y : float) : float := exp (y * log x).

Definition lib : MathApprox :=
  {| approx_exp := exp; approx_log := log; approx_pow := pow |}.

End RefLib.

(** ** Exact arithmetic *)

(** The same formulas over the real numbers: what the E-step and the
    M-step compute when no operation rounds.  There is no [NaN] among
    the reals; the field [NaN] is only read by an access past the end
    of an array, which the statements about this instance exclude. *)
Module Exact.

Local Open Scope R_scope.

Definition pow (x y : R) : R := if Req_EM_T y 2 then x * x else Rpower x y.

Definition RArith : Arith R := {|
  of_Z := IZR;
  nadd := Rplus;
  nsub := Rminus;
  nmul := Rmult;
  ndiv := Rdiv;
  nopp := Ropp;
  Math_sqrt := sqrt;
  Math_exp := exp;
  Math_pow := pow;
  Math_PI := PI;
  lit_1e_10 := / 10000000000;
  NaN := 0
|}.

End Exact.

(** ** Notions used in the statements *)

Section Notions.
Context {num : Type}.
Local Open Scope num_scope.

(** The three arrays of a state have [k] elements. *)
Definition has_size (k : nat) (st : EMState num) : Prop :=
  length (st_means st) = k /\ length (st_variances st) = k /\ length (st_weights st) = k.

(** The sum of a list the way the loops of the script accumulate it:
    from 0, left to right. *)
Definition sum_from_0 `{Arith num} (l : list num) : num := fold_left nadd l (of_Z 0).

(** The column sum [nk] of component [j]. *)
Definition columnSum `{Arith num} (rows : list (list num)) (j : nat) : num :=
  fold_left (fun sum r => sum + get r j) rows (of_Z 0).


(** The mean and the variance that the M-step stores for component
    [j]: the data weighted by column [j] of the responsibilities. *)
Definition respMean `{Arith num} (rows : list (list num)) (data : list num) (j : nat) : num :=
  fold_left (fun meanSum i => meanSum + get (default [] (rows !! i)) j * get data i)
            (seq 0 (length data)) (of_Z 0)
  / columnSum rows j.

Definition respVariance `{Arith num} (rows : list (list num)) (data : list num) (j : nat)
    : num :=
  fold_left (fun varSum i =>
               varSum + get (default [] (rows !! i)) j
                        * (get data i - respMean rows data j)
                        * (get data i - respMean rows data j))
            (seq 0 (length data)) (of_Z 0)
  / columnSum rows j.

(** Plain sample mean and Bessel-corrected sample variance. *)
Definition sampleMean `{Arith num} (data : list num) : num :=
  sum_from_0 data / of_nat (length data).

Definition sampleVariance `{Arith num} (data : list num) : num :=
  sum_from_0 (map (fun v => Math_pow (v - sampleMean data) (of_Z 2)) data)
  / of_Z (Z.of_nat (length data) - 1).

(** The weighted density of one component. *)
Definition componentDensity `{Arith num} (x : num) (c : num * num * num) : num :=
  let '(weight, mean, variance) := c in
  weight * gaussianPDF x mean (Math_sqrt variance).

(** The components of a mixture, index-aligned. *)
Definition components (weights means variances : list num) : list (num * num * num) :=
  zip (zip weights means) variances.

Context `{JsNumber num}.

(** The log-likelihood as a sum over samples of the logarithm of a sum
    over components, plus [1e-10]. *)
Definition logLikelihoodOf (data : list num) (cs : list (num * num * num)) : num :=
  sum_from_0
    (map (fun x => Math_log (sum_from_0 (map (componentDensity x) cs) + lit_1e_10)) data).

(** The dominance constraint and the scored copy of a fitted model. *)
Definition dominant (m : Model num) : bool := Math_max (weights m) >=? lit_0_5.

Definition scored (data : list num) (m : Model num) : Model num :=
  {| nComponents := nComponents m;
     means := means m;
     variances := variances m;
     weights := weights m;
     isSimple := isSimple m;
     bic := Some (calculateBIC data m);
     passesWeightConstraint := Some (dominant m) |}.

Definition bicOf (m : Model num) : num := toNumber (bic m).

(** The index of the dominant component, as the script finds it. *)
Definition dominantIdx (m : Model num) : option nat :=
  indexOf (weights m) (Math_max (weights m)).

(** A point of the band: absent when the variance is [NaN] (or not a
    number at all), else the mean with the 1.96-sigma bounds. *)
Definition band (mean variance : option num) : option (num * num * num) :=
  if js_isNaN variance then None
  else Some (toNumber mean,
             toNumber mean - lit_1_96 * Math_sqrt (toNumber variance),
             toNumber mean + lit_1_96 * Math_sqrt (toNumber variance)).

(** [best], at index [i] of [l], has a BIC that no model of [l] is
    below, and every model before it is strictly above it, unless its
    BIC is [NaN], which compares with nothing. *)
Definition first_minimum (l : list (Model num)) (i : nat) (best : Model num) : Prop :=
  l !! i = Some best
  /\ forall j m, l !! j = Some m ->
       (bicOf m <? bicOf best) = false
       /\ ((j < i)%nat -> (bicOf best <? bicOf m) = true \/ isNaN (bicOf m) = true).

(** [d] is the first index at which [l] holds a value equal to [v]. *)
Definition first_index_of (l : list num) (v : num) (d : nat) : Prop :=
  (exists w, l !! d = Some w /\ (w === v) = true)
  /\ forall j w, (j < d)%nat -> l !! j = Some w -> (w === v) = false.

(** What is plotted at index [i]: nothing for the first two indices;
    the band of the plain mean and sample variance of the prefix for
    the next two; from the fifth sample on, the band of the dominant
    component of the model selected for the prefix. *)
Definition plots (data : list num) (i : nat) (p : option (num * num * num)) : Prop :=
  let prefix := slice0 data (i + 1) in
  ((i < 2)%nat -> p = None)
  /\ ((2 <= i <= 3)%nat ->
      p = band (Some (sampleMean prefix)) (Some (sampleVariance prefix)))
  /\ ((4 <= i)%nat ->
      exists m, fitGMM prefix = Ok (Some m)
                /\ p = band (at_index (means m) (dominantIdx m))
                            (at_index (variances m) (dominantIdx m))
                /\ forall d, dominantIdx m = Some d ->
                             first_index_of (weights m) (Math_max (weights m)) d).

(** The comparator of the sort is consistent on the values of [l]:
    "sorts before" is asymmetric, and "does not sort before" is
    transitive. *)
Definition consistent_on (l : list num) : Prop :=
  (forall x y, In x l -> In y l -> sorts_before x y = true -> sorts_before y x = false)
  /\ (forall x y z, In x l -> In y l -> In z l ->
        sorts_before y x = false -> sorts_before z y = false -> sorts_before z x = false).

(** No later element sorts before an earlier one. *)
Definition ascending (l : list num) : Prop :=
  StronglySorted (fun x y => sorts_before y x = false) l.

(** The measurements, numbered from 1, that have a point on the time
    series, each with its point. *)
Definition plottedPoints (b : Bands num) : list (nat * (num * num * num)) :=
  omap (fun i => option_map (pair (i + 1)%nat) (pointAt b i)) (seq 0 (length (meanLine b))).

(** One step of [Math.max] over its arguments. *)
Definition maxStep (highest x : num) : num :=
  if isNaN highest then highest
  else if isNaN x then NaN
  else if highest <? x then x else highest.

(** The model all of whose parameters are [NaN]. *)
Definition nanModel (k : nat) : Model num :=
  {| nComponents := k;
     means := repeat NaN k;
     variances := repeat NaN k;
     weights := repeat NaN k;
     isSimple := None;
     bic := None;
     passesWeightConstraint := None |}.

End Notions.

(** The order laws of [<] that the selection relies on, and the
    consistency of the sort comparator on numbers other than [NaN]. *)
Class NumOrder (num : Type) `{JsNumber num} : Prop := {
  nlt_irrefl : forall a : num, nlt a a = false;
  nlt_trans : forall a b c : num, nlt a b = true -> nlt b c = true -> nlt a c = true;
  nlt_neg_trans : forall a b c : num,
      nlt a b = true -> nlt c b = false -> nlt a c = true \/ isNaN c = true;
  comparefn_consistent : forall l : list num,
      Forall (fun x => isNaN x = false) l -> consistent_on l
}.

(** Datasets of one repeated value: the example [[5,5,5,5,5]] and [n]
    copies of 1, 2, 4 or 8 for [n] from 1 to 10. *)
Definition repeatedDatasets : list (list float) :=
  repeat 5%float 5
  :: map (fun '(v, n) => repeat v n) (list_prod [1; 2; 4; 8]%float (seq 1 10)).


(** Ten counts around a setpoint near 6 with two acute values. *)
Definition demoDataset : list float :=
  [5.2; 6.1; 5.5; 6.6; 7.0; 6.3; 5.9; 14.2; 13.1; 6.4]%float.

(** Two samples, and three unsorted samples. *)
Definition twoSamples : list float := [5.2; 6.1]%float.
Definition threeSamples : list float := [3; 1; 2]%float.


(** Further laws of the numbers, used for [Math.max] and [indexOf]:
    [NaN] is a [NaN], equals nothing and is the only number not equal
    to itself; nothing lies below minus infinity. *)
Class NumEq (num : Type) `{JsNumber num} : Prop := {
  isNaN_NaN : isNaN NaN = true;
  isNaN_neg_Infinity : isNaN neg_Infinity = false;
  isNaN_one : isNaN (of_Z 1) = false;
  nseq_refl : forall x : num, isNaN x = false -> nseq x x = true;
  nseq_NaN : forall x y : num, isNaN y = true -> nseq x y = false;
  neg_Infinity_least : forall x : num,
      isNaN x = false -> nlt neg_Infinity x = false -> nseq x neg_Infinity = true;
  nlt_nseq : forall x y z : num, nseq x y = true -> nlt x z = nlt y z
}.

(** ** The rest of the WBC demo *)

Section Display.
Context {num : Type}.
Local Open Scope num_scope.

(** [generateRange] (lines 610-617); the loop runs for [i = 0 .. steps]. *)
Definition generateRange `{Arith num} (min max : num) (steps : nat) : list num :=
  let step := (max - min) / of_nat steps in
  map (fun i => min + of_nat i * step) (seq 0 (steps + 1)).

(** What a trace holds apart from its styling. *)
Record Trace := {
  trace_x : list num;
  trace_y : list num
}.

Context `{JsNumber num}.

(** [Infinity] *)
Definition Infinity : num := - neg_Infinity.

(** [Math.min(...a)]: infinity for no argument, [NaN] as soon as one
    argument is [NaN]; the sign of a zero result is not tracked. *)
Definition Math_min (a : list num) : num :=
  fold_left (fun lowest x =>
               if isNaN lowest then lowest
               else if isNaN x then NaN
               else if x <? lowest then x else lowest)
            a Infinity.

(** The curve of component [i] over [xRange] (lines 500-507). *)
Definition componentCurve (model : Model num) (xRange : list num) (i : nat) (mean : num)
    : list num :=
  let stdDev := Math_sqrt (get (variances model) i) in
  let weight := get (weights model) i in
  map (fun x => weight * gaussianPDF x mean stdDev) xRange.

(** [a.reduce((sum, v, i) => f(sum, v, i), init)] *)
Definition reduce_indexed {A B} (f : B -> A -> nat -> B) (a : list A) (init : B) : B :=
  fold_left (fun sum iv => f sum (snd iv) (fst iv)) (imap (fun i v => (i, v)) a) init.

(** The density of the whole mixture over [xRange] (lines 521-527). *)
Definition totalDensity (model : Model num) (xRange : list num) : list num :=
  map (fun x =>
         reduce_indexed
           (fun sum mean i =>
              let stdDev := Math_sqrt (get (variances model) i) in
              let weight := get (weights model) i in
              sum + weight * gaussianPDF x mean stdDev)
           (means model) (of_Z 0))
      xRange.

(** The traces built by [plotResults] (lines 473-539): the rug of the
    data, one curve per component, the total. *)
Definition plotResults (data : list num) (model : Model num) : list Trace :=
  let rug := {| trace_x := data; trace_y := map (fun _ => of_Z 0) data |} in
  let xRange := generateRange (Math_min data - of_Z 2) (Math_max data + of_Z 2) 200 in
  let curves :=
    imap (fun i mean => {| trace_x := xRange; trace_y := componentCurve model xRange i mean |})
         (means model) in
  let total := {| trace_x := xRange; trace_y := totalDensity model xRange |} in
  [rug] ++ curves ++ [total].

(** The numbers that [displayResults] formats (lines 565-597). *)
Record Summary := {
  sm_components : nat;
  sm_setpoint : num;
  sm_stdDev : num;
  sm_ci95 : num * num;
  sm_percent : num;
  sm_outlierPct : option num
}.

(** [displayResults] (lines 565-601).  The first thing formatted after
    the number of components is [dominant.mean.toFixed(2)], a property
    read that throws when [dominant.mean] is [undefined]; the other
    values formatted are results of arithmetic, hence numbers. *)
Definition displayResults (model : Model num) : exc Summary :=
  let dominantIdx := indexOf (weights model) (Math_max (weights model)) in
  let dominant_mean := at_index (means model) dominantIdx in
  let dominant_variance := at_index (variances model) dominantIdx in
  let dominant_weight := at_index (weights model) dominantIdx in
  let stdDev := Math_sqrt (toNumber dominant_variance) in
  let ci95 := (toNumber dominant_mean - lit_1_96 * stdDev,
               toNumber dominant_mean + lit_1_96 * stdDev) in
  match dominant_mean with
  | None => Throw_TypeError
  | Some mean =>
      Ok {| sm_components := nComponents model;
            sm_setpoint := mean;
            sm_stdDev := stdDev;
            sm_ci95 := ci95;
            sm_percent := toNumber dominant_weight * of_Z 100;
            sm_outlierPct :=
              if (1 <? nComponents model)%nat
              then Some (of_Z 100 - toNumber dominant_weight * of_Z 100)
              else None |}
  end.

(** Lines 359-396 of [plotTimeSeries]: the band and the mean line keep
    the measurement numbers (from 1) whose entry is not [null]. *)
Definition notNull {A} (v : option (option A)) : bool :=
  match v with
  | Some None => false
  | _ => true
  end.

Definition validIndicesOf (arr : list (option num)) (indices : list nat) : list nat :=
  omap (fun v => v)
       (imap (fun i idx => if notNull (arr !! i) then Some idx else None) indices).

Definition validValuesOf (arr : list (option num)) : list (option num) :=
  List.filter (fun v => notNull (Some v)) arr.

Record TimeSeriesPlot := {
  ci_trace : option (list nat * list (option num));
  mean_trace : option (list nat * list (option num));
  data_trace : list nat * list num
}.

Definition timeSeriesTraces (data : list num) (b : Bands num) : TimeSeriesPlot :=
  let indices := map (fun i => (i + 1)%nat) (seq 0 (length data)) in
  let validIndices := validIndicesOf (upperCI b) indices in
  let validUpper := validValuesOf (upperCI b) in
  let validLower := validValuesOf (lowerCI b) in
  let validMeanIndices := validIndicesOf (meanLine b) indices in
  let validMean := validValuesOf (meanLine b) in
  {| ci_trace :=
       if (0 <? length validIndices)%nat
       then Some (validIndices ++ rev validIndices, validUpper ++ rev validLower)
       else None;
     mean_trace :=
       if (0 <? length validMeanIndices)%nat then Some (validMeanIndices, validMean) else None;
     data_trace := (indices, data) |}.

(** What the timer of [fitGMM] leaves behind (lines 105-150): the
    plots and the summary, or the message "GMM fitting failed". *)
Inductive RunOutcome :=
| Displayed (timeSeries : TimeSeriesPlot) (density : list Trace) (summary : Summary)
| FittingFailed.

(** The body of the [try] (lines 107-142): [fittedModel] is assigned
    before anything is drawn.  The calls into the plotting library and
    the page are taken to return. *)
Definition fitGMM_try (data : list num)
    : option (option (Model num)) * exc (TimeSeriesPlot * list Trace * Summary) :=
  match fitGMM data with
  | Throw_TypeError => (None, Throw_TypeError)
  | Ok bestModel =>
      (Some bestModel,
       bands <- plotTimeSeries data ;;
       let timeSeries := timeSeriesTraces data bands in
       model <- match bestModel with Some m => Ok m | None => Throw_TypeError end ;;
       let density := plotResults data model in
       summary <- displayResults model ;;
       Ok (timeSeries, density, summary))
  end.

Definition fitGMM_run (data : list num) : option (option (Model num)) * RunOutcome :=
  let '(fitted, r) := fitGMM_try data in
  (fitted,
   match r with
   | Ok (timeSeries, density, summary) => Displayed timeSeries density summary
   | Throw_TypeError => FittingFailed
   end).

End Display.

Arguments Trace num : clear implicits.
Arguments Summary num : clear implicits.
Arguments TimeSeriesPlot num : clear implicits.
Arguments RunOutcome num : clear implicits.

(** ** Input validation of the WBC demo *)

(** [s.split(',')]: the pieces between the commas; there is always at
    least one piece. *)
Fixpoint split_comma (s : String.string) : list String.string :=
  match s with
  | String.EmptyString => [String.EmptyString]
  | String.String c s' =>
      if Ascii.eqb c ","%char then String.EmptyString :: split_comma s'
      else match split_comma s' with
           | piece :: pieces => String.String c piece :: pieces
           | [] => [String.String c String.EmptyString]
           end
  end.

(** [!input] for a string. *)
Definition is_empty (s : String.string) : bool :=
  match s with
  | String.EmptyString => true
  | String.String _ _ => false
  end.

(** The messages passed to [showError]: the two of [validateInput]
    and the one of the timer of [fitGMM]. *)
Inductive ValidationMessage :=
| AtLeastOneValidValue
| InvalidInputFormat
| GmmFittingFailed.

(** What [validateInput] and the click handler read and write: the
    stored data, the fit button (whether it is disabled, and its text
    once the script has set it) and the message shown. *)
Record GmmPage {num : Type} := {
  currentData : option (list num);
  fitDisabled : bool;
  fitText : option String.string;
  shownError : option ValidationMessage
}.
Arguments GmmPage num : clear implicits.

Section Validation.
Context {num : Type} `{JsNumber num}.
Local Open Scope num_scope.

(** [String.prototype.trim] and the global [parseFloat] are left
    unspecified: the statements hold whatever they return. *)
Variable trim : String.string -> String.string.
Variable parseFloat : String.string -> num.

(** [input.split(',').map(v => parseFloat(v.trim()))] *)
Definition parseValues (input : String.string) : list num :=
  map (fun v => parseFloat (trim v)) (split_comma input).

(** [v => !isNaN(v) && v > 0 && v < bound] *)
Definition inRange (bound : Z) (v : num) : bool :=
  negb (isNaN v) && (of_Z 0 <? v) && (v <? of_Z bound).

(** Every value is a number strictly between 0 and [bound]. *)
Definition allInRange (bound : Z) (values : list num) : Prop :=
  Forall (fun v => isNaN v = false /\ (of_Z 0 <? v) = true /\ (v <? of_Z bound) = true)
         values.

(** [validateInput] (lines 67-93) on the text of the input field.
    Nothing in the [try] block throws. *)
Definition validateInput (text : String.string) (page : GmmPage num) : bool * GmmPage num :=
  let input := trim text in
  if is_empty input then
    (false, {| currentData := currentData page;
               fitDisabled := true;
               fitText := fitText page;
               shownError := shownError page |})
  else
    let values := parseValues input in
    let valid := forallb (inRange 100) values in
    if valid && (1 <=? length values)%nat then
      (true, {| currentData := Some values;
                fitDisabled := false;
                fitText := fitText page;
                shownError := None |})
    else
      (false, {| currentData := currentData page;
                 fitDisabled := true;
                 fitText := fitText page;
                 shownError := Some AtLeastOneValidValue |}).

(** The click handler [fitGMM] up to the timer (lines 96-105).  When
    validation fails it returns at once.  Otherwise it reads the data
    that the timer will fit, puts the button into its loading state
    (line 102: text "Fitting...", disabled) and sets the timer. *)
Definition fitGMM_click (text : String.string) (page : GmmPage num)
    : GmmPage num * option (option (list num)) :=
  let '(ok, page') := validateInput text page in
  if ok then
    let data := currentData page' in
    ({| currentData := currentData page';
        fitDisabled := true;
        fitText := Some "Fitting..."%string;
        shownError := shownError page' |},
     Some data)
  else (page', None).

(** What the timer leaves on the page (lines 144-149): the message of
    the [catch] when the fit failed, and in every case the button of
    the [finally]: text "Fit Model", enabled. *)
Definition fitGMM_settle (outcome : RunOutcome num) (page : GmmPage num) : GmmPage num :=
  {| currentData := currentData page;
     fitDisabled := false;
     fitText := Some "Fit Model"%string;
     shownError := match outcome with
                   | FittingFailed => Some GmmFittingFailed
                   | Displayed _ _ _ => shownError page
                   end |}.

End Validation.

(** ** The recovery trajectory demo *)

Module TrajectoryDemo.

Record Config {num : Type} := {
  wbcData : list num;
  pltData : list num
}.
Arguments Config num : clear implicits.

(** An arrow of the trajectory plot: head and tail. *)
Record Annotation {num : Type} := {
  ann_x : option num;
  ann_y : option num;
  ann_ax : option num;
  ann_ay : option num
}.
Arguments Annotation num : clear implicits.

(** The numbers formatted by [displayResults]. *)
Record Summary {num : Type} := {
  timePoints : nat;
  initialWBC : num;
  finalWBC : num;
  wbcChange : num;
  wbcPlus : bool;
  initialPLT : num;
  finalPLT : num;
  pltChange : num;
  pltPlus : bool
}.
Arguments Summary num : clear implicits.

(** What the timer of [generateTrajectory] leaves behind. *)
Inductive Outcome {num : Type} :=
| Shown (timeSeries : list nat * list num * list num)
        (trajectory : list num * list num)
        (arrows : list (Annotation num))
        (summary : Summary num)
| FailedAlert.
Arguments Outcome num : clear implicits.

Section Demo.
Context {num : Type} `{JsNumber num}.
Local Open Scope num_scope.

Variable trim : String.string -> String.string.
Variable parseFloat : String.string -> num.

(** The initial configuration (lines 12-21). *)
Definition initialConfig : Config num := {| wbcData := []; pltData := [] |}.

(** [validateInput] (lines 40-70) on the texts of the two fields; the
    second component of the state is whether the button is
    disabled. *)
Definition validateInput (wbcText pltText : String.string) (st : Config num * bool)
    : bool * (Config num * bool) :=
  let wbcInput := trim wbcText in
  let pltInput := trim pltText in
  if is_empty wbcInput || is_empty pltInput then (false, (fst st, true))
  else
    let wbcValues := parseValues trim parseFloat wbcInput in
    let pltValues := parseValues trim parseFloat pltInput in
    let wbcValid := forallb (inRange 100) wbcValues in
    let pltValid := forallb (inRange 1000) pltValues in
    let sameLengthAndEnough :=
      (length wbcValues =? length pltValues)%nat && (3 <=? length wbcValues)%nat in
    if wbcValid && pltValid && sameLengthAndEnough then
      (true, ({| wbcData := wbcValues; pltData := pltValues |}, false))
    else (false, (fst st, true)).

(** The [input] events that follow each other on the two fields. *)
Definition inputEvents (events : list (String.string * String.string))
    (st : Config num * bool) : Config num * bool :=
  fold_left (fun st e => snd (validateInput (fst e) (snd e) st)) events st.

(** A configuration that passed validation: two series of the same
    length, three points or more, all within their ranges. *)
Definition ready (c : Config num) : Prop :=
  length (wbcData c) = length (pltData c)
  /\ (3 <= length (wbcData c))%nat
  /\ allInRange 100 (wbcData c)
  /\ allInRange 1000 (pltData c).

(** The traces of [plotTimeSeries] (lines 95-132): the days and the
    two series. *)
Definition plotTimeSeries (c : Config num) : list nat * list num * list num :=
  let n := length (wbcData c) in
  (seq 0 n, wbcData c, pltData c).

(** The arrows of [plotTrajectory] (lines 278-296); the loop runs for
    [i < n - 1]. *)
Definition arrows (c : Config num) : list (Annotation num) :=
  let n := length (wbcData c) in
  let wbc := wbcData c in
  let plt := pltData c in
  map (fun i => {| ann_x := wbc !! (i + 1)%nat;
                   ann_y := plt !! (i + 1)%nat;
                   ann_ax := wbc !! i;
                   ann_ay := plt !! i |})
      (seq 0 (n - 1)).

(** [displayResults] (lines 340-366): [toFixed] is called on the first
    and the last element of each series and throws on [undefined]. *)
Definition displayResults (c : Config num) : exc (Summary num) :=
  let wbc := wbcData c in
  let plt := pltData c in
  let n := length wbc in
  let initialWBC := wbc !! 0%nat in
  let finalWBC := if (n =? 0)%nat then None else wbc !! (n - 1)%nat in
  let initialPLT := plt !! 0%nat in
  let finalPLT := if (n =? 0)%nat then None else plt !! (n - 1)%nat in
  let wbcChange := toNumber finalWBC - toNumber initialWBC in
  let pltChange := toNumber finalPLT - toNumber initialPLT in
  match initialWBC, finalWBC, initialPLT, finalPLT with
  | Some iw, Some fw, Some ip, Some fp =>
      Ok {| timePoints := n;
            initialWBC := iw; finalWBC := fw;
            wbcChange := wbcChange; wbcPlus := of_Z 0 <? wbcChange;
            initialPLT := ip; finalPLT := fp;
            pltChange := pltChange; pltPlus := of_Z 0 <? pltChange |}
  | _, _, _, _ => Throw_TypeError
  end.

(** The timer of [generateTrajectory] (lines 78-92); it reads the
    configuration when it fires. *)
Definition generateTrajectory_timer (c : Config num) : Outcome num :=
  match displayResults c with
  | Ok summary => Shown (plotTimeSeries c) (wbcData c, pltData c) (arrows c) summary
  | Throw_TypeError => FailedAlert
  end.

End Demo.

(** The curve of the typical recovery in [plotTrajectory]
    (lines 203-227), computed exactly. *)
Section Reference.
Local Open Scope R_scope.

Definition totalDays : R := 7.
Definition avgTrajectoryPoints : nat := 50.
Definition halfLife : R := 1.
Definition decayConstant : R := ln 2 / halfLife.

Definition day (i : nat) : R := INR i / (INR avgTrajectoryPoints - 1) * totalDays.

Definition avgWBC : list R :=
  map (fun i => 7.5 + 7.5 * exp (- decayConstant * day i)) (seq 0 avgTrajectoryPoints).

Definition avgPLT : list R :=
  map (fun i => if Rle_dec (day i) 1 then 140
                else 140 + (280 - 140) * ((day i - 1) / (totalDays - 1)))
      (seq 0 avgTrajectoryPoints).

End Reference.

End TrajectoryDemo.

(** ** The red-cell morphology demo *)

Module RBCDemo.

Local Open Scope string_scope.

Record Results := {
  microcytes : float;
  macrocytes : float;
  elliptocytes : float;
  schistocytes : float;
  sickleCells : float;
  spiculatedCells : float;
  teardrops : float
}.

Record Image := {
  id : String.string;
  label : String.string;
  description : String.string;
  rawPath : String.string;
  fitPath : String.string;
  results : Results;
  clinical : String.string
}.

(** The gallery (lines 13-82). *)
Definition healthy : Image :=
  {| id := "healthy";
     label := "Healthy";
     description := "Normal";
     rawPath := "images/rbc-diff-demo/Healthy.jpg";
     fitPath := "images/rbc-diff-demo/Healthy_Fit.png";
     results := {| microcytes := 5.5; macrocytes := 0.3; elliptocytes := 0.2;
                   schistocytes := 0.2; sickleCells := 0; spiculatedCells := 0.4;
                   teardrops := 0.1 |}%float;
     clinical := "A healthy patient, exhibiting mild microcytosis." |}.

Definition schistocytosis : Image :=
  {| id := "schistocytosis";
     label := "Thrombotic thrombocytopenic purpura";
     description := "Schistocytosis";
     rawPath := "images/rbc-diff-demo/Schistocytosis.jpg";
     fitPath := "images/rbc-diff-demo/Schistocytosis_Fit.png";
     results := {| microcytes := 1.7; macrocytes := 0.8; elliptocytes := 0.2;
                   schistocytes := 2.6; sickleCells := 0; spiculatedCells := 10.6;
                   teardrops := 0.2 |}%float;
     clinical := "A patient with thrombotic thrombocytopenic purpura, causing an elevation in schistocytes and spiculated cells." |}.

Definition sickle_cell : Image :=
  {| id := "sickle-cell";
     label := "Sickle Cell Anemia";
     description := "Sickle cells";
     rawPath := "images/rbc-diff-demo/Sickle cell.jpg";
     fitPath := "images/rbc-diff-demo/Sickle cell_Fit.png";
     results := {| microcytes := 1.3; macrocytes := 24.2; elliptocytes := 3.7;
                   schistocytes := 0.7; sickleCells := 2.3; spiculatedCells := 0.2;
                   teardrops := 0.9 |}%float;
     clinical := "A patient with sickle cell anemia, with secondary macrocytosis. The severity of disease also leads to misclassification of some sickle cells as elliptocytes." |}.

Definition elliptocytosis : Image :=
  {| id := "elliptocytosis";
     label := "Hereditary elliptocytosis";
     description := "Ellipticytes";
     rawPath := "images/rbc-diff-demo/Elliptocytosis.jpg";
     fitPath := "images/rbc-diff-demo/Elliptocytosis_Fit.png";
     results := {| microcytes := 25.9; macrocytes := 0.1; elliptocytes := 1.8;
                   schistocytes := 0.5; sickleCells := 0; spiculatedCells := 0.1;
                   teardrops := 0.1 |}%float;
     clinical := "A patient with a mild presentation of hereditary elliptocytosis, identified during an unrelated evaluation for iron-deficiency anemia (causing microcytosis)." |}.

Definition sampleImages : list Image :=
  [healthy; schistocytosis; sickle_cell; elliptocytosis].

(** The rows of [displayResultsTable] (lines 183-195) and the clinical
    assessment below them. *)
Definition cellTypes : list ((Results -> float) * String.string) :=
  [ (microcytes, "Microcytes"); (macrocytes, "Macrocytes");
    (elliptocytes, "Elliptocytes"); (schistocytes, "Schistocytes");
    (sickleCells, "Sickle Cells"); (spiculatedCells, "Spiculated Cells");
    (teardrops, "Teardrops") ].

Definition displayResultsTable (image : Image) : list (String.string * float) * String.string :=
  (map (fun type => (snd type, fst type (results image))) cellTypes, clinical image).

(** The state of the demo and of the page elements it writes; [timers]
    holds the image captured by each pending timeout, oldest first
    (all timeouts have the same delay). *)
Record Page := {
  selectedImage : option Image;
  isFitted : bool;
  selectedCard : option String.string;
  imageSrc : option String.string;
  labelText : option String.string;
  imageSectionShown : bool;
  buttonDisabled : bool;
  buttonText : option String.string;
  resultsShown : bool;
  resultsContent : option (list (String.string * float) * String.string);
  timers : list Image
}.

(** [selectImage] (lines 121-142). *)
Definition selectImage (image : Image) (p : Page) : Page :=
  {| selectedImage := Some image;
     isFitted := false;
     selectedCard := Some (id image);
     imageSrc := Some (rawPath image);
     labelText := Some (String.append (label image) " - Smear");
     imageSectionShown := true;
     buttonDisabled := false;
     buttonText := Some "Fit Model";
     resultsShown := false;
     resultsContent := resultsContent p;
     timers := timers p |}.

(** [fitModel] (lines 144-180) up to the timer. *)
Definition fitModel (p : Page) : Page :=
  match selectedImage p with
  | None => p
  | Some image =>
      if negb (isFitted p) then
        {| selectedImage := selectedImage p;
           isFitted := isFitted p;
           selectedCard := selectedCard p;
           imageSrc := imageSrc p;
           labelText := labelText p;
           imageSectionShown := imageSectionShown p;
           buttonDisabled := true;
           buttonText := Some "Fitting...";
           resultsShown := resultsShown p;
           resultsContent := resultsContent p;
           timers := timers p ++ [image] |}
      else
        {| selectedImage := selectedImage p;
           isFitted := false;
           selectedCard := selectedCard p;
           imageSrc := Some (rawPath image);
           labelText := Some (String.append (label image) " - Smear");
           imageSectionShown := imageSectionShown p;
           buttonDisabled := buttonDisabled p;
           buttonText := Some "Fit Model";
           resultsShown := false;
           resultsContent := resultsContent p;
           timers := timers p |}
  end.

(** The callback of the timeout (lines 153-167), for the oldest
    pending timer. *)
Definition fitModel_timer (p : Page) : Page :=
  match timers p with
  | [] => p
  | image :: pending =>
      {| selectedImage := selectedImage p;
         isFitted := true;
         selectedCard := selectedCard p;
         imageSrc := Some (fitPath image);
         labelText := Some (String.append (label image) " - Fit Model");
         imageSectionShown := imageSectionShown p;
         buttonDisabled := false;
         buttonText := Some "Show Original";
         resultsShown := true;
         resultsContent := Some (displayResultsTable image);
         timers := pending |}
  end.

(** What can happen on the page. *)
Inductive Event :=
| CardClicked (image : Image)
| FitClicked
| TimerFired.

Definition handle (p : Page) (e : Event) : Page :=
  match e with
  | CardClicked image => selectImage image p
  | FitClicked => fitModel p
  | TimerFired => fitModel_timer p
  end.

Definition run (events : list Event) (p : Page) : Page := fold_left handle events p.

(** The cards are those of the gallery ([renderImageGallery],
    lines 103-119). *)
Definition fromGallery (e : Event) : Prop :=
  match e with
  | CardClicked image => In image sampleImages
  | _ => True
  end.

(** No card is clicked while a timer is pending. *)
Fixpoint calm (events : list Event) (p : Page) : Prop :=
  match events with
  | [] => True
  | e :: rest =>
      match e with
      | CardClicked _ => timers p = []
      | _ => True
      end /\ calm rest (handle p e)
  end.

(** The state when the script starts (lines 84-85), on a page that
    shows nothing yet and whose fit button is disabled. *)
Definition startPage : Page :=
  {| selectedImage := None;
     isFitted := false;
     selectedCard := None;
     imageSrc := None;
     labelText := None;
     imageSectionShown := false;
     buttonDisabled := true;
     buttonText := None;
     resultsShown := false;
     resultsContent := None;
     timers := [] |}.

(** A page on which nothing has been selected yet. *)
Definition fresh (p : Page) : Prop :=
  selectedImage p = None /\ isFitted p = false /\ timers p = [].

(** The page shows the smear of [s], without results. *)
Definition showsRaw (s : Image) (p : Page) : Prop :=
  imageSrc p = Some (rawPath s)
  /\ labelText p = Some (String.append (label s) " - Smear")
  /\ resultsShown p = false.

(** The page shows the fit of [t], with the table of [t]. *)
Definition showsFit (t : Image) (p : Page) : Prop :=
  imageSrc p = Some (fitPath t)
  /\ labelText p = Some (String.append (label t) " - Fit Model")
  /\ resultsContent p = Some (displayResultsTable t)
  /\ resultsShown p = true.

(** What the page shows agrees with the two state variables. *)
Definition coherent (p : Page) : Prop :=
  match selectedImage p with
  | None => isFitted p = false /\ timers p = []
  | Some s =>
      In s sampleImages
      /\ selectedCard p = Some (id s)
      /\ imageSectionShown p = true
      /\ Forall (fun t => In t sampleImages) (timers p)
      /\ if isFitted p then exists t, In t sampleImages /\ showsFit t p else showsRaw s p
  end.

(** The same, with the fit and every pending timer being of the
    selected image. *)
Definition in_step (p : Page) : Prop :=
  match selectedImage p with
  | None => isFitted p = false /\ timers p = []
  | Some s =>
      Forall (fun t => t = s) (timers p)
      /\ if isFitted p then showsFit s p else showsRaw s p
  end.

(** *** The magnifier *)

Record Magnifier := { zoom : float; lensSize : float }.

(** Lines 88-91. *)
Definition magnifier : Magnifier := {| zoom := 2.5; lensSize := 150 |}%float.

Record Lens := {
  active : bool;
  left : option float;
  top : option float;
  backgroundPosition : option (float * float)
}.

Record Rect := { rect_left : float; rect_top : float; rect_width : float; rect_height : float }.

Section Lens.
Variable lib : MathApprox.

(** [Math.max(0, Math.min(v, size))] *)
Definition clamp (v size : float) : float :=
  @Math_max float (IEEE lib) [@of_Z float (IEEE_Arith lib) 0; @Math_min float (IEEE lib) [v; size]].

(** [moveMagnifier] (lines 260-287). *)
Definition moveMagnifier (clientX clientY : float) (lens : Lens) (rect : Rect) : Lens :=
  if negb (active lens) then lens
  else
    let zoom := zoom magnifier in
    let lensSize := lensSize magnifier in
    let x := clamp (PrimFloat.sub clientX (rect_left rect)) (rect_width rect) in
    let y := clamp (PrimFloat.sub clientY (rect_top rect)) (rect_height rect) in
    let lensX := PrimFloat.sub x (PrimFloat.div lensSize 2%float) in
    let lensY := PrimFloat.sub y (PrimFloat.div lensSize 2%float) in
    let bgX := PrimFloat.opp (PrimFloat.sub (PrimFloat.mul x zoom) (PrimFloat.div lensSize 2%float)) in
    let bgY := PrimFloat.opp (PrimFloat.sub (PrimFloat.mul y zoom) (PrimFloat.div lensSize 2%float)) in
    {| active := active lens;
       left := Some lensX;
       top := Some lensY;
       backgroundPosition := Some (bgX, bgY) |}.

End Lens.

End RBCDemo.

(** * Properties *)

(** ** The error monad and loops *)

Lemma for_each_app {A S} (body : S -> A -> exc S) (xs ys : list A) (s : S) :
  for_each (xs ++ ys) s body = (s' <- for_each xs s body ;; for_each ys s' body).
Proof.
  revert s; induction xs as [|x xs IH]; intros s; simpl; auto.
  destruct (body s x); simpl; auto.
Qed.

Lemma get_row_Ok {A} (rows : list A) (i : nat) :
  (i < length rows)%nat -> exists r, get_row rows i = Ok r /\ rows !! i = Some r.
Proof.
  intros Hi. unfold get_row.
  destruct (lookup_lt_is_Some_2 rows i Hi) as [r E].
  rewrite E. eauto.
Qed.

(** A loop that reads one row per sample does not throw when there is a
    row for every sample; its result is the fold over the rows read. *)
Lemma row_loop_Ok {T} (n : nat) (rows : list (list T)) (f : T -> list T -> nat -> T) :
  (n <= length rows)%nat ->
  forall acc,
    for_each (seq 0 n) acc (fun a i => row <- get_row rows i ;; Ok (f a row i))
    = Ok (fold_left (fun a i => f a (default [] (rows !! i)) i) (seq 0 n) acc).
Proof.
  intros Hn. induction n as [|n IH]; intros acc.
  - reflexivity.
  - rewrite seq_S, for_each_app, fold_left_app, IH by lia. simpl.
    destruct (get_row_Ok rows n) as (row & E & L); [lia|].
    rewrite E, L. reflexivity.
Qed.

(** ** One EM pass *)

Section Pass.
Context {num : Type} `{Arith num}.
Local Open Scope num_scope.

Lemma length_eStep (data : list num) (k : nat) (st : EMState num) :
  length (eStep data k st) = length data.
Proof. unfold eStep. rewrite length_map, length_seq. reflexivity. Qed.

(** The M-step for one component never throws on the rows of the
    E-step; it stores [nk / n] as the weight. *)
Lemma mStepComponent_Ok (data : list num) (rows : list (list num)) (k : nat)
    (st : EMState num) (j : nat) :
  length rows = length data ->
  has_size k st ->
  exists st', mStepComponent data rows st j = Ok st'
              /\ has_size k st'
              /\ st_weights st' = <[j := columnSum rows j / of_nat (length data)]> (st_weights st).
Proof.
  intros Hrows (Hm & Hv & Hw). unfold mStepComponent.
  rewrite (row_loop_Ok (length data) rows
             (fun meanSum r i => meanSum + get r j * get data i)) by lia.
  simpl.
  match goal with
  | |- context [get (<[j := ?v]> (st_means st)) j] => set (ms := <[j := v]> (st_means st))
  end.
  rewrite (row_loop_Ok (length data) rows
             (fun varSum r i => varSum + get r j * (get data i - get ms j)
                                         * (get data i - get ms j))) by lia.
  simpl. eexists; split; [reflexivity|].
  unfold has_size; simpl. subst ms. rewrite !length_insert. auto.
Qed.

(** After the components [0 .. p-1] have been updated, the first [p]
    weights are the column sums over [n]. *)
Lemma mStep_prefix (data : list num) (rows : list (list num)) (k : nat) (st : EMState num) :
  length rows = length data ->
  has_size k st ->
  forall p, (p <= k)%nat ->
    exists st', for_each (seq 0 p) st (mStepComponent data rows) = Ok st'
                /\ has_size k st'
                /\ st_weights st'
                   = map (fun j => columnSum rows j / of_nat (length data)) (seq 0 p)
                     ++ drop p (st_weights st).
Proof.
  intros Hrows Hst p. induction p as [|p IH]; intros Hp.
  - exists st. simpl. rewrite drop_0. auto.
  - destruct IH as (st1 & E1 & H1 & W1); [lia|].
    rewrite seq_S, for_each_app, E1. simpl.
    destruct (mStepComponent_Ok data rows k st1 p Hrows H1) as (st2 & E2 & H2 & W2).
    rewrite E2. simpl. exists st2. split; [reflexivity|]. split; [exact H2|].
    rewrite W2, W1, map_app. simpl.
    destruct Hst as (_ & _ & Hw).
    assert (Hlen : length (map (fun j => columnSum rows j / of_nat (length data)) (seq 0 p)) = p)
      by (rewrite length_map, length_seq; reflexivity).
    rewrite insert_app_r_alt by lia. rewrite Hlen, Nat.sub_diag.
    destruct (lookup_lt_is_Some_2 (st_weights st) p ltac:(lia)) as [w Ew].
    rewrite (drop_S _ _ _ Ew). simpl. rewrite <- app_assoc. reflexivity.
Qed.

(** An EM pass returns a state of the same size, whose weights are the
    column sums of the responsibilities over [n]. *)
Lemma emIteration_Ok (data : list num) (k : nat) (st : EMState num) :
  has_size k st ->
  exists st', emIteration data k st = Ok st'
              /\ has_size k st'
              /\ st_weights st'
                 = map (fun j => columnSum (eStep data k st) j / of_nat (length data))
                       (seq 0 k).
Proof.
  intros Hst. unfold emIteration, mStep.
  destruct (mStep_prefix data (eStep data k st) k st (length_eStep data k st) Hst k
              (Nat.le_refl k)) as (st' & E & H' & W).
  exists st'. split; [exact E|]. split; [exact H'|].
  rewrite W. destruct Hst as (_ & _ & Hw).
  rewrite drop_ge by lia. apply app_nil_r.
Qed.

End Pass.

(** ** What the M-step stores *)

Section PassValues.
Context {num : Type} `{Arith num}.
Local Open Scope num_scope.

Lemma mStepComponent_values (data : list num) (rows : list (list num)) (k : nat)
    (st : EMState num) (j : nat) :
  length rows = length data ->
  has_size k st ->
  (j < k)%nat ->
  mStepComponent data rows st j
  = Ok {| st_means := <[j := respMean rows data j]> (st_means st);
          st_variances := <[j := respVariance rows data j]> (st_variances st);
          st_weights := <[j := columnSum rows j / of_nat (length data)]> (st_weights st) |}.
Proof.
  intros Hrows (Hm & Hv & Hw) Hj. unfold mStepComponent.
  rewrite (row_loop_Ok (length data) rows
             (fun meanSum r i => meanSum + get r j * get data i)) by lia.
  cbn [exc_bind].
  assert (Eget : forall v, get (<[j := v]> (st_means st)) j = v).
  { intros v. unfold get. rewrite list_lookup_insert_eq by lia. reflexivity. }
  rewrite (row_loop_Ok (length data) rows
             (fun varSum r i =>
                varSum + get r j
                         * (get data i
                            - get (<[j := fold_left
                                            (fun a i0 => a + get (default [] (rows !! i0)) j
                                                             * get data i0)
                                            (seq 0 (length data)) (of_Z 0)
                                          / fold_left (fun sum r0 => sum + get r0 j) rows
                                                      (of_Z 0)]> (st_means st)) j)
                         * (get data i
                            - get (<[j := fold_left
                                            (fun a i0 => a + get (default [] (rows !! i0)) j
                                                             * get data i0)
                                            (seq 0 (length data)) (of_Z 0)
                                          / fold_left (fun sum r0 => sum + get r0 j) rows
                                                      (of_Z 0)]> (st_means st)) j)))
    by lia.
  cbn [exc_bind]. rewrite Eget. reflexivity.
Qed.

(** After the M-step every component holds the values computed from
    the responsibilities, whatever it held before. *)
Lemma mStep_each (data : list num) (rows : list (list num)) (k : nat) (st : EMState num)
    (Q : nat -> num -> num -> num -> Prop) :
  length rows = length data ->
  has_size k st ->
  (forall j, (j < k)%nat ->
             Q j (respMean rows data j) (respVariance rows data j)
                 (columnSum rows j / of_nat (length data))) ->
  exists st',
    mStep data k rows st = Ok st'
    /\ has_size k st'
    /\ forall j, (j < k)%nat ->
         exists m v w,
           st_means st' !! j = Some m /\ st_variances st' !! j = Some v
           /\ st_weights st' !! j = Some w /\ Q j m v w.
Proof.
  intros Hrows Hst HQ. unfold mStep.
  assert (Hloop : forall p, (p <= k)%nat ->
            exists st', for_each (seq 0 p) st (mStepComponent data rows) = Ok st'
                        /\ has_size k st'
                        /\ forall j, (j < p)%nat ->
                             exists m v w,
                               st_means st' !! j = Some m /\ st_variances st' !! j = Some v
                               /\ st_weights st' !! j = Some w /\ Q j m v w).
  { induction p as [|p IH]; intros Hp.
    - exists st. split; [reflexivity|]. split; [exact Hst|]. intros j Hj. lia.
    - destruct IH as (st1 & E1 & H1 & Hprev); [lia|].
      rewrite seq_S, for_each_app, E1. cbn [exc_bind for_each Nat.add].
      rewrite (mStepComponent_values data rows k st1 p Hrows H1) by lia.
      cbn [exc_bind]. eexists. split; [reflexivity|].
      destruct H1 as (Hm & Hv & Hw).
      split; [unfold has_size; cbn; rewrite !length_insert; auto|].
      intros j Hj. cbn [st_means st_variances st_weights].
      destruct (Nat.eq_dec j p) as [->|Hne].
      + eexists _, _, _. rewrite !list_lookup_insert_eq by lia.
        repeat (split; [reflexivity|]). apply HQ. lia.
      + destruct (Hprev j) as (m & v & w & Em & Ev & Ew & Hq); [lia|].
        exists m, v, w. rewrite !list_lookup_insert_ne by lia. auto. }
  apply Hloop. lia.
Qed.

End PassValues.

(** ** Shape of the fitted models *)

Section Shape.
Context {num : Type} `{JsNumber num}.
Local Open Scope num_scope.

Lemma length_seedIndices (len k : nat) : length (seedIndices len k) = k.
Proof.
  unfold seedIndices.
  destruct (Nat.eqb_spec k 1) as [->|H1]; [reflexivity|].
  destruct (Nat.eqb_spec k 2) as [->|H2]; [reflexivity|].
  rewrite length_map, length_seq. reflexivity.
Qed.

Lemma length_initializeMeans (data : list num) (k : nat) :
  length (initializeMeans data k) = k.
Proof. unfold initializeMeans. rewrite length_map. apply length_seedIndices. Qed.

Lemma initialState_size (data : list num) (k : nat) : has_size k (initialState data k).
Proof.
  unfold has_size, initialState, Array_fill; simpl.
  rewrite length_map, length_initializeMeans, !repeat_length. auto.
Qed.

(** The loop returns a state, and that state is the outcome of an EM
    pass as soon as one pass is allowed. *)
Lemma emLoop_Ok (data : list num) (k iters : nat) :
  forall (st : EMState num) (prev : num),
    has_size k st ->
    exists st', emLoop data k iters st prev = Ok st'
                /\ has_size k st'
                /\ ((0 < iters)%nat ->
                    exists st0, has_size k st0 /\ emIteration data k st0 = Ok st').
Proof.
  induction iters as [|iters IH]; intros st prev Hst; simpl.
  - exists st. split; [reflexivity|]. split; [exact Hst|]. intros Hlt; lia.
  - destruct (emIteration_Ok data k st Hst) as (st1 & E1 & H1 & _).
    rewrite E1. simpl.
    destruct (_ <? _).
    + exists st1. split; [reflexivity|]. split; [exact H1|]. intros _. exists st. auto.
    + destruct (IH st1 (calculateLogLikelihood data (st_means st1) (st_variances st1)
                          (st_weights st1)) H1) as (st' & E' & H' & Hlast).
      exists st'. split; [exact E'|]. split; [exact H'|]. intros _.
      destruct iters as [|iters'].
      * simpl in E'. injection E' as <-. exists st. auto.
      * apply Hlast. lia.
Qed.

(** [simpleGMM] returns a model whose arrays have [k] elements and
    come out of an EM pass. *)
Lemma simpleGMM_Ok (data : list num) (k : nat) :
  exists m, simpleGMM data k = Ok m
            /\ nComponents m = k
            /\ length (means m) = k /\ length (variances m) = k /\ length (weights m) = k
            /\ isSimple m = None
            /\ exists st0 st', has_size k st0 /\ emIteration data k st0 = Ok st'
                               /\ weights m = st_weights st'.
Proof.
  unfold simpleGMM.
  destruct (emLoop_Ok data k maxIter (initialState data k) neg_Infinity
              (initialState_size data k)) as (st & -> & (Hm & Hv & Hw) & Hlast).
  destruct Hlast as (st0 & H0 & E0); [unfold maxIter; lia|].
  simpl. eexists; split; [reflexivity|]. simpl. repeat split; auto.
  exists st0, st. auto.
Qed.

(** The scoring loop pushes the scored fits for 1, 2 and 3
    components, in that order. *)
Lemma scoreModel_scored (data : list num) (models : list (Model num)) (k : nat) :
  scoreModel data models k = (g <- simpleGMM data k ;; Ok (models ++ [scored data g])).
Proof. reflexivity. Qed.

Lemma scoring_loop (data : list num) :
  exists g1 g2 g3,
    simpleGMM data 1 = Ok g1 /\ simpleGMM data 2 = Ok g2 /\ simpleGMM data 3 = Ok g3
    /\ for_each [1; 2; 3]%nat [] (scoreModel data)
       = Ok [scored data g1; scored data g2; scored data g3].
Proof.
  destruct (simpleGMM_Ok data 1) as (g1 & E1 & _).
  destruct (simpleGMM_Ok data 2) as (g2 & E2 & _).
  destruct (simpleGMM_Ok data 3) as (g3 & E3 & _).
  exists g1, g2, g3. repeat split; auto.
  cbn [for_each]. rewrite scoreModel_scored, E1. cbn [exc_bind].
  rewrite scoreModel_scored, E2. cbn [exc_bind].
  rewrite scoreModel_scored, E3. reflexivity.
Qed.

(** The selection returns one of the models it is given, when there is
    one. *)
Lemma selectBest_Ok (models : list (Model num)) :
  models <> [] -> exists best, selectBest models = Ok (Some best) /\ In best models.
Proof.
  intros Hne. unfold selectBest.
  set (valid := List.filter _ models).
  assert (Hsub : forall m, In m valid -> In m models)
    by (intros m Hm; apply filter_In in Hm; tauto).
  destruct valid as [|v rest] eqn:Ev; simpl.
  - destruct models as [|m0 ms]; [congruence|]. exists m0. split; [reflexivity | left; reflexivity].
  - eexists; split; [reflexivity|]. apply Hsub.
    assert (Hfold : forall l b, (forall m, In m (b :: l) -> In m (v :: rest)) ->
                                In (fold_left lowerBic l b) (v :: rest)).
    { induction l as [|x l IH]; intros b Hb; simpl.
      - apply Hb. left; reflexivity.
      - apply IH. intros m [<-|Hm].
        + unfold lowerBic. destruct (_ <? _); apply Hb; simpl; auto.
        + apply Hb. simpl; auto. }
    apply Hfold. intros m [<-|Hm]; simpl; auto.
Qed.





End Shape.

(** ** Loops over indices as sums over elements *)

Section Sums.
Context {num : Type} `{Arith num}.
Local Open Scope num_scope.

Lemma fold_left_add_map {A} (f : A -> num) (l : list A) (a : num) :
  fold_left (fun sum x => sum + f x) l a = fold_left nadd (map f l) a.
Proof. revert a; induction l as [|x l IH]; intros a; simpl; auto. Qed.

Lemma map_get_seq {B} (f : num -> B) (l : list num) :
  map (fun i => f (get l i)) (seq 0 (length l)) = map f l.
Proof.
  induction l as [|x l IH]; simpl; [reflexivity|].
  f_equal. rewrite <- seq_shift, map_map. exact IH.
Qed.

Lemma map_components_seq (x : num) (ws ms vs : list num) :
  length ws = length ms -> length vs = length ms ->
  map (fun j => get ws j * gaussianPDF x (get ms j) (Math_sqrt (get vs j)))
      (seq 0 (length ms))
  = map (componentDensity x) (components ws ms vs).
Proof.
  revert ws vs. induction ms as [|m ms IH]; intros [|w ws] [|v vs]; simpl;
    try discriminate; auto.
  intros Hw Hv. f_equal.
  rewrite <- seq_shift, map_map. apply IH; congruence.
Qed.

(** The inner loop of the log-likelihood is the left-to-right sum of
    the weighted densities of the components. *)
Lemma mixtureSum_components (x : num) (ms vs ws : list num) :
  length ws = length ms -> length vs = length ms ->
  mixtureSum x ms vs ws = sum_from_0 (map (componentDensity x) (components ws ms vs)).
Proof.
  intros Hw Hv. unfold mixtureSum, sum_from_0.
  rewrite <- (map_components_seq x ws ms vs Hw Hv).
  apply (fold_left_add_map
           (fun j => get ws j * gaussianPDF x (get ms j) (Math_sqrt (get vs j)))).
Qed.

End Sums.

(** ** Sorting and seeding *)

Section Seeding.
Context {num : Type} `{JsNumber num}.
Local Open Scope num_scope.

Lemma sort_insert_perm (x : num) (s : list num) : Permutation (sort_insert x s) (x :: s).
Proof.
  induction s as [|y s IH]; simpl; [reflexivity|].
  destruct (sorts_before y x); [|reflexivity].
  rewrite IH. apply perm_swap.
Qed.

(** The sorted copy holds the elements of the data. *)
Lemma sort_perm (a : list num) : Permutation (sort_by_comparefn a) a.
Proof.
  induction a as [|x a IH]; simpl; [reflexivity|].
  rewrite sort_insert_perm, IH. reflexivity.
Qed.

Lemma length_sort (a : list num) : length (sort_by_comparefn a) = length a.
Proof. apply Permutation_length, sort_perm. Qed.

Lemma sort_insert_ascending (l : list num) (x : num) (s : list num) :
  consistent_on l -> In x l -> (forall y, In y s -> In y l) ->
  ascending s -> ascending (sort_insert x s).
Proof.
  intros (Hasym & Hneg) Hx. unfold ascending.
  induction s as [|y s IH]; intros Hs Hsorted; simpl.
  - constructor; [constructor | constructor].
  - apply StronglySorted_inv in Hsorted as (Hs' & Hall).
    assert (Hy : In y l) by (apply Hs; left; reflexivity).
    destruct (sorts_before y x) eqn:E.
    + constructor.
      * apply IH; [intros z Hz; apply Hs; right; exact Hz | exact Hs'].
      * apply List.Forall_forall. intros z Hz.
        apply (Permutation_in _ (sort_insert_perm x s)) in Hz as [<-|Hz].
        -- apply Hasym; auto.
        -- rewrite List.Forall_forall in Hall. apply Hall, Hz.
    + constructor; [constructor; assumption|].
      constructor; [exact E|].
      apply List.Forall_forall. intros z Hz.
      rewrite List.Forall_forall in Hall.
      apply (Hneg x y z); auto. apply Hs; right; exact Hz.
Qed.

(** For a comparator consistent on the data, the sorted copy is
    ascending. *)
Lemma sort_ascending (a : list num) : consistent_on a -> ascending (sort_by_comparefn a).
Proof.
  intros Hc.
  assert (Hgen : forall b, (forall y, In y b -> In y a) -> ascending (sort_by_comparefn b)).
  { induction b as [|x b IH]; intros Hb; simpl.
    - constructor.
    - apply (sort_insert_ascending a); auto.
      + apply Hb; left; reflexivity.
      + intros y Hy. apply Hb; right.
        apply (Permutation_in _ (sort_perm b)), Hy.
      + apply IH. intros y Hy; apply Hb; right; exact Hy. }
  apply Hgen; auto.
Qed.

(** Every seed index is below the number of samples. *)
Lemma seedIndices_lt (n k : nat) :
  (1 <= n)%nat -> (1 <= k)%nat -> Forall (fun idx => (idx < n)%nat) (seedIndices n k).
Proof.
  intros Hn Hk. unfold seedIndices.
  destruct (Nat.eqb_spec k 1) as [->|H1].
  - constructor; [|constructor]. apply Nat.Div0.div_lt_upper_bound; lia.
  - destruct (Nat.eqb_spec k 2) as [->|H2].
    + repeat constructor; apply Nat.Div0.div_lt_upper_bound; lia.
    + apply List.Forall_forall. intros idx Hidx.
      apply in_map_iff in Hidx as (j & <- & Hj). apply in_seq in Hj.
      apply Nat.Div0.div_lt_upper_bound. nia.
Qed.

End Seeding.

(** ** Selection by lowest BIC *)

Section Selection.
Context {num : Type} `{NumOrder num}.
Local Open Scope num_scope.

(** One more model [x] offered to the [reduce] callback. *)
Lemma lowerBic_step (pre : list (Model num)) (i : nat) (b x : Model num) :
  first_minimum pre i b ->
  exists i', first_minimum (pre ++ [x]) i' (lowerBic b x).
Proof.
  intros (Hi & Hinv).
  assert (Hlt : (i < length pre)%nat) by (apply lookup_lt_is_Some; eauto).
  unfold lowerBic. fold (bicOf x). fold (bicOf b).
  destruct (bicOf x <? bicOf b) eqn:E.
  - exists (length pre). split.
    + rewrite lookup_app_r, Nat.sub_diag by lia. reflexivity.
    + intros j m Hj. apply lookup_app_Some in Hj as [Hj|(Hge & Hj)].
      * destruct (Hinv j m Hj) as (Hmb & _). split.
        -- destruct (bicOf m <? bicOf x) eqn:Emx; [|reflexivity].
           rewrite (nlt_trans _ _ _ Emx E) in Hmb. discriminate.
        -- intros _. apply (nlt_neg_trans _ _ _ E Hmb).
      * destruct (j - length pre)%nat eqn:Ej; [|discriminate].
        injection Hj as <-. split; [apply nlt_irrefl | intros Hlj; lia].
  - exists i. split.
    + rewrite lookup_app_l by lia. exact Hi.
    + intros j m Hj. apply lookup_app_Some in Hj as [Hj|(Hge & Hj)].
      * apply Hinv, Hj.
      * destruct (j - length pre)%nat eqn:Ej; [|discriminate].
        injection Hj as <-. split; [exact E | intros Hlj; lia].
Qed.

Lemma fold_lowerBic (rest : list (Model num)) :
  forall (pre : list (Model num)) (i : nat) (b : Model num),
    first_minimum pre i b ->
    exists i', first_minimum (pre ++ rest) i' (fold_left lowerBic rest b).
Proof.
  induction rest as [|x rest IH]; intros pre i b Hb; simpl.
  - rewrite app_nil_r. eauto.
  - destruct (lowerBic_step pre i b x Hb) as (i1 & H1).
    destruct (IH _ _ _ H1) as (i2 & H2).
    rewrite <- app_assoc in H2. eauto.
Qed.

(** The [reduce] over a non-empty array returns its first minimum. *)
Lemma reduce1_lowerBic (valid : list (Model num)) :
  valid <> [] ->
  exists best i, reduce1 lowerBic valid = Ok best /\ first_minimum valid i best.
Proof.
  destruct valid as [|v rest]; [congruence|]. intros _.
  destruct (fold_lowerBic rest [v] 0 v) as (i & Hi).
  - split; [reflexivity|]. intros [|j] m Hj; [|discriminate].
    injection Hj as <-. split; [apply nlt_irrefl | intros Hlt; lia].
  - simpl. eauto.
Qed.

End Selection.

(** ** The dominant component and the band *)

Section Band.
Context {num : Type} `{JsNumber num}.
Local Open Scope num_scope.

Lemma indexOf_from_first (l : list num) (v : num) :
  forall s d, indexOf_from l v s = Some d ->
              (s <= d)%nat /\ first_index_of l v (d - s).
Proof.
  induction l as [|x l IH]; intros s d; simpl; [discriminate|].
  destruct (x === v) eqn:E.
  - intros [= <-]. split; [lia|]. rewrite Nat.sub_diag. split.
    + exists x. auto.
    + intros j w Hj. lia.
  - intros Hd. destruct (IH _ _ Hd) as (Hle & (w & Hw & Ew) & Hfirst).
    split; [lia|]. replace (d - s)%nat with (S (d - S s)) by lia. split.
    + exists w. auto.
    + intros [|j] w' Hj Hw'.
      * injection Hw' as <-. exact E.
      * apply (Hfirst j); [lia | exact Hw'].
Qed.

(** [indexOf] returns the first index holding a value equal to the one
    searched. *)
Lemma indexOf_first (l : list num) (v : num) (d : nat) :
  indexOf l v = Some d -> first_index_of l v d.
Proof.
  intros Hd. apply indexOf_from_first in Hd as (_ & Hd).
  rewrite Nat.sub_0_r in Hd. exact Hd.
Qed.

(** On five samples or more [fitGMM] is the selection among the three
    scored fits. *)
Lemma fitGMM_large (data : list num) :
  (5 <= length data)%nat ->
  fitGMM data = (models <- for_each [1; 2; 3]%nat [] (scoreModel data) ;; selectBest models).
Proof.
  intros Hn. unfold fitGMM.
  destruct (Nat.ltb_spec (length data) 5); [lia | reflexivity].
Qed.

(** The mean and variance that the loop of [plotTimeSeries] computes
    for a prefix. *)
Lemma cumulativeMeanVariance_small (cumulativeData : list num) :
  (length cumulativeData <= 4)%nat ->
  cumulativeMeanVariance cumulativeData
  = Ok (Some (sampleMean cumulativeData), Some (sampleVariance cumulativeData)).
Proof.
  intros Hn. unfold cumulativeMeanVariance.
  destruct (Nat.leb_spec (length cumulativeData) 4); [|lia].
  unfold sampleVariance, sampleMean, sum_from_0.
  rewrite <- (fold_left_add_map
                (fun v => Math_pow (v - fold_left nadd cumulativeData (of_Z 0)
                                        / of_nat (length cumulativeData)) (of_Z 2))).
  reflexivity.
Qed.

Lemma cumulativeMeanVariance_large (cumulativeData : list num) :
  (5 <= length cumulativeData)%nat ->
  exists m, fitGMM cumulativeData = Ok (Some m)
            /\ cumulativeMeanVariance cumulativeData
               = Ok (at_index (means m) (dominantIdx m),
                     at_index (variances m) (dominantIdx m)).
Proof.
  intros Hn. rewrite (fitGMM_large _ Hn). unfold cumulativeMeanVariance.
  destruct (Nat.leb_spec (length cumulativeData) 4); [lia|].
  destruct (scoring_loop cumulativeData) as (g1 & g2 & g3 & _ & _ & _ & ->).
  cbn [exc_bind].
  destruct (selectBest_Ok [scored cumulativeData g1; scored cumulativeData g2;
                           scored cumulativeData g3]) as (m & -> & _); [congruence|].
  exists m. split; reflexivity.
Qed.

(** The triple pushed for index [i]. *)
Lemma plotTimeSeries_step_push (data : list num) (b : Bands num) (i : nat) :
  exists p,
    plotTimeSeries_step data b i
    = Ok (pushBands b (option_map (fun t => snd t) p)
                      (option_map (fun t => snd (fst t)) p)
                      (option_map (fun t => fst (fst t)) p))
    /\ ((i < 2)%nat -> p = None)
    /\ ((2 <= i)%nat -> (length (slice0 data (i + 1)) <= 4)%nat ->
        p = band (Some (sampleMean (slice0 data (i + 1))))
                 (Some (sampleVariance (slice0 data (i + 1)))))
    /\ ((2 <= i)%nat -> (5 <= length (slice0 data (i + 1)))%nat ->
        exists m, fitGMM (slice0 data (i + 1)) = Ok (Some m)
                  /\ p = band (at_index (means m) (dominantIdx m))
                              (at_index (variances m) (dominantIdx m))).
Proof.
  unfold plotTimeSeries_step.
  destruct (Nat.ltb_spec i 2) as [Hi|Hi].
  - exists None. split; [reflexivity|]. repeat split; intros; try lia; reflexivity.
  - destruct (Nat.le_gt_cases (length (slice0 data (i + 1))) 4) as [Hs|Hl].
    + rewrite (cumulativeMeanVariance_small _ Hs). cbn [exc_bind].
      exists (band (Some (sampleMean (slice0 data (i + 1))))
                   (Some (sampleVariance (slice0 data (i + 1))))).
      split; [unfold band; destruct (js_isNaN _); reflexivity|].
      repeat split; intros; try lia; reflexivity.
    + destruct (cumulativeMeanVariance_large (slice0 data (i + 1)) Hl) as (m & Em & ->).
      cbn [exc_bind].
      exists (band (at_index (means m) (dominantIdx m))
                   (at_index (variances m) (dominantIdx m))).
      split; [unfold band; destruct (js_isNaN _); reflexivity|].
      split; [intros; lia|]. split; [intros; lia|].
      intros _ _. exists m. auto.
Qed.

End Band.

(** ** Order of the binary64 numbers *)

Ltac sf_compare_cases :=
  repeat match goal with
    | |- context [Z.compare ?a ?b] => destruct (Z.compare_spec a b); subst
    | H : context [Z.compare ?a ?b] |- _ => destruct (Z.compare_spec a b); subst
    | |- context [Pos.compare_cont Eq ?a ?b] =>
        change (Pos.compare_cont Eq a b) with (Pos.compare a b);
        destruct (Pos.compare_spec a b); subst
    | H : context [Pos.compare_cont Eq ?a ?b] |- _ =>
        change (Pos.compare_cont Eq a b) with (Pos.compare a b) in H;
        destruct (Pos.compare_spec a b); subst
    end;
  simpl in *; try discriminate; try lia; auto.

Lemma SFltb_irrefl (a : spec_float) : SFltb a a = false.
Proof.
  unfold SFltb, SFcompare. destruct a as [[]|[]| |[] m e]; simpl; auto; sf_compare_cases.
Qed.

Lemma SFltb_trans (a b c : spec_float) :
  SFltb a b = true -> SFltb b c = true -> SFltb a c = true.
Proof.
  unfold SFltb, SFcompare.
  destruct a as [[]|[]| |[] ma ea], b as [[]|[]| |[] mb eb], c as [[]|[]| |[] mc ec];
    simpl; try discriminate; auto; intros H1 H2; sf_compare_cases.
Qed.

Lemma SFltb_neg_trans (a b c : spec_float) :
  SFltb a b = true -> SFltb c b = false -> SFltb a c = true \/ c = S754_nan.
Proof.
  unfold SFltb, SFcompare.
  destruct a as [[]|[]| |[] ma ea], b as [[]|[]| |[] mb eb], c as [[]|[]| |[] mc ec];
    simpl; try discriminate; auto; intros H1 H2; left; sf_compare_cases.
Qed.

Lemma is_nan_Prim2SF (x : float) : PrimFloat.is_nan x = true <-> Prim2SF x = S754_nan.
Proof.
  unfold PrimFloat.is_nan. rewrite FloatAxioms.eqb_spec. unfold SFeqb, SFcompare.
  destruct (Prim2SF x) as [[]|[]| |[] m e]; simpl; split; try discriminate; auto;
    sf_compare_cases.
Qed.

(** *** The sign of a rounded difference *)

Section Rounding.
Variables prec emax : Z.
Hypothesis Hprec : (0 < prec)%Z.
Hypothesis Hemax : (0 < emax)%Z.
Local Open Scope Z_scope.

Abbreviation emin := (SpecFloat.emin prec emax).
Abbreviation fexp := (SpecFloat.fexp prec emax).

Lemma iter_pos_nat {A} (f : A -> A) (p : positive) :
  forall x, SpecFloat.iter_pos f p x = Nat.iter (Pos.to_nat p) f x.
Proof.
  induction p as [p IH|p IH|]; intros x; cbn [SpecFloat.iter_pos].
  - rewrite !IH. rewrite Pos2Nat.inj_xI.
    replace (S (2 * Pos.to_nat p))%nat with (Pos.to_nat p + S (Pos.to_nat p))%nat by lia.
    rewrite Nat.iter_add. f_equal. rewrite Nat.iter_succ_r. reflexivity.
  - rewrite !IH. rewrite Pos2Nat.inj_xO.
    replace (2 * Pos.to_nat p)%nat with (Pos.to_nat p + Pos.to_nat p)%nat by lia.
    rewrite Nat.iter_add. reflexivity.
  - reflexivity.
Qed.

Lemma shr_1_half (r : shr_record) : 0 <= shr_m r -> shr_m (shr_1 r) = shr_m r / 2.
Proof.
  destruct r as [m r s]. simpl. intros Hm.
  destruct m as [|[p|p|]|p]; simpl.
  - reflexivity.
  - apply Z.div_unique with 1; lia.
  - apply Z.div_unique with 0; lia.
  - reflexivity.
  - lia.
Qed.

Lemma shr_iter_half (n : nat) :
  forall r, 0 <= shr_m r -> shr_m (Nat.iter n shr_1 r) = shr_m r / 2 ^ Z.of_nat n.
Proof.
  induction n as [|n IH]; intros r Hr.
  - simpl. rewrite Z.div_1_r. reflexivity.
  - rewrite Nat.iter_succ_r, IH by (rewrite shr_1_half by assumption; apply Z.div_pos; lia).
    rewrite shr_1_half by assumption.
    rewrite Z.div_div by lia. f_equal.
    rewrite Nat2Z.inj_succ, Z.pow_succ_r by lia. reflexivity.
Qed.

Lemma digits2_pos_bounds (m : positive) :
  2 ^ (Zpos (digits2_pos m) - 1) <= Zpos m < 2 ^ Zpos (digits2_pos m).
Proof.
  induction m as [m IH|m IH|]; simpl digits2_pos.
  - rewrite Pos2Z.inj_succ. replace (Z.succ (Zpos (digits2_pos m)) - 1) with (Z.succ (Zpos (digits2_pos m) - 1)) by lia.
    rewrite !Z.pow_succ_r by lia. lia.
  - rewrite Pos2Z.inj_succ. replace (Z.succ (Zpos (digits2_pos m)) - 1) with (Z.succ (Zpos (digits2_pos m) - 1)) by lia.
    rewrite !Z.pow_succ_r by lia. lia.
  - simpl. lia.
Qed.

(** Shifting a positive mantissa to its format exponent leaves it
    positive, when its exponent is not below [emin]. *)
Lemma shr_fexp_pos (m : positive) (e : Z) (l : location) :
  emin <= e ->
  0 < shr_m (fst (shr_fexp prec emax (Zpos m) e l)) /\ emin <= snd (shr_fexp prec emax (Zpos m) e l).
Proof.
  intros He. unfold shr_fexp, shr. simpl Zdigits2.
  assert (Hm0 : shr_m (shr_record_of_loc (Zpos m) l) = Zpos m)
    by (destruct l as [|[]]; reflexivity).
  destruct (fexp (Zpos (digits2_pos m) + e) - e) as [|n|n] eqn:En; simpl fst; simpl snd;
    try (rewrite Hm0; lia).
  rewrite iter_pos_nat, shr_iter_half by (rewrite Hm0; lia).
  rewrite Hm0, positive_nat_Z.
  unfold SpecFloat.fexp in En.
  pose proof (digits2_pos_bounds m) as (Hlo & _).
  assert (Hn : Zpos n <= Zpos (digits2_pos m) - 1) by lia.
  split; [|lia].
  apply Z.div_str_pos. split; [apply Z.pow_pos_nonneg; lia|].
  apply Z.le_trans with (2 ^ (Zpos (digits2_pos m) - 1)); [|exact Hlo].
  apply Z.pow_le_mono_r; lia.
Qed.

Lemma binary_round_aux_sign (sx : bool) (m : positive) (e : Z) (l : location) :
  emin <= e ->
  (exists m' e', binary_round_aux prec emax sx (Zpos m) e l = S754_finite sx m' e')
  \/ binary_round_aux prec emax sx (Zpos m) e l = S754_infinity sx.
Proof.
  intros He. unfold binary_round_aux.
  pose proof (shr_fexp_pos m e l He) as (H1 & H1e).
  destruct (shr_fexp prec emax (Zpos m) e l) as [mrs' e'] eqn:E1. simpl in H1, H1e.
  assert (H2 : 0 < round_nearest_even (shr_m mrs') (loc_of_shr_record mrs')).
  { unfold round_nearest_even. destruct (loc_of_shr_record mrs') as [|[]]; try lia.
    destruct (Z.even (shr_m mrs')); lia. }
  destruct (round_nearest_even (shr_m mrs') (loc_of_shr_record mrs')) as [|m2|m2] eqn:E2;
    try lia.
  pose proof (shr_fexp_pos m2 e' loc_Exact H1e) as (H3 & _).
  destruct (shr_fexp prec emax (Zpos m2) e' loc_Exact) as [mrs'' e''] eqn:E3. simpl in H3.
  destruct (shr_m mrs'') as [|m3|m3]; try lia.
  destruct (e'' <=? emax - prec); [left; eauto | right; reflexivity].
Qed.

Lemma binary_round_sign (sx : bool) (m : positive) (e : Z) :
  emin <= e ->
  (exists m' e', binary_round prec emax sx m e = S754_finite sx m' e')
  \/ binary_round prec emax sx m e = S754_infinity sx.
Proof.
  intros He. unfold binary_round.
  destruct (shl_align m e (fexp (Zpos (digits2_pos m) + e))) as [mz ez] eqn:Ea.
  apply binary_round_aux_sign.
  unfold shl_align in Ea.
  destruct (fexp (Zpos (digits2_pos m) + e) - e) eqn:Ed; injection Ea as <- <-; try lia.
  unfold SpecFloat.fexp. lia.
Qed.

(** The sign test of a normalised integer. *)
Lemma binary_normalize_neg (d e : Z) :
  emin <= e ->
  SFltb (binary_normalize prec emax d e false) (S754_zero false) = (d <? 0).
Proof.
  intros He. destruct d as [|p|p]; simpl.
  - reflexivity.
  - destruct (binary_round_sign false p e He) as [(m' & e' & ->)| ->]; reflexivity.
  - destruct (binary_round_sign true p e He) as [(m' & e' & ->)| ->]; reflexivity.
Qed.


Lemma Pos_iter_xO (m d : positive) : Zpos (Pos.iter xO m d) = Zpos m * 2 ^ Zpos d.
Proof.
  induction d as [|d IH] using Pos.peano_ind.
  - simpl. lia.
  - rewrite Pos.iter_succ, Pos2Z.inj_xO, IH, Pos2Z.inj_succ, Z.pow_succ_r by lia. lia.
Qed.

Lemma shl_align_val (mx : positive) (ex ez : Z) :
  ez <= ex -> Zpos (fst (shl_align mx ex ez)) = Zpos mx * 2 ^ (ex - ez).
Proof.
  intros Hle. unfold shl_align.
  destruct (ez - ex) as [|d|d] eqn:Ed; simpl fst; try lia.
  - replace (ex - ez) with 0 by lia. lia.
  - rewrite Pos_iter_xO. f_equal. f_equal. lia.
Qed.

Lemma valid_finite_bounds (s : bool) (m : positive) (e : Z) :
  SpecFloat.valid_binary prec emax (S754_finite s m e) = true ->
  emin <= e /\ 0 < Zpos m * 2 ^ (e - emin) < 2 ^ (emax - emin).
Proof.
  unfold SpecFloat.valid_binary, bounded, canonical_mantissa, SpecFloat.fexp.
  intros Hb. apply andb_prop in Hb as (Hc & He).
  apply Z.eqb_eq in Hc. apply Z.leb_le in He.
  pose proof (digits2_pos_bounds m) as (_ & Hhi).
  unfold SpecFloat.fexp in Hc.
  assert (Hemin : emin <= e) by lia.
  assert (Hd : Zpos (digits2_pos m) <= prec) by lia.
  split; [exact Hemin|].
  assert (Hpow : 0 < 2 ^ (e - emin)) by (apply Z.pow_pos_nonneg; lia).
  split; [apply Z.mul_pos_pos; lia|].
  assert (Hm : Zpos m < 2 ^ prec).
  { apply Z.lt_le_trans with (2 ^ Zpos (digits2_pos m)); [exact Hhi|].
    apply Z.pow_le_mono_r; lia. }
  apply Z.lt_le_trans with (2 ^ prec * 2 ^ (e - emin)).
  - apply Z.mul_lt_mono_pos_r; assumption.
  - rewrite <- Z.pow_add_r by lia. apply Z.pow_le_mono_r; lia.
Qed.

Lemma key_bound (x : spec_float) :
  SpecFloat.valid_binary prec emax x = true ->
  match x with
  | S754_finite _ _ _ | S754_zero _ => - 2 ^ (emax - emin) < F64.sf_key prec emax x < 2 ^ (emax - emin)
  | _ => True
  end.
Proof.
  destruct x as [s|s| |s m e]; intros Hv; try exact I.
  - unfold F64.sf_key. assert (0 < 2 ^ (emax - emin)); [|lia].
    apply Z.pow_pos_nonneg; [lia|]. unfold SpecFloat.emin. lia.
  - destruct (valid_finite_bounds s m e Hv) as (_ & H1 & H2).
    unfold F64.sf_key, cond_Zopp. destruct s; lia.
Qed.


(** The comparator [x - y < 0] compares the values. *)
Lemma SFsub_neg_key (x y : spec_float) :
  SpecFloat.valid_binary prec emax x = true ->
  SpecFloat.valid_binary prec emax y = true ->
  x <> S754_nan -> y <> S754_nan ->
  SFltb (SFsub prec emax x y) (S754_zero false) = (F64.sf_key prec emax x <? F64.sf_key prec emax y).
Proof.
  intros Hx Hy Nx Ny.
  assert (HB : 0 < 2 ^ (emax - emin))
    by (apply Z.pow_pos_nonneg; [lia | unfold SpecFloat.emin; lia]).
  pose proof (key_bound x Hx) as Kx. pose proof (key_bound y Hy) as Ky.
  destruct x as [sx|sx| |sx mx ex], y as [sy|sy| |sy my ey]; try congruence.
  - (* zero, zero *)
    destruct sx, sy; reflexivity.
  - (* zero, infinity *)
    unfold F64.sf_key, cond_Zopp. destruct sy; simpl SFltb; symmetry;
      [apply Z.ltb_ge | apply Z.ltb_lt]; lia.
  - (* zero, finite *)
    destruct (valid_finite_bounds sy my ey Hy) as (_ & Hpos & _).
    unfold F64.sf_key, cond_Zopp. destruct sy; simpl SFltb; symmetry;
      [apply Z.ltb_ge | apply Z.ltb_lt]; lia.
  - (* infinity, zero *)
    unfold F64.sf_key, cond_Zopp. destruct sx; simpl SFltb; symmetry;
      [apply Z.ltb_lt | apply Z.ltb_ge]; lia.
  - (* infinity, infinity *)
    unfold F64.sf_key, cond_Zopp. destruct sx, sy; simpl SFltb; symmetry;
      first [apply Z.ltb_lt; lia | apply Z.ltb_ge; lia].
  - (* infinity, finite *)
    unfold F64.sf_key, cond_Zopp in *. destruct sx; simpl SFltb; symmetry;
      [apply Z.ltb_lt | apply Z.ltb_ge]; destruct sy; lia.
  - (* finite, zero *)
    destruct (valid_finite_bounds sx mx ex Hx) as (_ & Hpos & _).
    unfold F64.sf_key, cond_Zopp. destruct sx; simpl SFltb; symmetry;
      [apply Z.ltb_lt | apply Z.ltb_ge]; lia.
  - (* finite, infinity *)
    unfold F64.sf_key, cond_Zopp in *. destruct sy; simpl SFltb; symmetry;
      [apply Z.ltb_ge | apply Z.ltb_lt]; destruct sx; lia.
  - (* finite, finite *)
    destruct (valid_finite_bounds sx mx ex Hx) as (Hex & _).
    destruct (valid_finite_bounds sy my ey Hy) as (Hey & _).
    cbn [SFsub]. cbv zeta.
    rewrite binary_normalize_neg by lia.
    rewrite !shl_align_val by lia.
    set (ez := Z.min ex ey).
    assert (Hp : 0 < 2 ^ (ez - emin)) by (apply Z.pow_pos_nonneg; lia).
    assert (Ex : 2 ^ (ex - emin) = 2 ^ (ex - ez) * 2 ^ (ez - emin))
      by (rewrite <- Z.pow_add_r by lia; f_equal; lia).
    assert (Ey : 2 ^ (ey - emin) = 2 ^ (ey - ez) * 2 ^ (ez - emin))
      by (rewrite <- Z.pow_add_r by lia; f_equal; lia).
    unfold F64.sf_key. rewrite Ex, Ey.
    set (a := Zpos mx * 2 ^ (ex - ez)). set (b := Zpos my * 2 ^ (ey - ez)).
    replace (Zpos mx * (2 ^ (ex - ez) * 2 ^ (ez - emin))) with (a * 2 ^ (ez - emin))
      by (unfold a; ring).
    replace (Zpos my * (2 ^ (ey - ez) * 2 ^ (ez - emin))) with (b * 2 ^ (ez - emin))
      by (unfold b; ring).
    set (P := 2 ^ (ez - emin)) in *.
    destruct (Z.ltb_spec (cond_Zopp sx a - cond_Zopp sy b) 0) as [Hd|Hd]; symmetry;
      [apply Z.ltb_lt | apply Z.ltb_ge]; unfold cond_Zopp in *; destruct sx, sy; nia.
Qed.

End Rounding.

(** On numbers other than [NaN] the comparator of the sort orders by
    value. *)
Lemma sorts_before_key (lib : MathApprox) (x y : float) :
  PrimFloat.is_nan x = false -> PrimFloat.is_nan y = false ->
  @sorts_before float (IEEE lib) x y = (F64.key x <? F64.key y)%Z.
Proof.
  intros Hx Hy. unfold sorts_before, comparefn. simpl.
  rewrite FloatAxioms.ltb_spec, FloatAxioms.sub_spec.
  replace (Prim2SF 0) with (S754_zero false) by (vm_compute; reflexivity).
  apply SFsub_neg_key; try reflexivity; try apply Prim2SF_valid.
  - intros E. apply is_nan_Prim2SF in E. congruence.
  - intros E. apply is_nan_Prim2SF in E. congruence.
Qed.

(** [<] on binary64 is a strict order in which only [NaN] is
    incomparable, and the comparator [x - y] is consistent on numbers
    other than [NaN]. *)
#[export] Instance IEEE_order (lib : MathApprox) : @NumOrder float (IEEE lib).
Proof.
  split.
  - intros a. simpl. rewrite FloatAxioms.ltb_spec. apply SFltb_irrefl.
  - intros a b c. simpl. rewrite !FloatAxioms.ltb_spec. apply SFltb_trans.
  - intros a b c. simpl. rewrite !FloatAxioms.ltb_spec. intros H1 H2.
    destruct (SFltb_neg_trans _ _ _ H1 H2) as [Hlt|Hnan]; [left; exact Hlt|].
    right. apply is_nan_Prim2SF, Hnan.
  - intros l Hl. rewrite List.Forall_forall in Hl. split.
    + intros x y Hx Hy. rewrite !sorts_before_key by (apply Hl; assumption).
      intros Hlt. apply Z.ltb_lt in Hlt. apply Z.ltb_ge. lia.
    + intros x y z Hx Hy Hz. rewrite !sorts_before_key by (apply Hl; assumption).
      intros H1 H2. apply Z.ltb_ge in H1, H2. apply Z.ltb_ge. lia.
Qed.

(** ** The E-step row by row *)

Section Rows.
Context {num : Type} `{Arith num}.
Local Open Scope num_scope.

Lemma fold_push_sum {A} (f : A -> num) (l : list A) :
  forall (resp : list num) (sum : num),
    fold_left (fun '(resp, sum) j => (resp ++ [f j], sum + f j)) l (resp, sum)
    = (resp ++ map f l, fold_left nadd (map f l) sum).
Proof.
  induction l as [|x l IH]; intros resp sum; simpl.
  - rewrite app_nil_r. reflexivity.
  - rewrite IH, <- app_assoc. reflexivity.
Qed.

(** The row of sample [i]: the weighted densities of the components at
    that sample, each divided by their sum plus [1e-10]. *)
Lemma eStepRow_components (data : list num) (k : nat) (st : EMState num) (i : nat) :
  has_size k st ->
  let cs := components (st_weights st) (st_means st) (st_variances st) in
  let probs := map (componentDensity (get data i)) cs in
  eStepRow data k st i = map (fun r => r / (sum_from_0 probs + lit_1e_10)) probs
  /\ sum_from_0 probs
     = mixtureSum (get data i) (st_means st) (st_variances st) (st_weights st)
  /\ length probs = k.
Proof.
  intros (Hm & Hv & Hw) cs probs. subst k. unfold eStepRow.
  rewrite (fold_push_sum
             (fun j => get (st_weights st) j
                       * gaussianPDF (get data i) (get (st_means st) j)
                                     (Math_sqrt (get (st_variances st) j)))).
  simpl. rewrite (map_components_seq (get data i)) by congruence.
  split; [reflexivity|]. split.
  - symmetry. apply mixtureSum_components; congruence.
  - subst probs cs. rewrite length_map. unfold components.
    rewrite !length_zip_with. lia.
Qed.

End Rows.

(** ** The sum of the weights in exact arithmetic *)

Module ExactFacts.

Local Open Scope R_scope.
#[local] Existing Instance Exact.RArith.

Lemma Rsum_from (l : list R) (a : R) : fold_left Rplus l a = a + sum_from_0 l.
Proof.
  unfold sum_from_0; simpl. revert a. induction l as [|x l IH]; intros a; simpl.
  - lra.
  - rewrite IH, (IH (0 + x)). lra.
Qed.

Lemma Rsum_cons (x : R) (l : list R) : sum_from_0 (x :: l) = x + sum_from_0 l.
Proof. unfold sum_from_0 at 1; simpl. rewrite Rsum_from. lra. Qed.

Lemma Rsum_nil : sum_from_0 (@nil R) = 0.
Proof. reflexivity. Qed.

Lemma Rsum_map_div {A} (f : A -> R) (c : R) (l : list A) :
  sum_from_0 (map (fun x => f x / c) l) = sum_from_0 (map f l) / c.
Proof.
  induction l as [|x l IH]; simpl.
  - rewrite Rsum_nil. unfold Rdiv. lra.
  - rewrite !Rsum_cons, IH. unfold Rdiv. lra.
Qed.

Lemma Rsum_map_plus {A} (f g : A -> R) (l : list A) :
  sum_from_0 (map (fun x => f x + g x) l) = sum_from_0 (map f l) + sum_from_0 (map g l).
Proof.
  induction l as [|x l IH]; simpl.
  - rewrite !Rsum_nil. lra.
  - rewrite !Rsum_cons, IH. lra.
Qed.

Lemma Rsum_map_zero {A} (l : list A) : sum_from_0 (map (fun _ => 0) l) = 0.
Proof.
  induction l as [|x l IH]; simpl; [reflexivity|]. rewrite Rsum_cons, IH. lra.
Qed.

Lemma columnSum_cons (r : list R) (rows : list (list R)) (j : nat) :
  columnSum (r :: rows) j = get r j + columnSum rows j.
Proof.
  unfold columnSum. cbn [fold_left].
  rewrite !(fold_left_add_map (fun r0 : list R => get r0 j)).
  change (fold_left nadd ?l ?a) with (fold_left Rplus l a).
  rewrite Rsum_from, (Rsum_from _ (of_Z 0)). simpl. lra.
Qed.

(** Summing the column sums over the components is summing the row
    sums over the samples. *)
Lemma columnSums_rowSums (rows : list (list R)) (k : nat) :
  sum_from_0 (map (columnSum rows) (seq 0 k))
  = sum_from_0 (map (fun r => sum_from_0 (map (get r) (seq 0 k))) rows).
Proof.
  induction rows as [|r rows IH].
  - simpl. rewrite Rsum_nil. apply Rsum_map_zero.
  - simpl map at 2. rewrite Rsum_cons, <- IH, <- Rsum_map_plus.
    f_equal. apply map_ext. intros j. apply columnSum_cons.
Qed.

Lemma Rsum_get_seq (r : list R) : sum_from_0 (map (get r) (seq 0 (length r))) = sum_from_0 r.
Proof. rewrite (map_get_seq (fun x => x) r), map_id. reflexivity. Qed.

Lemma Rsum_nonneg {A} (f : A -> R) (l : list A) :
  (forall x, In x l -> 0 <= f x) -> 0 <= sum_from_0 (map f l).
Proof.
  intros Hf. induction l as [|x l IH]; [cbn [map]; rewrite Rsum_nil; lra|].
  cbn [map]. rewrite Rsum_cons.
  pose proof (Hf x (or_introl eq_refl)).
  assert (0 <= sum_from_0 (map f l)) by (apply IH; intros y Hy; apply Hf; right; exact Hy).
  lra.
Qed.

Lemma Rsum_zero_terms {A} (f : A -> R) (l : list A) :
  (forall x, In x l -> 0 <= f x) -> sum_from_0 (map f l) = 0 ->
  forall x, In x l -> f x = 0.
Proof.
  induction l as [|y l IH]; intros Hf Hs x Hx; [destruct Hx|].
  cbn [map] in Hs. rewrite Rsum_cons in Hs.
  pose proof (Hf y (or_introl eq_refl)) as Hy.
  assert (Hl : 0 <= sum_from_0 (map f l))
    by (apply Rsum_nonneg; intros z Hz; apply Hf; right; exact Hz).
  destruct Hx as [<-|Hx]; [lra|].
  apply IH; [intros z Hz; apply Hf; right; exact Hz | lra | exact Hx].
Qed.

Lemma pow_2 (x : R) : Exact.pow x 2 = x * x.
Proof. unfold Exact.pow. destruct (Req_EM_T 2 2); [reflexivity | lra]. Qed.

Lemma gaussianPDF_R (x mean stdDev : R) :
  gaussianPDF x mean stdDev
  = 1 / (stdDev * sqrt (2 * PI))
    * exp (- ((x - mean) * (x - mean)) / (2 * (stdDev * stdDev))).
Proof.
  unfold gaussianPDF. cbn [of_Z nadd nsub nmul ndiv nopp Math_sqrt Math_exp Math_pow Math_PI
                           Exact.RArith].
  rewrite !pow_2. reflexivity.
Qed.

Lemma sqrt_2PI_pos : 0 < sqrt (2 * PI).
Proof. apply sqrt_lt_R0. pose proof PI_RGT_0. lra. Qed.

Lemma gaussianPDF_pos (x mean stdDev : R) : 0 < stdDev -> 0 < gaussianPDF x mean stdDev.
Proof.
  intros Hs. rewrite gaussianPDF_R. apply Rmult_lt_0_compat; [|apply exp_pos].
  apply Rdiv_lt_0_compat; [lra|].
  apply Rmult_lt_0_compat; [exact Hs | apply sqrt_2PI_pos].
Qed.

(** A sum of terms between [lo] and [hi], divided by their number, is
    between [lo] and [hi]. *)
Lemma Rsum_mean_bounds {A} (f : A -> R) (lo hi : R) (l : list A) :
  (forall x, In x l -> lo <= f x <= hi) ->
  lo * INR (length l) <= sum_from_0 (map f l) <= hi * INR (length l).
Proof.
  induction l as [|x l IH]; intros Hb.
  - simpl. rewrite Rsum_nil. lra.
  - cbn [map length]. rewrite Rsum_cons, S_INR.
    pose proof (Hb x (or_introl eq_refl)).
    assert (lo * INR (length l) <= sum_from_0 (map f l) <= hi * INR (length l))
      by (apply IH; intros y Hy; apply Hb; right; exact Hy).
    lra.
Qed.

End ExactFacts.

(** ** The weights after an exact EM pass *)

Module ExactPass.

Import ExactFacts.
Local Open Scope R_scope.
#[local] Existing Instance Exact.RArith.

(** The sum of row [i] of the E-step. *)
Lemma eStepRow_sum (data : list R) (k : nat) (st : EMState R) (i : nat) :
  has_size k st ->
  let s := mixtureSum (get data i) (st_means st) (st_variances st) (st_weights st) in
  sum_from_0 (map (get (eStepRow data k st i)) (seq 0 k)) = s / (s + / 10000000000).
Proof.
  intros Hst s.
  destruct (eStepRow_components data k st i Hst) as (Erow & Esum & Elen).
  rewrite Erow. rewrite <- Elen at 1.
  rewrite <- (length_map (fun r => r / (sum_from_0 (map (componentDensity (get data i))
                (components (st_weights st) (st_means st) (st_variances st))) + lit_1e_10))).
  rewrite Rsum_get_seq.
  rewrite (Rsum_map_div (fun r => r)), map_id, Esum. reflexivity.
Qed.

Lemma ratio_bounds (s : R) :
  / 10000 <= s -> 1 - / 1000000 <= s / (s + / 10000000000) <= 1.
Proof.
  intros Hs.
  assert (Hpos : 0 < s + / 10000000000) by lra.
  split.
  - apply Rmult_le_reg_r with (s + / 10000000000); [exact Hpos|].
    unfold Rdiv. rewrite Rmult_assoc, Rinv_l by lra. lra.
  - apply Rmult_le_reg_r with (s + / 10000000000); [exact Hpos|].
    unfold Rdiv. rewrite Rmult_assoc, Rinv_l by lra. lra.
Qed.


(** In exact arithmetic an EM pass, from parameters with positive
    variances, yields weights whose sum is the mean over the samples of
    [s / (s + 1e-10)], where [s] is the density of the mixture at the
    sample under the parameters entering the pass.  The sum is within
    1e-6 of 1 when the density is at least 1e-4 at every sample. *)
Lemma exact_pass_weights (data : list R) (k : nat) (st : EMState R) :
  has_size k st ->
  Forall (fun v => 0 < v) (st_variances st) ->
  (1 <= length data)%nat ->
  (forall x, In x data ->
             / 10000 <= mixtureSum x (st_means st) (st_variances st) (st_weights st)) ->
  exists st',
    emIteration data k st = Ok st'
    /\ sum_from_0 (st_weights st')
       = sum_from_0
           (map (fun x =>
                   let s := mixtureSum x (st_means st) (st_variances st) (st_weights st) in
                   s / (s + / 10000000000)) data)
         / INR (length data)
    /\ Rabs (sum_from_0 (st_weights st') - 1) <= / 1000000.
Proof.
  intros Hst _ Hn Hdens.
  destruct (emIteration_Ok data k st Hst) as (st' & E & _ & W).
  exists st'. split; [exact E|].
  assert (Hsum : sum_from_0 (st_weights st')
                 = sum_from_0
                     (map (fun x =>
                             let s := mixtureSum x (st_means st) (st_variances st)
                                                 (st_weights st) in
                             s / (s + / 10000000000)) data)
                   / INR (length data)).
  { pose (F := fun x : R =>
                 let s := mixtureSum x (st_means st) (st_variances st) (st_weights st) in
                 s / (s + / 10000000000)).
    fold F. rewrite W.
    rewrite (Rsum_map_div (columnSum (eStep data k st)) (of_nat (length data))).
    rewrite columnSums_rowSums. unfold eStep. rewrite map_map.
    rewrite (map_ext _ (fun i => F (get data i)))
      by (intros i; apply eStepRow_sum, Hst).
    rewrite (map_get_seq F data).
    unfold of_nat; simpl. rewrite <- INR_IZR_INZ. reflexivity. }
  split; [exact Hsum|].
  rewrite Hsum.
  assert (Hlen : 0 < INR (length data)) by (apply lt_0_INR; lia).
  pose proof (Rsum_mean_bounds
                (fun x => let s := mixtureSum x (st_means st) (st_variances st)
                                              (st_weights st) in
                          s / (s + / 10000000000))
                (1 - / 1000000) 1 data
                (fun x Hx => ratio_bounds _ (Hdens x Hx))) as (Hlo & Hhi).
  apply Rabs_le.
  split.
  - apply Rmult_le_reg_r with (INR (length data)); [exact Hlen|].
    unfold Rdiv. rewrite Rmult_minus_distr_r, Rmult_assoc, Rinv_l by lra. lra.
  - apply Rmult_le_reg_r with (INR (length data)); [exact Hlen|].
    unfold Rdiv. rewrite Rmult_minus_distr_r, Rmult_assoc, Rinv_l by lra. lra.
Qed.






End ExactPass.

(** ** A variance of zero on binary64 numbers *)

(** From a variance of exactly 0 the density is [NaN] at every sample,
    and [NaN] then spreads through the E-step, the M-step and the
    log-likelihood. *)

Section NaNArithmetic.
Local Open Scope float_scope.

Lemma nan_unique (x : float) : PrimFloat.is_nan x = true -> x = nan.
Proof.
  intros H. apply is_nan_Prim2SF in H.
  rewrite <- (FloatAxioms.SF2Prim_Prim2SF x), H. reflexivity.
Qed.

Lemma add_nan_r (x : float) : x + nan = nan.
Proof.
  apply nan_unique, is_nan_Prim2SF. rewrite FloatAxioms.add_spec.
  replace (Prim2SF nan) with S754_nan by reflexivity.
  destruct (Prim2SF x) as [[]|[]| |[] m e]; reflexivity.
Qed.

Lemma sub_nan_l (x : float) : nan - x = nan.
Proof.
  apply nan_unique, is_nan_Prim2SF. rewrite FloatAxioms.sub_spec.
  replace (Prim2SF nan) with S754_nan by reflexivity. reflexivity.
Qed.

Lemma mul_nan_l (x : float) : nan * x = nan.
Proof.
  apply nan_unique, is_nan_Prim2SF. rewrite FloatAxioms.mul_spec.
  replace (Prim2SF nan) with S754_nan by reflexivity. reflexivity.
Qed.

Lemma mul_nan_r (x : float) : x * nan = nan.
Proof.
  apply nan_unique, is_nan_Prim2SF. rewrite FloatAxioms.mul_spec.
  replace (Prim2SF nan) with S754_nan by reflexivity.
  destruct (Prim2SF x) as [[]|[]| |[] m e]; reflexivity.
Qed.

Lemma div_nan_l (x : float) : nan / x = nan.
Proof.
  apply nan_unique, is_nan_Prim2SF. rewrite FloatAxioms.div_spec.
  replace (Prim2SF nan) with S754_nan by reflexivity. reflexivity.
Qed.

Lemma div_nan_r (x : float) : x / nan = nan.
Proof.
  apply nan_unique, is_nan_Prim2SF. rewrite FloatAxioms.div_spec.
  replace (Prim2SF nan) with S754_nan by reflexivity.
  destruct (Prim2SF x) as [[]|[]| |[] m e]; reflexivity.
Qed.

(** A rounded square is never below zero. *)
Lemma square_not_negative (d : float) : (d * d <? 0) = false.
Proof.
  rewrite FloatAxioms.ltb_spec, FloatAxioms.mul_spec.
  replace (Prim2SF 0) with (S754_zero false) by reflexivity.
  unfold SF64mul, SFmul.
  destruct (Prim2SF d) as [s|s| |s m e]; try (destruct s; reflexivity); try reflexivity.
  replace (xorb s s) with false by (destruct s; reflexivity).
  unfold binary_round_aux.
  match goal with
  | |- context [shr_fexp ?p ?q ?a ?b ?c] => destruct (shr_fexp p q a b c) as [mrs e1]
  end.
  match goal with
  | |- context [shr_fexp ?p ?q ?a ?b ?c] => destruct (shr_fexp p q a b c) as [mrs2 e2]
  end.
  destruct (shr_m mrs2); [reflexivity | | reflexivity].
  match goal with |- context [(?a <=? ?b)%Z] => destruct (a <=? b)%Z end; reflexivity.
Qed.

(** The exponent [-(d * d) / 0] of the density is [NaN] for [d = 0]
    and minus infinity otherwise. *)
Lemma exponent_at_zero (q : float) :
  (q <? 0) = false -> (- q) / 0 = nan \/ (- q) / 0 = neg_infinity.
Proof.
  intros Hq.
  assert (H : Prim2SF ((- q) / 0) = S754_nan \/ Prim2SF ((- q) / 0) = S754_infinity true).
  { rewrite FloatAxioms.ltb_spec in Hq.
    rewrite FloatAxioms.div_spec, FloatAxioms.opp_spec.
    replace (Prim2SF 0) with (S754_zero false) in * by reflexivity.
    destruct (Prim2SF q) as [[]|[]| |[] m e]; cbn in Hq; try discriminate; cbn; auto. }
  destruct H as [H|H]; [left|right];
    rewrite <- (FloatAxioms.SF2Prim_Prim2SF (- q / 0)), H; reflexivity.
Qed.

Lemma fold_left_nan {A} (f : float -> A -> float) (l : list A) (a : float) :
  l <> [] -> (forall acc x, In x l -> f acc x = nan) -> fold_left f l a = nan.
Proof.
  intros Hne Hf. destruct (exists_last Hne) as (l' & x & ->).
  rewrite fold_left_app. cbn [fold_left]. apply Hf, in_or_app. right. left. reflexivity.
Qed.

Lemma seq_nonempty (n : nat) : (1 <= n)%nat -> seq 0 n <> [].
Proof. destruct n; [lia | discriminate]. Qed.

End NaNArithmetic.

Section Collapse.
Variable lib : MathApprox.
Local Open Scope float_scope.

Local Abbreviation oneComponent m v w :=
  {| st_means := [m]; st_variances := [v]; st_weights := [w] |}.

(** [gaussianPDF] at the standard deviation [sqrt 0 = 0]: the
    coefficient [1 / (0 * sqrt (2 PI))] is infinite and the
    exponential is 0 or [NaN]. *)
Lemma gaussianPDF_collapsed (x m v : float) :
  v = 0 \/ v = nan ->
  @gaussianPDF float (IEEE_Arith lib) x m (PrimFloat.sqrt v) = nan.
Proof.
  intros [-> | ->].
  - unfold gaussianPDF.
    cbn [of_Z nadd nsub nmul ndiv nopp Math_sqrt Math_exp Math_pow Math_PI IEEE_Arith].
    change (F64.pow lib (x - m) (F64.of_Z 2)) with ((x - m) * (x - m)).
    change (F64.of_Z 2 * F64.pow lib (PrimFloat.sqrt 0) (F64.of_Z 2)) with 0.
    change (F64.of_Z 1 / (PrimFloat.sqrt 0 * PrimFloat.sqrt (F64.of_Z 2 * F64.PI)))
      with infinity.
    destruct (exponent_at_zero _ (square_not_negative (x - m))) as [-> | ->];
      reflexivity.
  - unfold gaussianPDF.
    cbn [of_Z nadd nsub nmul ndiv nopp Math_sqrt Math_exp Math_pow Math_PI IEEE_Arith].
    change (F64.of_Z 1 / (PrimFloat.sqrt nan * PrimFloat.sqrt (F64.of_Z 2 * F64.PI)))
      with nan.
    apply mul_nan_l.
Qed.

Lemma eStepRow_collapsed (data : list float) (m v w : float) (i : nat) :
  v = 0 \/ v = nan ->
  @eStepRow float (IEEE_Arith lib) data 1 (oneComponent m v w) i = [nan].
Proof.
  intros Hv. unfold eStepRow, get.
  cbn [seq fold_left st_means st_variances st_weights lookup list_lookup toNumber app map
       Math_sqrt nmul nadd ndiv of_Z lit_1e_10 IEEE_Arith].
  rewrite (gaussianPDF_collapsed _ m v Hv), mul_nan_r, add_nan_r.
  rewrite div_nan_l. reflexivity.
Qed.

Lemma eStep_collapsed (data : list float) (m v w : float) :
  v = 0 \/ v = nan ->
  @eStep float (IEEE_Arith lib) data 1 (oneComponent m v w)
  = map (fun _ => [nan]) (seq 0 (length data)).
Proof.
  intros Hv. unfold eStep. apply map_ext. intros i. apply eStepRow_collapsed, Hv.
Qed.

(** A pass from a variance of 0 or [NaN] leaves only [NaN]. *)
Lemma emIteration_collapsed (data : list float) (m v w : float) :
  v = 0 \/ v = nan ->
  (1 <= length data)%nat ->
  @emIteration float (IEEE_Arith lib) data 1 (oneComponent m v w)
  = Ok (oneComponent nan nan nan).
Proof.
  intros Hv Hn. unfold emIteration, mStep. cbn [seq for_each].
  rewrite (mStepComponent_values data _ 1 (oneComponent m v w) 0 (length_eStep data 1 _))
    by (repeat split || lia).
  cbn [exc_bind st_means st_variances st_weights].
  rewrite (eStep_collapsed data m v w Hv).
  set (rows := map (fun _ => [nan]) (seq 0 (length data))).
  assert (Hcol : @columnSum float (IEEE_Arith lib) rows 0 = nan).
  { unfold columnSum. apply fold_left_nan.
    - unfold rows. intros E. apply (seq_nonempty _ Hn).
      destruct (seq 0 (length data)); [reflexivity | discriminate].
    - intros acc r Hr. unfold rows in Hr. apply in_map_iff in Hr.
      destruct Hr as (i & <- & _). apply add_nan_r. }
  assert (Hmean : @respMean float (IEEE_Arith lib) rows data 0 = nan).
  { unfold respMean. rewrite Hcol. apply div_nan_r. }
  assert (Hvar : @respVariance float (IEEE_Arith lib) rows data 0 = nan).
  { unfold respVariance. rewrite Hcol. apply div_nan_r. }
  rewrite Hcol, Hmean, Hvar.
  cbn [ndiv IEEE_Arith]. rewrite div_nan_l. reflexivity.
Qed.

Lemma logLikelihood_collapsed (data : list float) (m v w : float) :
  v = 0 \/ v = nan ->
  (1 <= length data)%nat ->
  @calculateLogLikelihood float (IEEE lib) data [m] [v] [w] = nan.
Proof.
  intros Hv Hn. unfold calculateLogLikelihood.
  apply fold_left_nan; [apply seq_nonempty, Hn|].
  intros acc i _. unfold mixtureSum, get.
  cbn [length seq fold_left lookup list_lookup toNumber js_arith IEEE Math_sqrt nmul nadd
       of_Z lit_1e_10 Math_log IEEE_Arith].
  rewrite (gaussianPDF_collapsed _ m v Hv), mul_nan_r.
  apply add_nan_r.
Qed.

Lemma emLoop_step (data : list float) (k iters : nat) (st : EMState float) (prev : float) :
  @emLoop float (IEEE lib) data k (S iters) st prev
  = (st' <- @emIteration float (IEEE_Arith lib) data k st ;;
     let logLikelihood :=
       @calculateLogLikelihood float (IEEE lib) data (st_means st') (st_variances st')
         (st_weights st') in
     if PrimFloat.abs (logLikelihood - prev) <? @tolerance float (IEEE lib)
     then Ok st'
     else @emLoop float (IEEE lib) data k iters st' logLikelihood).
Proof. reflexivity. Qed.

(** The convergence test fails on a [NaN] log-likelihood. *)
Lemma not_converged (prev : float) :
  (PrimFloat.abs (nan - prev) <? @tolerance float (IEEE lib)) = false.
Proof. rewrite sub_nan_l. reflexivity. Qed.

(** From a variance of 0 or [NaN] the loop runs to its last pass and
    leaves only [NaN]. *)
Lemma emLoop_collapsed (data : list float) (iters : nat) :
  (1 <= length data)%nat ->
  forall m v w prev,
    v = 0 \/ v = nan ->
    (1 <= iters)%nat ->
    @emLoop float (IEEE lib) data 1 iters (oneComponent m v w) prev
    = Ok (oneComponent nan nan nan).
Proof.
  intros Hn. induction iters as [|iters IH]; intros m v w prev Hv Hi; [lia|].
  rewrite emLoop_step, (emIteration_collapsed data m v w Hv Hn).
  cbn [exc_bind st_means st_variances st_weights]. cbv zeta.
  rewrite (logLikelihood_collapsed data nan nan nan (or_intror eq_refl) Hn), not_converged.
  destruct iters as [|iters']; [reflexivity|].
  apply IH; [right; reflexivity | lia].
Qed.

(** When the first pass leaves the variance 0, the fit returns the
    model of [NaN]s. *)
Lemma simpleGMM_collapsed (data : list float) (m w : float) :
  (1 <= length data)%nat ->
  @emIteration float (IEEE_Arith lib) data 1 (@initialState float (IEEE lib) data 1)
  = Ok (oneComponent m 0 w) ->
  @simpleGMM float (IEEE lib) data 1 = Ok (@nanModel float (IEEE lib) 1).
Proof.
  intros Hn E. unfold simpleGMM, maxIter.
  rewrite emLoop_step, E. cbn [exc_bind st_means st_variances st_weights]. cbv zeta.
  rewrite (logLikelihood_collapsed data m 0 w (or_introl eq_refl) Hn), not_converged.
  rewrite (emLoop_collapsed data 99 Hn m 0 w nan (or_introl eq_refl)) by lia.
  reflexivity.
Qed.

End Collapse.

(** * The claims *)

Section GenericClaims.
Context {num : Type} `{JsNumber num}.
Local Open Scope num_scope.

(** C5.  On every dataset (of length 1 or more, and of any other
    length) the computation of the best model returns a model and does
    not throw: the small-sample model below five samples, one of the
    three scored EM fits otherwise.  The EM fit itself returns a model
    for every dataset and every number of components; a degenerate
    fit is a returned model with [NaN] fields, not an exception. *)
Theorem fitGMM_never_throws (data : list num) :
  (exists best, fitGMM data = Ok (Some best)
                /\ ((length data < 5)%nat -> best = simpleMeanStd data)
                /\ ((5 <= length data)%nat ->
                    exists k g, In k [1; 2; 3]%nat /\ simpleGMM data k = Ok g
                                /\ best = scored data g))
  /\ (forall k, exists g, simpleGMM data k = Ok g).
Proof.
  split.
  - unfold fitGMM. destruct (Nat.ltb_spec (length data) 5) as [Hs|Hl].
    + exists (simpleMeanStd data). split; [reflexivity|]. split; [reflexivity | intros; lia].
    + destruct (scoring_loop data) as (g1 & g2 & g3 & E1 & E2 & E3 & ->).
      cbn [exc_bind].
      destruct (selectBest_Ok [scored data g1; scored data g2; scored data g3])
        as (best & E & Hin); [congruence|].
      exists best. split; [exact E|]. split; [intros; lia|]. intros _.
      destruct Hin as [<-|[<-|[<-|[]]]];
        [exists 1%nat, g1 | exists 2%nat, g2 | exists 3%nat, g3]; simpl; auto.
  - intros k. destruct (simpleGMM_Ok data k) as (g & E & _). eauto.
Qed.

(** C9.  Every model produced by the EM fit, for any data and any [k],
    and every model produced by the small-sample estimator, has as
    many means, variances and weights as its [nComponents] says. *)
Theorem model_arrays_aligned :
  (forall (data : list num) (k : nat),
      exists m, simpleGMM data k = Ok m
                /\ length (means m) = nComponents m
                /\ length (variances m) = nComponents m
                /\ length (weights m) = nComponents m
                /\ nComponents m = k)
  /\ (forall data : list num,
         let m := simpleMeanStd data in
         length (means m) = nComponents m
         /\ length (variances m) = nComponents m
         /\ length (weights m) = nComponents m
         /\ nComponents m = 1%nat).
Proof.
  split.
  - intros data k.
    destruct (simpleGMM_Ok data k) as (m & E & Hk & Hm & Hv & Hw & _).
    exists m. rewrite Hk. auto.
  - intros data. simpl. auto.
Qed.

(** C8.  Below five samples the selection returns, without any EM
    pass, the one-component model of [simpleMeanStd]: its mean is the
    plain sample mean, its variance the Bessel-corrected sample
    variance from three samples on and [NaN] below, its weight 1, and
    it is flagged [isSimple].  For two samples the variance is
    [NaN]. *)
Theorem fitGMM_small_sample (data : list num) :
  (length data < 5)%nat ->
  exists m, fitGMM data = Ok (Some m)
            /\ m = simpleMeanStd data
            /\ nComponents m = 1%nat
            /\ means m = [sampleMean data]
            /\ variances m = [if (3 <=? length data)%nat then sampleVariance data else NaN]
            /\ weights m = [of_Z 1]
            /\ isSimple m = Some true
            /\ (length data = 2%nat -> variances m = [NaN]).
Proof.
  intros Hn. exists (simpleMeanStd data). unfold fitGMM.
  destruct (Nat.ltb_spec (length data) 5); [|lia].
  repeat (split; [reflexivity|]). split.
  - unfold simpleMeanStd; cbn [variances].
    destruct (3 <=? length data)%nat; [|reflexivity].
    unfold sampleVariance, sampleMean, sum_from_0.
    rewrite <- (fold_left_add_map
                  (fun v => Math_pow (v - fold_left nadd data (of_Z 0)
                                          / of_nat (length data)) (of_Z 2))).
    reflexivity.
  - repeat (split; [reflexivity|]).
    intros E2. unfold simpleMeanStd; cbn [variances]. rewrite E2. reflexivity.
Qed.

(** C6.  For a model whose arrays are aligned, the BIC is
    [-2 * logLikelihood + numParams * ln n], where the log-likelihood
    is the sum over the samples of the logarithm of the sum over the
    components of [weight * gaussianPDF(x; mean, sqrt(variance))],
    plus [1e-10], and [numParams = k + k + (k - 1)]: 2, 5 and 8 for 1,
    2 and 3 components. *)
Theorem calculateBIC_formula (data : list num) (m : Model num) :
  length (weights m) = length (means m) ->
  length (variances m) = length (means m) ->
  calculateBIC data m
  = - of_Z 2 * logLikelihoodOf data (components (weights m) (means m) (variances m))
    + of_Z (numParams (nComponents m)) * Math_log (of_nat (length data))
  /\ (forall k, numParams k = (2 * Z.of_nat k + (Z.of_nat k - 1))%Z)
  /\ numParams 1 = 2%Z /\ numParams 2 = 5%Z /\ numParams 3 = 8%Z.
Proof.
  intros Hw Hv. split; [|split; [intros k; unfold numParams; lia | auto]].
  unfold calculateBIC. do 2 f_equal.
  unfold calculateLogLikelihood, logLikelihoodOf, sum_from_0.
  rewrite (fold_left_add_map
             (fun i => Math_log (mixtureSum (get data i) (means m) (variances m) (weights m)
                                 + lit_1e_10))).
  rewrite (map_get_seq
             (fun x => Math_log (mixtureSum x (means m) (variances m) (weights m)
                                 + lit_1e_10)) data).
  f_equal. apply map_ext. intros x.
  rewrite (mixtureSum_components x _ _ _ Hw Hv). reflexivity.
Qed.

(** C10.  For a dataset of [n >= 1] samples and [k >= 1] components
    every index used to seed a mean is below [n]; no seed is read past
    the end of the sorted data, and every seed is a sample. *)
Theorem seeds_in_bounds (data : list num) (k : nat) :
  (1 <= length data)%nat -> (1 <= k)%nat ->
  Forall (fun idx => (idx < length data)%nat) (seedIndices (length data) k)
  /\ Forall (fun seed => exists x, seed = Some x /\ In x data) (initializeMeans data k).
Proof.
  intros Hn Hk. split; [apply seedIndices_lt; assumption|].
  unfold initializeMeans. rewrite length_sort.
  apply List.Forall_forall. intros seed Hseed.
  apply in_map_iff in Hseed as (idx & <- & Hidx).
  pose proof (seedIndices_lt (length data) k Hn Hk) as Hlt.
  rewrite List.Forall_forall in Hlt. specialize (Hlt idx Hidx).
  destruct (lookup_lt_is_Some_2 (sort_by_comparefn data) idx) as (x & Ex);
    [rewrite length_sort; exact Hlt|].
  exists x. split; [exact Ex|].
  apply (Permutation_in _ (sort_perm data)).
  apply list_elem_of_In, (list_elem_of_lookup_2 _ idx), Ex.
Qed.

End GenericClaims.

Section OrderedClaims.
Context {num : Type} `{NumOrder num}.
Local Open Scope num_scope.

(** C1.  On five samples or more the selection fits 1, 2 and 3
    components, in that order, scores each fit with its BIC and with
    whether its largest weight is at least 0.5, and keeps the fits
    that satisfy this constraint.  When none is kept it returns the
    fit with one component.  Otherwise it returns a kept fit that no
    kept fit has a lower BIC than, and the earliest such: every kept
    fit before it has a strictly higher BIC (or a [NaN] BIC, which [<]
    never ranks). *)
Theorem fitGMM_selects_lowest_bic (data : list num) :
  (5 <= length data)%nat ->
  exists g1 g2 g3 best,
    simpleGMM data 1 = Ok g1 /\ simpleGMM data 2 = Ok g2 /\ simpleGMM data 3 = Ok g3
    /\ fitGMM data = Ok (Some best)
    /\ let models := [scored data g1; scored data g2; scored data g3] in
       let kept := List.filter dominant models in
       (kept = [] -> best = scored data g1)
       /\ (kept <> [] -> exists i, first_minimum kept i best).
Proof.
  intros Hn.
  destruct (scoring_loop data) as (g1 & g2 & g3 & E1 & E2 & E3 & Eloop).
  rewrite (fitGMM_large data Hn), Eloop. cbn [exc_bind].
  unfold selectBest.
  assert (Htruthy : forall g, truthy (passesWeightConstraint (scored data g))
                              = dominant (scored data g)).
  { intros g. unfold scored, dominant; simpl. destruct (_ >=? _); reflexivity. }
  assert (Hkept :
            List.filter (fun m => truthy (passesWeightConstraint m))
                        [scored data g1; scored data g2; scored data g3]
            = List.filter dominant [scored data g1; scored data g2; scored data g3]).
  { cbn [List.filter]. rewrite !Htruthy. reflexivity. }
  rewrite Hkept. cbv zeta.
  remember (List.filter dominant [scored data g1; scored data g2; scored data g3])
    as kept eqn:Ek.
  destruct kept as [|v rest].
  - exists g1, g2, g3, (scored data g1).
    split; [exact E1|]. split; [exact E2|]. split; [exact E3|].
    split; [reflexivity|]. split; [reflexivity|]. intros Hne.
    cbv zeta in Hne. rewrite <- Ek in Hne. congruence.
  - destruct (reduce1_lowerBic (v :: rest)) as (best & i & Ered & Hmin); [congruence|].
    exists g1, g2, g3, best. split; [exact E1|]. split; [exact E2|]. split; [exact E3|].
    split.
    + cbn [length Nat.ltb Nat.leb]. rewrite Ered. reflexivity.
    + cbv zeta. rewrite <- Ek. split; [congruence|]. intros _. exists i. exact Hmin.
Qed.

(** C7.  For [n >= 1] samples and [k >= 1] components the means are
    seeded from a sorted copy of the data (a permutation of the data,
    ascending when no sample is [NaN]): at index
    [floor(n/2)] for one component, at [floor(n/3)] and [floor(2n/3)]
    for two, at [floor((j+1)n/(k+1))] for the [j]-th of three or more;
    every variance starts at 1 and every weight at [1/k]. *)
Theorem initialization_seeds (data : list num) (k : nat) :
  (1 <= length data)%nat -> (1 <= k)%nat ->
  let n := length data in
  let sortedData := sort_by_comparefn data in
  Permutation sortedData data
  /\ (Forall (fun x => isNaN x = false) data -> ascending sortedData)
  /\ (k = 1%nat -> initializeMeans data k = [sortedData !! (n / 2)%nat])
  /\ (k = 2%nat ->
      initializeMeans data k = [sortedData !! (n / 3)%nat; sortedData !! (2 * n / 3)%nat])
  /\ ((3 <= k)%nat ->
      initializeMeans data k
      = map (fun j => sortedData !! ((j + 1) * n / (k + 1))%nat) (seq 0 k))
  /\ Forall (fun seed => exists x, seed = Some x) (initializeMeans data k)
  /\ st_means (initialState data k) = map toNumber (initializeMeans data k)
  /\ st_variances (initialState data k) = repeat (of_Z 1) k
  /\ st_weights (initialState data k) = repeat (of_Z 1 / of_nat k) k.
Proof.
  intros Hn Hk n sortedData.
  split; [apply sort_perm|].
  split; [intros Hnan; apply sort_ascending, comparefn_consistent, Hnan|].
  unfold initializeMeans. fold sortedData.
  replace (length sortedData) with n by (symmetry; apply length_sort).
  split; [intros ->; reflexivity|]. split; [intros ->; reflexivity|]. split.
  - intros H3. unfold seedIndices.
    destruct (Nat.eqb_spec k 1); [lia|]. destruct (Nat.eqb_spec k 2); [lia|].
    rewrite map_map. reflexivity.
  - split; [|split; [|split; reflexivity]].
    2: { unfold initialState; cbn [st_means]. unfold initializeMeans.
         rewrite length_sort. reflexivity. }
    apply List.Forall_forall. intros seed Hseed.
    apply in_map_iff in Hseed as (idx & <- & Hidx).
    pose proof (seedIndices_lt n k Hn Hk) as Hlt.
    rewrite List.Forall_forall in Hlt. specialize (Hlt idx Hidx).
    destruct (lookup_lt_is_Some_2 sortedData idx) as (x & Ex); [|eauto].
    unfold sortedData. rewrite length_sort. exact Hlt.
Qed.

End OrderedClaims.

Section BandClaim.
Context {num : Type} `{JsNumber num}.
Local Open Scope num_scope.

Lemma pointAt_push_old (b : Bands num) (u l m : option num) (i p : nat) :
  length (meanLine b) = p -> length (lowerCI b) = p -> length (upperCI b) = p ->
  (i < p)%nat -> pointAt (pushBands b u l m) i = pointAt b i.
Proof.
  intros Hm Hl Hu Hi. unfold pointAt, pushBands; simpl.
  rewrite !lookup_app_l by lia. reflexivity.
Qed.

Lemma pointAt_push_new (b : Bands num) (t : option (num * num * num)) (p : nat) :
  length (meanLine b) = p -> length (lowerCI b) = p -> length (upperCI b) = p ->
  pointAt (pushBands b (option_map (fun t => snd t) t)
                       (option_map (fun t => snd (fst t)) t)
                       (option_map (fun t => fst (fst t)) t)) p = t.
Proof.
  intros Hm Hl Hu. unfold pointAt, pushBands; simpl.
  rewrite !lookup_app_r by lia. rewrite Hm, Hl, Hu, Nat.sub_diag. simpl.
  destruct t as [[[m lo] up]|]; reflexivity.
Qed.

(** C2.  The loop of [plotTimeSeries] does not throw and produces one
    point per sample.  The point is absent for the first two indices;
    for the next two it is the band of the plain mean and the
    Bessel-corrected variance of the samples up to the index; from the
    fifth sample on it is the band of the mean and variance of the
    dominant component (the first weight equal to the largest) of the
    model that [fitGMM] selects for the samples up to the index.  A
    band is the mean with [mean - 1.96 sqrt(variance)] and
    [mean + 1.96 sqrt(variance)], and is absent when the variance is
    [NaN]. *)
Theorem plotTimeSeries_points (data : list num) :
  exists b, plotTimeSeries data = Ok b
            /\ length (meanLine b) = length data
            /\ length (lowerCI b) = length data
            /\ length (upperCI b) = length data
            /\ forall i, (i < length data)%nat -> plots data i (pointAt b i).
Proof.
  unfold plotTimeSeries.
  assert (Hloop : forall p, (p <= length data)%nat ->
            exists b, for_each (seq 0 p) {| upperCI := []; lowerCI := []; meanLine := [] |}
                               (plotTimeSeries_step data) = Ok b
                      /\ length (meanLine b) = p /\ length (lowerCI b) = p
                      /\ length (upperCI b) = p
                      /\ forall i, (i < p)%nat -> plots data i (pointAt b i)).
  { induction p as [|p IH]; intros Hp.
    - eexists; split; [reflexivity|]. simpl.
      split; [reflexivity|]. split; [reflexivity|]. split; [reflexivity|].
      intros i Hi; lia.
    - destruct IH as (b & E & Hm & Hl & Hu & Hpts); [lia|].
      rewrite seq_S, for_each_app, E. cbn [exc_bind for_each Nat.add].
      destruct (plotTimeSeries_step_push data b p) as (t & -> & H0 & H1 & H2).
      cbn [exc_bind]. eexists; split; [reflexivity|].
      split; [simpl; rewrite length_app, Hm; simpl; lia|].
      split; [simpl; rewrite length_app, Hl; simpl; lia|].
      split; [simpl; rewrite length_app, Hu; simpl; lia|].
      intros i Hi. destruct (Nat.eq_dec i p) as [->|Hne].
      + rewrite (pointAt_push_new b t p Hm Hl Hu).
        assert (Hlen : length (slice0 data (p + 1)) = (p + 1)%nat)
          by (unfold slice0; rewrite length_take; lia).
        unfold plots. split; [exact H0|]. split.
        * intros Hr. apply H1; lia.
        * intros Hr. destruct H2 as (m & Em & Et); [lia | lia |].
          exists m. split; [exact Em|]. split; [exact Et|].
          intros d Hd. apply indexOf_first, Hd.
      + rewrite (pointAt_push_old b _ _ _ i p Hm Hl Hu) by lia. apply Hpts. lia. }
  apply Hloop. lia.
Qed.

End BandClaim.

(** ** On binary64 numbers *)

Section OnBinary64.
Local Open Scope float_scope.

(** C3 (as amended).  A dataset of one repeated value [v] is not
    always fitted, with one component, by the mean [v] and the weight
    1.  At the standard deviation 0 the density is [NaN] at every
    point, and whenever the first pass over at least one sample leaves
    a variance of exactly 0, the fit returns the model whose mean,
    variance and weight are [NaN].  The first pass leaves the mean
    [v], the variance 0 and a weight between 0.9999999997 and 1, so
    that the [NaN] model is returned, on [[5,5,5,5,5]] and on [n]
    copies of 1, 2, 4 or 8, [n] from 1 to 10; on [[5,5,5,5,5]] that
    weight is 0.99999999974933718.  All this holds for every
    implementation of the approximated functions.  Not every repeated
    value ends so: on six copies of 6.1 the first pass leaves the
    binary64 number just below 6.1 as the mean, with a positive
    variance, and with the reference implementation [RefLib.lib] the
    fit returns the weight 1 with the number just above 6.1 as the
    mean. *)
Theorem repeated_value_fit_is_NaN (lib : MathApprox) :
  (forall x m : float,
      @gaussianPDF float (IEEE_Arith lib) x m (PrimFloat.sqrt 0) = nan)
  /\ (forall (data : list float) (m w : float),
         (1 <= length data)%nat ->
         @emIteration float (IEEE_Arith lib) data 1 (@initialState float (IEEE lib) data 1)
         = Ok {| st_means := [m]; st_variances := [0]; st_weights := [w] |} ->
         @simpleGMM float (IEEE lib) data 1 = Ok (@nanModel float (IEEE lib) 1))
  /\ Forall (fun data =>
               exists v w,
                 data = repeat v (length data)
                 /\ (1 <= length data)%nat
                 /\ @emIteration float (IEEE_Arith lib) data 1
                      (@initialState float (IEEE lib) data 1)
                    = Ok {| st_means := [v]; st_variances := [0]; st_weights := [w] |}
                 /\ (0.9999999997 <? w) = true
                 /\ (w <? 1) = true
                 /\ @simpleGMM float (IEEE lib) data 1 = Ok (@nanModel float (IEEE lib) 1))
            repeatedDatasets
  /\ @emIteration float (IEEE_Arith lib) (repeat 5 5) 1
       (@initialState float (IEEE lib) (repeat 5 5) 1)
     = Ok {| st_means := [5];
             st_variances := [0];
             st_weights := [0.99999999974933718] |}
  /\ @emIteration float (IEEE_Arith lib) (repeat 6.1 6) 1
       (@initialState float (IEEE lib) (repeat 6.1 6) 1)
     = Ok {| st_means := [PrimFloat.next_down 6.1];
             st_variances := [7.8886090522101181e-31];
             st_weights := [0.99999999974933729] |}
  /\ (exists m, @simpleGMM float (IEEE RefLib.lib) (repeat 6.1 6) 1 = Ok m
                /\ means m = [PrimFloat.next_up 6.1]
                /\ variances m = [7.8886090522101181e-31]
                /\ weights m = [1]).
Proof.
  split; [intros x m; apply gaussianPDF_collapsed; left; reflexivity|].
  split; [intros data m w Hn E; exact (simpleGMM_collapsed lib data m w Hn E)|].
  split.
  - unfold repeatedDatasets. cbn [list_prod map seq app].
    repeat (constructor;
            [match goal with
             | |- exists v w, ?data = _ /\ _ =>
                 let r := eval vm_compute in
                            (@emIteration float (IEEE_Arith lib) data 1
                               (@initialState float (IEEE lib) data 1)) in
                 match r with
                 | Ok {| st_means := [?v]; st_variances := _; st_weights := [?w] |} =>
                     exists v, w;
                     assert (Hn : (1 <= length data)%nat) by (cbn; lia);
                     assert (E : @emIteration float (IEEE_Arith lib) data 1
                                   (@initialState float (IEEE lib) data 1)
                                 = Ok {| st_means := [v]; st_variances := [0];
                                         st_weights := [w] |})
                       by (vm_compute; reflexivity);
                     split; [reflexivity|]; split; [exact Hn|]; split; [exact E|];
                     split; [reflexivity|]; split; [reflexivity|];
                     exact (simpleGMM_collapsed lib data v w Hn E)
                 end
             end|]).
    constructor.
  - split; [vm_compute; reflexivity|].
    split; [vm_compute; reflexivity|].
    eexists. split; [vm_compute; reflexivity|].
    split; [reflexivity|]. split; reflexivity.
Qed.

(** Three times the value 3: the first pass leaves the variance 0. *)
Lemma repeated_value_fit_is_NaN_witness :
  (1 <= length [3; 3; 3])%nat
  /\ @emIteration float (IEEE_Arith RefLib.lib) [3; 3; 3] 1
       (@initialState float (IEEE RefLib.lib) [3; 3; 3] 1)
     = Ok {| st_means := [3]; st_variances := [0]; st_weights := [0.99999999974933707] |}
  /\ @simpleGMM float (IEEE RefLib.lib) [3; 3; 3] 1
     = Ok (@nanModel float (IEEE RefLib.lib) 1).
Proof.
  assert (Hn : (1 <= length [3; 3; 3])%nat) by (simpl; lia).
  assert (E : @emIteration float (IEEE_Arith RefLib.lib) [3; 3; 3] 1
                (@initialState float (IEEE RefLib.lib) [3; 3; 3] 1)
              = Ok {| st_means := [3]; st_variances := [0];
                      st_weights := [0.99999999974933707] |})
    by (vm_compute; reflexivity).
  split; [exact Hn|]. split; [exact E|].
  exact (proj1 (proj2 (repeated_value_fit_is_NaN RefLib.lib)) [3; 3; 3] 3 _ Hn E).
Defined.


Lemma nan_is_not (x : float) : PrimFloat.is_nan x = false -> [PrimFloat.nan] <> [x].
Proof.
  intros Hx E. injection E as E. rewrite <- E in Hx. vm_compute in Hx. discriminate.
Qed.

(** The claim C3 fails on [[5,5,5,5,5]]: the fit returns the all-[NaN]
    model, whose mean is not 5 and whose weight is not 1. *)
Lemma repeated_value_counterexample :
  @simpleGMM float (IEEE RefLib.lib) [5; 5; 5; 5; 5] 1
  = Ok (@nanModel float (IEEE RefLib.lib) 1)
  /\ ~ (exists m, @simpleGMM float (IEEE RefLib.lib) [5; 5; 5; 5; 5] 1 = Ok m
                  /\ means m = [5] /\ weights m = [1]).
Proof.
  assert (E : @simpleGMM float (IEEE RefLib.lib) [5; 5; 5; 5; 5] 1
              = Ok (@nanModel float (IEEE RefLib.lib) 1))
    by (vm_compute; reflexivity).
  split; [exact E|].
  intros (m & Em & Hmean & _). rewrite E in Em. injection Em as <-.
  revert Hmean. apply nan_is_not. reflexivity.
Qed.


(** The selection applies to the demo data. *)
Lemma fitGMM_selects_lowest_bic_witness :
  (5 <= length demoDataset)%nat
  /\ exists best, @fitGMM float (IEEE RefLib.lib) demoDataset = Ok (Some best).
Proof.
  assert (Hn : (5 <= length demoDataset)%nat) by (simpl; lia).
  split; [exact Hn|].
  destruct (@fitGMM_selects_lowest_bic float (IEEE RefLib.lib) (IEEE_order RefLib.lib)
              demoDataset Hn) as (g1 & g2 & g3 & best & _ & _ & _ & E & _).
  exists best. exact E.
Defined.

(** The small-sample path applies to two samples. *)
Lemma fitGMM_small_sample_witness :
  (length twoSamples < 5)%nat
  /\ exists m, @fitGMM float (IEEE RefLib.lib) twoSamples = Ok (Some m)
               /\ variances m = [PrimFloat.nan].
Proof.
  assert (Hn : (length twoSamples < 5)%nat) by (simpl; lia).
  split; [exact Hn|].
  destruct (@fitGMM_small_sample float (IEEE RefLib.lib) twoSamples Hn)
    as (m & E & _ & _ & _ & _ & _ & _ & Hvar).
  exists m. split; [exact E|]. apply Hvar. reflexivity.
Defined.

(** The BIC formula applies to a one-component model of the demo
    data. *)
Lemma calculateBIC_formula_witness :
  let m := {| nComponents := 1; means := [6]; variances := [1]; weights := [1];
              isSimple := None; bic := None; passesWeightConstraint := None |} in
  length (weights m) = length (means m)
  /\ length (variances m) = length (means m)
  /\ @calculateBIC float (IEEE RefLib.lib) demoDataset m
     = (- F64.of_Z 2
        * @logLikelihoodOf float (IEEE RefLib.lib) demoDataset
            (components (weights m) (means m) (variances m))
        + F64.of_Z (numParams (nComponents m)) * F64.log RefLib.lib (F64.of_Z 10)).
Proof.
  intros m.
  assert (Hw : length (weights m) = length (means m)) by reflexivity.
  assert (Hv : length (variances m) = length (means m)) by reflexivity.
  split; [exact Hw|]. split; [exact Hv|].
  destruct (@calculateBIC_formula float (IEEE RefLib.lib) demoDataset m Hw Hv) as (E & _).
  exact E.
Defined.

(** The bounds on the seed indices apply to the demo data and three
    components. *)
Lemma seeds_in_bounds_witness :
  (1 <= length demoDataset)%nat /\ (1 <= 3)%nat
  /\ Forall (fun idx => (idx < length demoDataset)%nat) (seedIndices (length demoDataset) 3).
Proof.
  assert (Hn : (1 <= length demoDataset)%nat) by (simpl; lia).
  assert (Hk : (1 <= 3)%nat) by lia.
  split; [exact Hn|]. split; [exact Hk|].
  destruct (@seeds_in_bounds float (IEEE RefLib.lib) demoDataset 3 Hn Hk) as (Hidx & _).
  exact Hidx.
Defined.

(** The seeding applies to three samples and three components. *)
Lemma initialization_seeds_witness :
  (1 <= length threeSamples)%nat /\ (1 <= 3)%nat
  /\ @initializeMeans float (IEEE RefLib.lib) threeSamples 3
     = map (fun j => @sort_by_comparefn float (IEEE RefLib.lib) threeSamples
                       !! ((j + 1) * 3 / (3 + 1))%nat) (seq 0 3)
  /\ @ascending float (IEEE RefLib.lib)
       (@sort_by_comparefn float (IEEE RefLib.lib) threeSamples).
Proof.
  assert (Hn : (1 <= length threeSamples)%nat) by (simpl; lia).
  assert (Hk : (1 <= 3)%nat) by lia.
  split; [exact Hn|]. split; [exact Hk|].
  destruct (@initialization_seeds float (IEEE RefLib.lib) (IEEE_order RefLib.lib)
              threeSamples 3 Hn Hk) as (_ & Hasc & _ & _ & H3 & _).
  split; [apply H3; lia|].
  apply Hasc. repeat constructor.
Defined.

End OnBinary64.

(** ** The sum of the weights *)

Section WeightsSum.
Local Open Scope R_scope.



End WeightsSum.

(** * Further properties of the demos *)

(** ** Equality on binary64 numbers *)

#[export] Instance IEEE_eq (lib : MathApprox) : @NumEq float (IEEE lib).
Proof.
  split; simpl.
  - reflexivity.
  - reflexivity.
  - reflexivity.
  - intros x. unfold PrimFloat.is_nan. destruct (PrimFloat.eqb x x); simpl; congruence.
  - intros x y Hy. apply is_nan_Prim2SF in Hy.
    rewrite FloatAxioms.eqb_spec, Hy. unfold SFeqb, SFcompare.
    destruct (Prim2SF x); reflexivity.
  - intros x Hx. rewrite FloatAxioms.ltb_spec, FloatAxioms.eqb_spec.
    replace (Prim2SF neg_infinity) with (S754_infinity true) by (vm_compute; reflexivity).
    assert (Hn : Prim2SF x <> S754_nan)
      by (intros E; apply is_nan_Prim2SF in E; congruence).
    unfold SFltb, SFeqb, SFcompare.
    destruct (Prim2SF x) as [[]|[]| |[] m e]; simpl; congruence.
  - intros x y z. rewrite FloatAxioms.eqb_spec, !FloatAxioms.ltb_spec.
    unfold SFeqb, SFltb, SFcompare.
    destruct (Prim2SF x) as [[]|[]| |[] mx ex], (Prim2SF y) as [[]|[]| |[] my ey];
      simpl; try discriminate; auto; intros Hxy;
      destruct (Prim2SF z) as [[]|[]| |[] mz ez]; simpl; auto;
      destruct (Z.compare_spec ex ey); try discriminate; subst;
      change (Pos.compare_cont Eq mx my) with (Pos.compare mx my) in Hxy;
      destruct (Pos.compare_spec mx my); try discriminate; subst; reflexivity.
Qed.

(** ** [Math.max] and [indexOf] *)

Section MaxIndex.
Context {num : Type} `{NumOrder num} `{!NumEq num}.
Local Open Scope num_scope.

Lemma maxFold_NaN (l : list num) (h : num) :
  isNaN h = true -> isNaN (fold_left maxStep l h) = true.
Proof.
  revert h. induction l as [|x l IH]; intros h Hh; simpl; [exact Hh|].
  apply IH. unfold maxStep. rewrite Hh. exact Hh.
Qed.

Lemma maxFold_has_NaN (l : list num) (h : num) :
  Exists (fun x => isNaN x = true) l -> isNaN (fold_left maxStep l h) = true.
Proof.
  intros Hex. revert h. induction Hex as [x l Hx|x l Hex IH]; intros h; simpl.
  - apply maxFold_NaN. unfold maxStep.
    destruct (isNaN h) eqn:Eh; [exact Eh|]. rewrite Hx. apply isNaN_NaN.
  - apply IH.
Qed.

Lemma maxFold_no_NaN (l : list num) :
  Forall (fun x => isNaN x = false) l ->
  forall h, isNaN h = false ->
    let r := fold_left maxStep l h in
    isNaN r = false
    /\ (forall x, In x l -> (r <? x) = false)
    /\ ((h <? r) = true \/ r = h)
    /\ (In r l \/ (r = h /\ forall x, In x l -> (h <? x) = false)).
Proof.
  induction 1 as [|x l Hx Hl IH]; intros h Hh; simpl.
  - split; [exact Hh|]. split; [intros x []|]. split; [right; reflexivity|].
    right. split; [reflexivity|]. intros x [].
  - assert (Es : maxStep h x = if h <? x then x else h)
      by (unfold maxStep; rewrite Hh, Hx; reflexivity).
    rewrite Es. clear Es. destruct (h <? x) eqn:Ehx.
    + destruct (IH x Hx) as (Hr & Hub & Hge & Hin).
      split; [exact Hr|]. split; [|split].
      * intros y [<-|Hy]; [|apply Hub, Hy].
        destruct Hge as [Hlt| ->]; [|apply nlt_irrefl].
        destruct (fold_left maxStep l x <? x) eqn:E; [|reflexivity].
        pose proof (nlt_trans _ _ _ Hlt E) as Hxx.
        rewrite nlt_irrefl in Hxx. discriminate.
      * left. destruct Hge as [Hlt| ->]; [exact (nlt_trans _ _ _ Ehx Hlt) | exact Ehx].
      * left. destruct Hin as [Hin|(-> & _)]; [right; exact Hin | left; reflexivity].
    + destruct (IH h Hh) as (Hr & Hub & Hge & Hin).
      split; [exact Hr|]. split; [|split; [exact Hge|]].
      * intros y [<-|Hy]; [|apply Hub, Hy].
        destruct Hge as [Hlt| ->]; [|exact Ehx].
        destruct (fold_left maxStep l h <? x) eqn:E; [|reflexivity].
        rewrite (nlt_trans _ _ _ Hlt E) in Ehx. discriminate.
      * destruct Hin as [Hin|(-> & Hall)]; [left; right; exact Hin|].
        right. split; [reflexivity|]. intros y [<-|Hy]; [exact Ehx | apply Hall, Hy].
Qed.

Lemma Math_max_fold (l : list num) : Math_max l = fold_left maxStep l neg_Infinity.
Proof. reflexivity. Qed.

Lemma indexOf_from_None (l : list num) (v : num) :
  (forall w, In w l -> (w === v) = false) -> forall s, indexOf_from l v s = None.
Proof.
  induction l as [|x l IH]; intros Hall s; simpl; [reflexivity|].
  rewrite (Hall x) by (left; reflexivity). apply IH. intros w Hw. apply Hall. right. exact Hw.
Qed.

Lemma indexOf_from_Some (l : list num) (v : num) :
  (exists w, In w l /\ (w === v) = true) ->
  forall s, exists d, indexOf_from l v s = Some d /\ (s <= d < s + length l)%nat.
Proof.
  induction l as [|x l IH]; intros (w & Hw & Ew) s; [destruct Hw|]. simpl.
  destruct (x === v) eqn:E.
  - exists s. split; [reflexivity | lia].
  - destruct Hw as [->|Hw]; [congruence|].
    destruct (IH (ex_intro _ w (conj Hw Ew)) (S s)) as (d & Ed & Hd).
    exists d. split; [exact Ed | lia].
Qed.

(** [a.indexOf(Math.max(...a))] is [-1] exactly when [a] is empty or
    holds a [NaN]; otherwise it is an index of [a]. *)
Lemma indexOf_max (l : list num) :
  (l = [] \/ Exists (fun x => isNaN x = true) l -> indexOf l (Math_max l) = None)
  /\ (l <> [] -> Forall (fun x => isNaN x = false) l ->
      exists d, indexOf l (Math_max l) = Some d /\ (d < length l)%nat).
Proof.
  split.
  - intros [->|Hex]; [reflexivity|].
    apply indexOf_from_None. intros w _. apply nseq_NaN.
    rewrite Math_max_fold. apply maxFold_has_NaN, Hex.
  - intros Hne Hall.
    destruct (maxFold_no_NaN l Hall neg_Infinity isNaN_neg_Infinity)
      as (Hr & Hub & _ & Hin).
    destruct (indexOf_from_Some l (Math_max l)) with (s := 0%nat) as (d & Ed & Hd).
    + rewrite Math_max_fold. destruct Hin as [Hin|(Er & Hleast)].
      * exists (fold_left maxStep l neg_Infinity). split; [exact Hin|].
        apply nseq_refl, Hr.
      * destruct l as [|x l]; [congruence|]. exists x. split; [left; reflexivity|].
        rewrite Er. apply neg_Infinity_least.
        -- inversion Hall; assumption.
        -- apply Hleast. left; reflexivity.
    + exists d. split; [exact Ed | lia].
Qed.

End MaxIndex.

(** ** The summary shown by [displayResults] *)

Section SummaryFacts.
Context {num : Type} `{NumOrder num} `{!NumEq num}.
Local Open Scope num_scope.

Lemma nan_dichotomy (l : list num) :
  Forall (fun x => isNaN x = false) l \/ Exists (fun x => isNaN x = true) l.
Proof.
  induction l as [|x l [IH|IH]].
  - left. constructor.
  - destruct (isNaN x) eqn:E.
    + right. apply Exists_cons_hd. exact E.
    + left. constructor; assumption.
  - right. apply Exists_cons_tl. exact IH.
Qed.

Lemma nan_exclusive (l : list num) :
  Forall (fun x => isNaN x = false) l -> Exists (fun x => isNaN x = true) l -> False.
Proof.
  intros Hall Hex. apply List.Exists_exists in Hex. destruct Hex as (x & Hx & Ex).
  rewrite List.Forall_forall in Hall. rewrite (Hall x Hx) in Ex. discriminate.
Qed.

(** A model with aligned arrays and weights that are numbers, at least
    one, is displayed; a model without weights or with a [NaN] weight
    is not. *)
Lemma displayResults_shown (model : Model num) :
  length (means model) = length (weights model) ->
  weights model <> [] ->
  Forall (fun w => isNaN w = false) (weights model) ->
  exists s, displayResults model = Ok s.
Proof.
  intros Hlen Hne Hall. unfold displayResults. cbv zeta.
  destruct (indexOf_max (weights model)) as [_ Hsome].
  destruct (Hsome Hne Hall) as (d & -> & Hd). cbn [at_index].
  destruct (lookup_lt_is_Some_2 (means model) d) as (mu & ->); [lia|].
  eexists. reflexivity.
Qed.

Lemma displayResults_not_shown (model : Model num) :
  weights model = [] \/ Exists (fun w => isNaN w = true) (weights model) ->
  displayResults model = Throw_TypeError.
Proof.
  intros Hbad. unfold displayResults. cbv zeta.
  destruct (indexOf_max (weights model)) as [Hnone _].
  rewrite (Hnone Hbad). reflexivity.
Qed.

(** X1.  [displayResults] throws a [TypeError] (at
    [dominant.mean.toFixed]) exactly when the model has no weight or
    one of its weights is [NaN]; this for every model with as many
    means as weights. *)
Theorem displayResults_throws_iff (model : Model num) :
  length (means model) = length (weights model) ->
  (displayResults model = Throw_TypeError
   <-> weights model = [] \/ Exists (fun w => isNaN w = true) (weights model)).
Proof.
  intros Hlen. split.
  - intros Hthrow.
    destruct (nan_dichotomy (weights model)) as [Hall|Hex]; [|right; exact Hex].
    assert (Hcases : weights model = [] \/ weights model <> [])
      by (destruct (weights model); [left; reflexivity | right; discriminate]).
    destruct Hcases as [Hnil|Hne]; [left; exact Hnil|].
    destruct (displayResults_shown model Hlen Hne Hall) as (s & Es). congruence.
  - apply displayResults_not_shown.
Qed.

(** X2.  When [displayResults] shows a summary, the setpoint is the
    mean of the first component whose weight equals the largest
    weight; that weight is a number that no other weight exceeds, the
    percentage shown is 100 times it, and the share of outliers is
    shown only for more than one component. *)
Theorem displayResults_dominant (model : Model num) (s : Summary num) :
  displayResults model = Ok s ->
  exists d w,
    first_index_of (weights model) (Math_max (weights model)) d
    /\ weights model !! d = Some w
    /\ means model !! d = Some (sm_setpoint s)
    /\ isNaN w = false
    /\ (forall x, In x (weights model) -> (w <? x) = false)
    /\ sm_components s = nComponents model
    /\ sm_stdDev s = Math_sqrt (toNumber (variances model !! d))
    /\ sm_percent s = w * of_Z 100
    /\ sm_outlierPct s
       = if (1 <? nComponents model)%nat then Some (of_Z 100 - w * of_Z 100) else None.
Proof.
  unfold displayResults. cbv zeta. intros Hs.
  destruct (indexOf (weights model) (Math_max (weights model))) as [d|] eqn:Ed;
    [|discriminate].
  cbn [at_index] in Hs.
  destruct (means model !! d) as [mu|] eqn:Emu; [|discriminate].
  injection Hs as <-. cbn [sm_setpoint sm_components sm_stdDev sm_percent sm_outlierPct].
  pose proof (indexOf_first _ _ _ Ed) as Hfirst.
  destruct Hfirst as [(w & Ew & Eq) Hbefore].
  destruct (indexOf_max (weights model)) as [Hnone _].
  destruct (nan_dichotomy (weights model)) as [Hall|Hex];
    [|rewrite (Hnone (or_intror Hex)) in Ed; discriminate].
  destruct (maxFold_no_NaN _ Hall neg_Infinity isNaN_neg_Infinity) as (_ & Hub & _ & _).
  exists d, w. rewrite Ew. cbn [toNumber].
  split; [split; [exists w; auto | exact Hbefore]|].
  split; [reflexivity|]. split; [exact Emu|].
  split; [rewrite List.Forall_forall in Hall; apply Hall;
          eapply list_elem_of_In, list_elem_of_lookup_2, Ew|].
  split; [intros x Hx; rewrite (nlt_nseq _ _ x Eq); apply Hub, Hx|].
  repeat (split; [reflexivity|]). reflexivity.
Qed.

End SummaryFacts.

(** ** The traces of the time series *)

Section TimeSeriesFacts.
Context {num : Type} `{JsNumber num}.
Local Open Scope num_scope.

Local Abbreviation triple := (num * num * num)%type.
Local Abbreviation up := (fun t : triple => snd t).
Local Abbreviation lo := (fun t : triple => snd (fst t)).
Local Abbreviation mid := (fun t : triple => fst (fst t)).
Local Abbreviation bandsOf ts :=
  {| upperCI := map (option_map up) ts;
     lowerCI := map (option_map lo) ts;
     meanLine := map (option_map mid) ts |}.

(** The three arrays of the loop are filled together. *)
Lemma plotTimeSeries_triples (data : list num) :
  exists ts : list (option triple),
    length ts = length data
    /\ plotTimeSeries data = Ok (bandsOf ts)
    /\ forall i t, ts !! i = Some (Some t) -> (2 <= i)%nat.
Proof.
  unfold plotTimeSeries.
  assert (Hloop : forall p, (p <= length data)%nat ->
            exists ts : list (option triple),
              length ts = p
              /\ for_each (seq 0 p) {| upperCI := []; lowerCI := []; meanLine := [] |}
                          (plotTimeSeries_step data) = Ok (bandsOf ts)
              /\ forall i t, ts !! i = Some (Some t) -> (2 <= i)%nat).
  { induction p as [|p IH]; intros Hp.
    - exists []. split; [reflexivity|]. split; [reflexivity|]. intros i t Hi.
      rewrite lookup_nil in Hi. discriminate.
    - destruct IH as (ts & Hlen & E & Hlow); [lia|].
      rewrite seq_S, for_each_app, E. cbn [exc_bind for_each Nat.add].
      destruct (plotTimeSeries_step_push data (bandsOf ts) p) as (t & -> & H0 & _).
      cbn [exc_bind]. exists (ts ++ [t]).
      split; [rewrite length_app, Hlen; simpl; lia|]. split.
      + unfold pushBands; cbn [upperCI lowerCI meanLine]. rewrite !map_app. reflexivity.
      + intros i t' Hi. destruct (Nat.lt_ge_cases i (length ts)) as [Hlt|Hge].
        * rewrite lookup_app_l in Hi by exact Hlt. exact (Hlow i t' Hi).
        * rewrite lookup_app_r in Hi by exact Hge.
          destruct (i - length ts)%nat as [|j] eqn:Ej; [|destruct j; discriminate].
          simpl in Hi. injection Hi as Et.
          destruct (Nat.lt_ge_cases p 2) as [Hp2|Hp2]; [|lia].
          rewrite (H0 Hp2) in Et. discriminate. }
  apply Hloop. lia.
Qed.

Lemma lookup_map {A B} (f : A -> B) (l : list A) (i : nat) :
  map f l !! i = option_map f (l !! i).
Proof.
  revert i. induction l as [|x l IH]; intros [|i]; simpl; auto.
Qed.

Lemma pointAt_triples (ts : list (option triple)) (i : nat) :
  pointAt (bandsOf ts) i = match ts !! i with Some (Some t) => Some t | _ => None end.
Proof.
  unfold pointAt. cbn [upperCI lowerCI meanLine]. rewrite !lookup_map.
  destruct (ts !! i) as [[[[m l] u]|]|]; reflexivity.
Qed.

(** The measurements kept for a trace, and the values kept, in terms
    of the triples. *)
Lemma validIndicesOf_triples (f : triple -> num) (ts : list (option triple)) :
  forall idxs, length idxs = length ts ->
    validIndicesOf (map (option_map f) ts) idxs
    = map fst (omap (fun it => option_map (pair (fst it)) (snd it)) (combine idxs ts)).
Proof.
  unfold validIndicesOf.
  induction ts as [|t ts IH]; intros [|idx idxs] Hlen; try discriminate; [reflexivity|].
  rewrite imap_cons. cbn [map option_map combine].
  specialize (IH idxs ltac:(simpl in Hlen; lia)).
  destruct t as [t|]; cbn [lookup list_lookup notNull option_map omap list_omap fst snd map];
    [f_equal|]; exact IH.
Qed.

Lemma validValuesOf_triples (f : triple -> num) (ts : list (option triple)) :
  forall idxs : list nat, length idxs = length ts ->
    validValuesOf (map (option_map f) ts)
    = map (fun q => Some (f (snd q)))
          (omap (fun it => option_map (pair (fst it)) (snd it)) (combine idxs ts)).
Proof.
  unfold validValuesOf.
  induction ts as [|t ts IH]; intros [|idx idxs] Hlen; try discriminate; [reflexivity|].
  specialize (IH idxs ltac:(simpl in Hlen; lia)).
  destruct t as [t|]; cbn [map option_map combine List.filter notNull omap list_omap fst snd];
    [f_equal|]; exact IH.
Qed.

Lemma plottedPoints_triples (ts : list (option triple)) :
  plottedPoints (bandsOf ts)
  = omap (fun it => option_map (pair (fst it)) (snd it)) (combine (seq 1 (length ts)) ts).
Proof.
  unfold plottedPoints. cbn [meanLine]. rewrite length_map.
  assert (Hgen : forall rest pre,
            omap (fun i => option_map (pair (i + 1)%nat)
                             (pointAt (bandsOf (pre ++ rest)) i))
                 (seq (length pre) (length rest))
            = omap (fun it => option_map (pair (fst it)) (snd it))
                   (combine (seq (S (length pre)) (length rest)) rest)).
  { induction rest as [|t rest IH]; intros pre; [reflexivity|].
    specialize (IH (pre ++ [t])). rewrite <- app_assoc, length_app in IH.
    cbn [length Nat.add app] in IH. rewrite Nat.add_1_r in IH.
    cbn [length seq combine omap list_omap fst snd]. rewrite IH.
    rewrite pointAt_triples, lookup_app_r, Nat.sub_diag by lia. cbn [lookup list_lookup].
    rewrite Nat.add_1_r. destruct t; reflexivity. }
  exact (Hgen ts []).
Qed.

Lemma In_combine_seq {A} (l : list A) (k x : nat) (a : A) :
  In (x, a) (combine (seq k (length l)) l) -> exists i, x = (k + i)%nat /\ l !! i = Some a.
Proof.
  revert k. induction l as [|y l IH]; intros k; simpl; [intros []|].
  intros [Eq|Hin].
  - injection Eq as <- <-. exists 0%nat. split; [lia | reflexivity].
  - destruct (IH (S k) Hin) as (i & -> & Ei). exists (S i). split; [lia | exact Ei].
Qed.

(** X3.  The time series is drawn from one list of points: the
    measurements (numbered from 1) that have a band.  The mean line
    joins their means; the shaded area runs along their upper bounds
    and back along their lower bounds, so its two coordinate arrays
    match point for point; both traces are left out together when no
    measurement has a band.  No band is drawn before the third
    measurement, and the measured values are drawn against 1..n. *)
Theorem timeSeries_traces_match (data : list num) :
  exists b,
    plotTimeSeries data = Ok b
    /\ let pts := plottedPoints b in
       let plot := timeSeriesTraces data b in
       data_trace plot = (seq 1 (length data), data)
       /\ mean_trace plot
          = (if (0 <? length pts)%nat
             then Some (map fst pts, map (fun q => Some (mid (snd q))) pts)
             else None)
       /\ ci_trace plot
          = (if (0 <? length pts)%nat
             then Some (map fst pts ++ rev (map fst pts),
                        map (fun q => Some (up (snd q))) pts
                        ++ rev (map (fun q => Some (lo (snd q))) pts))
             else None)
       /\ Forall (fun q => (3 <= fst q <= length data)%nat) pts.
Proof.
  destruct (plotTimeSeries_triples data) as (ts & Hlen & E & Hlow).
  exists (bandsOf ts). split; [exact E|]. cbv zeta.
  assert (Hidx : map (fun i => (i + 1)%nat) (seq 0 (length data)) = seq 1 (length data)).
  { rewrite <- seq_shift. apply map_ext. intros i. lia. }
  assert (Hl : length (seq 1 (length data)) = length ts) by (rewrite length_seq; lia).
  unfold timeSeriesTraces. cbn [upperCI lowerCI meanLine data_trace mean_trace ci_trace].
  rewrite Hidx.
  rewrite (validIndicesOf_triples up ts _ Hl), (validIndicesOf_triples mid ts _ Hl).
  rewrite (validValuesOf_triples up ts _ Hl), (validValuesOf_triples lo ts _ Hl),
    (validValuesOf_triples mid ts _ Hl).
  rewrite plottedPoints_triples, Hlen, !length_map.
  split; [reflexivity|]. split; [reflexivity|]. split; [reflexivity|].
  apply List.Forall_forall. intros [x t] Hin.
  apply list_elem_of_In, list_elem_of_omap in Hin. destruct Hin as ([x' t'] & Hin & Eq).
  apply list_elem_of_In in Hin. cbn [fst snd] in Eq.
  destruct t' as [t'|]; [|discriminate]. injection Eq as <- <-.
  rewrite <- Hlen in Hin. destruct (In_combine_seq _ _ _ _ Hin) as (i & -> & Ei).
  pose proof (Hlow i t' Ei) as Hi2.
  apply lookup_lt_Some in Ei. cbn [fst]. lia.
Qed.

End TimeSeriesFacts.

(** ** What a click on the fit button leaves behind *)

Section RunFacts.
Context {num : Type} `{NumOrder num} `{!NumEq num}.
Local Open Scope num_scope.

(** The selected model has aligned arrays and at least one weight. *)
Lemma fitGMM_shape (data : list num) :
  exists best,
    fitGMM data = Ok (Some best)
    /\ length (means best) = length (weights best)
    /\ weights best <> []
    /\ ((length data < 5)%nat -> weights best = [of_Z 1]).
Proof.
  unfold fitGMM. destruct (Nat.ltb_spec (length data) 5) as [Hs|Hl].
  - exists (simpleMeanStd data). split; [reflexivity|]. split; [reflexivity|].
    split; [discriminate | reflexivity].
  - destruct (scoring_loop data) as (g1 & g2 & g3 & E1 & E2 & E3 & ->).
    cbn [exc_bind].
    destruct (selectBest_Ok [scored data g1; scored data g2; scored data g3])
      as (best & E & Hin); [congruence|].
    exists best. split; [exact E|].
    assert (Hg : exists k g, (1 <= k)%nat /\ simpleGMM data k = Ok g /\ best = scored data g).
    { destruct Hin as [<-|[<-|[<-|[]]]];
        [exists 1%nat, g1 | exists 2%nat, g2 | exists 3%nat, g3]; auto. }
    destruct Hg as (k & g & Hk & Eg & ->).
    destruct (simpleGMM_Ok data k) as (g' & Eg' & _ & Hm & _ & Hw & _).
    assert (g' = g) by congruence. subst g'. cbn [scored means weights].
    split; [congruence|]. split; [|intros; lia].
    intros Ew. rewrite Ew in Hw. simpl in Hw. lia.
Qed.

(** X4.  The timer of [fitGMM] always stores the selected model in
    [fittedModel].  It then ends in the message "GMM fitting failed"
    exactly when a weight of that model is [NaN]; otherwise it shows
    the time series, the density plot and the summary of that model.
    Below five measurements it never fails. *)
Theorem fitGMM_run_outcome (data : list num) :
  exists best,
    fitGMM data = Ok (Some best)
    /\ fst (fitGMM_run data) = Some (Some best)
    /\ (snd (fitGMM_run data) = FittingFailed
        <-> Exists (fun w => isNaN w = true) (weights best))
    /\ (forall timeSeries density summary,
          snd (fitGMM_run data) = Displayed timeSeries density summary ->
          (exists b, plotTimeSeries data = Ok b /\ timeSeries = timeSeriesTraces data b)
          /\ density = plotResults data best
          /\ displayResults best = Ok summary)
    /\ ((length data < 5)%nat -> snd (fitGMM_run data) <> FittingFailed).
Proof.
  destruct (fitGMM_shape data) as (best & E & Hlen & Hne & Hsmall).
  destruct (plotTimeSeries_triples data) as (ts & _ & Eb & _).
  exists best. split; [exact E|].
  unfold fitGMM_run, fitGMM_try. rewrite E, Eb. cbn [exc_bind fst snd].
  assert (Hiff : displayResults best = Throw_TypeError
                 <-> Exists (fun w => isNaN w = true) (weights best)).
  { split.
    - intros Hthrow. destruct (nan_dichotomy (weights best)) as [Hall|Hex]; [|exact Hex].
      destruct (displayResults_shown best Hlen Hne Hall) as (s & Es). congruence.
    - intros Hex. apply displayResults_not_shown. right. exact Hex. }
  destruct (displayResults best) as [summary|] eqn:Ed; cbn [exc_bind fst snd].
  - split; [reflexivity|]. split.
    + split; [discriminate|]. intros Hex. apply Hiff in Hex. discriminate.
    + split; [|discriminate].
      intros timeSeries density summary' Eq. injection Eq as <- <- <-.
      split; [eexists; split; reflexivity|]. split; reflexivity.
  - split; [reflexivity|]. split.
    + split; [intros _; apply Hiff; reflexivity | reflexivity].
    + split; [discriminate|].
      intros Hn _. destruct Hiff as [Hex _]. specialize (Hex eq_refl).
      rewrite (Hsmall Hn) in Hex. apply List.Exists_exists in Hex.
      destruct Hex as (w & [<-|[]] & Ew). rewrite isNaN_one in Ew. discriminate.
Qed.

End RunFacts.

(** ** The density plot *)

Section DensityPlot.
Context {num : Type} `{JsNumber num}.
Local Open Scope num_scope.

Lemma fold_left_ext_in {A B} (f g : A -> B -> A) (l : list B) :
  (forall s x, In x l -> f s x = g s x) -> forall a, fold_left f l a = fold_left g l a.
Proof.
  induction l as [|x l IH]; intros Hfg a; simpl; [reflexivity|].
  rewrite (Hfg a x) by (left; reflexivity). apply IH.
  intros s y Hy. apply Hfg. right. exact Hy.
Qed.

(** A [reduce] whose callback reads the index is a loop over the
    indices. *)
Lemma reduce_indexed_seq {B} (f : B -> num -> nat -> B) (a : list num) (init : B) :
  reduce_indexed f a init = fold_left (fun s j => f s (get a j) j) (seq 0 (length a)) init.
Proof.
  unfold reduce_indexed. revert init.
  induction a as [|x a IH] using rev_ind; intros init; [reflexivity|].
  rewrite imap_app, fold_left_app, length_app, Nat.add_1_r, seq_S, fold_left_app, IH.
  cbn [imap fold_left fst snd Nat.add]. rewrite Nat.add_0_r.
  rewrite (fold_left_ext_in (fun s j => f s (get (a ++ [x]) j) j)
                            (fun s j => f s (get a j) j)).
  - unfold get at 3. rewrite lookup_app_r, Nat.sub_diag by lia. reflexivity.
  - intros s j Hj. apply in_seq in Hj. unfold get. rewrite lookup_app_l by lia. reflexivity.
Qed.

Lemma imap_seq_get {B} (f : nat -> num -> B) (a : list num) :
  imap f a = map (fun i => f i (get a i)) (seq 0 (length a)).
Proof.
  induction a as [|x a IH] using rev_ind; [reflexivity|].
  rewrite imap_app, length_app, Nat.add_1_r, seq_S, map_app, IH.
  cbn [imap map Nat.add]. rewrite Nat.add_0_r. f_equal.
  - apply map_ext_in. intros i Hi. apply in_seq in Hi. unfold get.
    rewrite lookup_app_l by lia. reflexivity.
  - unfold get. rewrite lookup_app_r, Nat.sub_diag by lia. reflexivity.
Qed.

Lemma length_generateRange (min max : num) (steps : nat) :
  length (generateRange min max steps) = S steps.
Proof. unfold generateRange. rewrite length_map, length_seq. lia. Qed.

(** X5.  The density plot holds the rug of the data, one curve per
    component and the total, in this order; all curves are sampled at
    the same 201 abscissas.  The total is the mixture density that the
    log-likelihood evaluates, and at every abscissa it is the sum,
    taken from 0 in the order of the components, of the values of the
    component curves. *)
Theorem plotResults_total_is_mixture (data : list num) (model : Model num) :
  exists xRange curves total,
    plotResults data model
    = [{| trace_x := data; trace_y := map (fun _ => of_Z 0) data |}]
      ++ curves ++ [{| trace_x := xRange; trace_y := total |}]
    /\ length xRange = 201%nat
    /\ length curves = length (means model)
    /\ Forall (fun c => trace_x c = xRange /\ length (trace_y c) = 201%nat) curves
    /\ total = map (fun x => mixtureSum x (means model) (variances model) (weights model))
                   xRange
    /\ forall j, (j < 201)%nat ->
         get total j = sum_from_0 (map (fun c => get (trace_y c) j) curves).
Proof.
  unfold plotResults. cbv zeta.
  set (xRange := generateRange _ _ 200).
  assert (Hx : length xRange = 201%nat) by apply length_generateRange.
  assert (Htotal : totalDensity model xRange
                   = map (fun x => mixtureSum x (means model) (variances model)
                                     (weights model)) xRange).
  { unfold totalDensity, mixtureSum. apply map_ext. intros x.
    apply (reduce_indexed_seq
             (fun sum mean i =>
                sum + get (weights model) i
                      * gaussianPDF x mean (Math_sqrt (get (variances model) i)))). }
  eexists xRange, _, _. split; [reflexivity|].
  split; [exact Hx|]. split; [apply length_imap|].
  split; [|split; [exact Htotal|]].
  - apply List.Forall_forall. intros c Hc.
    apply list_elem_of_In, elem_of_lookup_imap_1 in Hc. destruct Hc as (i & mean & -> & _).
    cbn [trace_x trace_y]. split; [reflexivity|].
    unfold componentCurve. rewrite length_map. exact Hx.
  - intros j Hj. rewrite Htotal.
    destruct (lookup_lt_is_Some_2 xRange j) as (x & Ex); [lia|].
    unfold get at 1. rewrite lookup_map, Ex. cbn [option_map toNumber].
    unfold mixtureSum, sum_from_0.
    rewrite (fold_left_add_map
               (fun i => get (weights model) i
                         * gaussianPDF x (get (means model) i)
                             (Math_sqrt (get (variances model) i)))).
    f_equal. rewrite imap_seq_get, map_map. apply map_ext. intros i.
    cbn [trace_y]. unfold componentCurve, get at 4.
    rewrite lookup_map, Ex. reflexivity.
Qed.

End DensityPlot.

(** ** The abscissas in exact arithmetic *)

Section RangeExact.
Local Open Scope R_scope.

Lemma generateRange_lookup (min max : R) (steps i : nat) :
  (i <= steps)%nat ->
  @generateRange R Exact.RArith min max steps !! i = Some (min + INR i * ((max - min) / INR steps)).
Proof.
  intros Hi. unfold generateRange. rewrite lookup_map, lookup_seq_lt by lia.
  cbn [option_map Nat.add]. unfold of_nat; cbn [of_Z nadd nsub nmul ndiv Exact.RArith].
  rewrite <- !INR_IZR_INZ. reflexivity.
Qed.

(** X6.  Computed exactly, [generateRange(min, max, steps)] for one
    step or more is the even subdivision of the interval: [steps + 1]
    abscissas, the first [min], the last [max], neighbours
    [(max - min) / steps] apart, and all within the interval when
    [min <= max]. *)
Theorem generateRange_exact (min max : R) (steps : nat) :
  (0 < steps)%nat ->
  length (@generateRange R Exact.RArith min max steps) = S steps
  /\ @generateRange R Exact.RArith min max steps !! 0%nat = Some min
  /\ @generateRange R Exact.RArith min max steps !! steps = Some max
  /\ (forall i x y, @generateRange R Exact.RArith min max steps !! i = Some x ->
                    @generateRange R Exact.RArith min max steps !! S i = Some y ->
                    y - x = (max - min) / INR steps)
  /\ (min <= max -> forall x, In x (@generateRange R Exact.RArith min max steps) -> min <= x <= max).
Proof.
  intros Hs.
  assert (Hpos : 0 < INR steps) by (apply lt_0_INR; exact Hs).
  assert (Hlen : length (@generateRange R Exact.RArith min max steps) = S steps)
    by (unfold generateRange; rewrite length_map, length_seq; lia).
  split; [exact Hlen|]. split; [|split; [|split]].
  - rewrite generateRange_lookup by lia. simpl. f_equal. lra.
  - rewrite generateRange_lookup by lia. f_equal. field. lra.
  - intros i x y Ex Ey.
    assert (Hi : (S i <= steps)%nat) by (apply lookup_lt_Some in Ey; lia).
    rewrite generateRange_lookup in Ex, Ey by lia.
    assert (Hx : x = min + INR i * ((max - min) / INR steps)) by congruence.
    assert (Hy : y = min + INR (S i) * ((max - min) / INR steps)) by congruence.
    rewrite Hx, Hy, S_INR. lra.
  - intros Hle x Hx. apply list_elem_of_In, list_elem_of_lookup in Hx.
    destruct Hx as (i & Ex).
    assert (Hi : (i <= steps)%nat) by (apply lookup_lt_Some in Ex; lia).
    rewrite generateRange_lookup in Ex by lia.
    assert (Hx : x = min + INR i * ((max - min) / INR steps)) by congruence.
    rewrite Hx. clear Ex Hx.
    assert (H0 : 0 <= INR i) by apply pos_INR.
    assert (H1 : INR i <= INR steps) by (apply le_INR; exact Hi).
    assert (Hq : 0 <= INR i / INR steps <= 1).
    { split.
      - apply Rmult_le_pos; [exact H0 | left; apply Rinv_0_lt_compat, Hpos].
      - apply Rmult_le_reg_r with (INR steps); [exact Hpos|].
        unfold Rdiv. rewrite Rmult_assoc, Rinv_l by lra. lra. }
    replace (INR i * ((max - min) / INR steps)) with ((INR i / INR steps) * (max - min))
      by (field; lra).
    split; nra.
Qed.

End RangeExact.

(** ** Later measurements and the band already drawn *)

Section PrefixStability.
Context {num : Type} `{JsNumber num}.
Local Open Scope num_scope.

Lemma for_each_ext_in {A S} (f g : S -> A -> exc S) (xs : list A) :
  (forall s x, In x xs -> f s x = g s x) -> forall s, for_each xs s f = for_each xs s g.
Proof.
  induction xs as [|x xs IH]; intros Hfg s; [reflexivity|].
  cbn [for_each]. rewrite (Hfg s x) by (left; reflexivity).
  destruct (g s x) as [s'|]; cbn [exc_bind]; [|reflexivity].
  apply IH. intros s0 y Hy. apply Hfg. right. exact Hy.
Qed.

Lemma plotTimeSeries_step_prefix (data more : list num) (b : Bands num) (i : nat) :
  (i < length data)%nat ->
  plotTimeSeries_step (data ++ more) b i = plotTimeSeries_step data b i.
Proof.
  intros Hi. unfold plotTimeSeries_step, slice0.
  rewrite take_app_le by lia. reflexivity.
Qed.

Lemma take_snoc_prefix {A} (l l' : list A) (x : A) :
  take (length l + 1) l' = l ++ [x] -> take (length l) l' = l.
Proof.
  intros E.
  assert (Et : take (length l) (take (length l + 1) l') = take (length l) l')
    by (rewrite take_take; f_equal; lia).
  rewrite <- Et, E. apply take_app_length.
Qed.

(** The arrays only grow: a run of the loop body keeps what the arrays
    held. *)
Lemma plotTimeSeries_loop_grows (data : list num) (idxs : list nat) :
  forall b b', for_each idxs b (plotTimeSeries_step data) = Ok b' ->
    take (length (upperCI b)) (upperCI b') = upperCI b
    /\ take (length (lowerCI b)) (lowerCI b') = lowerCI b
    /\ take (length (meanLine b)) (meanLine b') = meanLine b.
Proof.
  induction idxs as [|i idxs IH]; intros b b' E.
  - injection E as <-. rewrite !firstn_all. auto.
  - cbn [for_each] in E.
    destruct (plotTimeSeries_step_push data b i) as (t & Es & _).
    rewrite Es in E. cbn [exc_bind] in E.
    destruct (IH _ _ E) as (Hu & Hl & Hm).
    unfold pushBands in Hu, Hl, Hm. cbn [upperCI lowerCI meanLine] in Hu, Hl, Hm.
    rewrite length_app in Hu, Hl, Hm. cbn [length] in Hu, Hl, Hm.
    split; [|split]; eapply take_snoc_prefix; eassumption.
Qed.

(** X7.  Measurements added at the end do not change what the time
    series shows for the earlier ones: the band computed for the
    longer series starts with the band computed for the shorter one,
    so the point at each earlier index is the same. *)
Theorem plotTimeSeries_prefix_stable (data more : list num) :
  exists b b',
    plotTimeSeries data = Ok b
    /\ plotTimeSeries (data ++ more) = Ok b'
    /\ take (length data) (upperCI b') = upperCI b
    /\ take (length data) (lowerCI b') = lowerCI b
    /\ take (length data) (meanLine b') = meanLine b
    /\ forall i, (i < length data)%nat -> pointAt b' i = pointAt b i.
Proof.
  destruct (plotTimeSeries_triples data) as (ts & Hlen & E & _).
  destruct (plotTimeSeries_triples (data ++ more)) as (ts' & Hlen' & E' & _).
  eexists _, _. split; [exact E|]. split; [exact E'|].
  assert (Hsplit : for_each (seq (length data) (length more))
                     {| upperCI := map (option_map (fun t => snd t)) ts;
                        lowerCI := map (option_map (fun t => snd (fst t))) ts;
                        meanLine := map (option_map (fun t => fst (fst t))) ts |}
                     (plotTimeSeries_step (data ++ more))
                   = Ok {| upperCI := map (option_map (fun t => snd t)) ts';
                           lowerCI := map (option_map (fun t => snd (fst t))) ts';
                           meanLine := map (option_map (fun t => fst (fst t))) ts' |}).
  { rewrite <- E'. unfold plotTimeSeries. rewrite length_app, seq_app, for_each_app.
    rewrite (for_each_ext_in (plotTimeSeries_step (data ++ more))
                             (plotTimeSeries_step data) (seq 0 (length data)))
      by (intros s i Hi; apply in_seq in Hi; apply plotTimeSeries_step_prefix; lia).
    unfold plotTimeSeries in E. rewrite E. reflexivity. }
  destruct (plotTimeSeries_loop_grows _ _ _ _ Hsplit) as (Hu & Hl & Hm).
  cbn [upperCI lowerCI meanLine] in Hu, Hl, Hm |- *.
  rewrite !length_map, Hlen in Hu, Hl, Hm.
  split; [exact Hu|]. split; [exact Hl|]. split; [exact Hm|].
  intros i Hi. unfold pointAt. cbn [upperCI lowerCI meanLine].
  rewrite <- Hu, <- Hl, <- Hm. rewrite !lookup_take_lt by lia. reflexivity.
Qed.

End PrefixStability.

(** ** Validation of the input field *)

Section ValidationFacts.
Context {num : Type} `{JsNumber num}.
Local Open Scope num_scope.
Variable trim : String.string -> String.string.
Variable parseFloat : String.string -> num.

Lemma split_comma_nonempty (s : String.string) : split_comma s <> [].
Proof.
  destruct s as [|c s]; simpl; [discriminate|].
  destruct (Ascii.eqb c ","%char); [discriminate|].
  destruct (split_comma s); discriminate.
Qed.

Lemma parseValues_nonempty (input : String.string) : parseValues trim parseFloat input <> [].
Proof.
  unfold parseValues. pose proof (split_comma_nonempty input) as Hne.
  destruct (split_comma input); [congruence | discriminate].
Qed.

Lemma forallb_inRange (bound : Z) (values : list num) :
  forallb (inRange bound) values = true <-> allInRange bound values.
Proof.
  unfold allInRange. rewrite forallb_forall, List.Forall_forall.
  split; intros Hall v Hv; specialize (Hall v Hv); unfold inRange in *.
  - apply andb_prop in Hall. destruct Hall as [Hall Hhi].
    apply andb_prop in Hall. destruct Hall as [Hnan Hlo].
    apply negb_true_iff in Hnan. auto.
  - destruct Hall as (-> & -> & ->). reflexivity.
Qed.

(** X8.  A click on the fit button schedules a fit exactly when the
    trimmed text of the field is not empty and every piece between its
    commas parses to a number strictly between 0 and 100.  The data
    fitted are these numbers, of which there is at least one; they are
    stored as the current data, the message is hidden, and the click
    leaves the button disabled with the text "Fitting..."; the timer,
    however the fit ends, leaves it enabled with the text "Fit Model"
    and keeps the current data.  Otherwise nothing is scheduled, the current data and the text of
    the button stay as they were and the button is disabled.  The
    message "Invalid input format" is never put up. *)
Theorem fitGMM_click_schedules (text : String.string) (page : GmmPage num) :
  let values := parseValues trim parseFloat (trim text) in
  let accepted := negb (is_empty (trim text)) && forallb (inRange 100) values in
  let '(page', scheduled) := fitGMM_click trim parseFloat text page in
  (accepted = true ->
     scheduled = Some (Some values)
     /\ page' = {| currentData := Some values;
                   fitDisabled := true;
                   fitText := Some "Fitting..."%string;
                   shownError := None |}
     /\ values <> [] /\ allInRange 100 values
     /\ forall outcome,
          fitDisabled (fitGMM_settle outcome page') = false
          /\ fitText (fitGMM_settle outcome page') = Some "Fit Model"%string
          /\ currentData (fitGMM_settle outcome page') = Some values)
  /\ (accepted = false ->
        scheduled = None
        /\ currentData page' = currentData page
        /\ fitDisabled page' = true
        /\ fitText page' = fitText page)
  /\ (shownError page' = Some InvalidInputFormat ->
      shownError page = Some InvalidInputFormat).
Proof.
  cbv zeta. unfold fitGMM_click, validateInput.
  destruct (is_empty (trim text)) eqn:Ee; cbn [negb andb].
  - split; [discriminate|]. split; [auto|]. cbn [shownError]. auto.
  - pose proof (parseValues_nonempty (trim text)) as Hne.
    destruct (forallb (inRange 100) (parseValues trim parseFloat (trim text))) eqn:Ev;
      cbn [andb].
    + assert (Hlen : (1 <=? length (parseValues trim parseFloat (trim text)))%nat = true).
      { apply Nat.leb_le. destruct (parseValues trim parseFloat (trim text));
          [congruence | simpl; lia]. }
      rewrite Hlen. cbv zeta. cbn [currentData shownError].
      split; [|split; discriminate].
      intros _. split; [reflexivity|]. split; [reflexivity|]. split; [exact Hne|].
      split; [apply forallb_inRange, Ev|].
      intros outcome. unfold fitGMM_settle. cbn [fitDisabled fitText currentData]. auto.
    + cbn [currentData fitDisabled fitText shownError].
      split; [discriminate|]. split; [auto | discriminate].
Qed.

End ValidationFacts.

(** ** The trajectory demo *)

Section TrajectoryFacts.
Context {num : Type} `{JsNumber num}.
Local Open Scope num_scope.
Variable trim : String.string -> String.string.
Variable parseFloat : String.string -> num.

Import TrajectoryDemo.

Lemma validateInput_cases (wbcText pltText : String.string) (st : Config num * bool) :
  (validateInput trim parseFloat wbcText pltText st
   = (true, ({| wbcData := parseValues trim parseFloat (trim wbcText);
                pltData := parseValues trim parseFloat (trim pltText) |}, false))
   /\ ready {| wbcData := parseValues trim parseFloat (trim wbcText);
               pltData := parseValues trim parseFloat (trim pltText) |})
  \/ validateInput trim parseFloat wbcText pltText st = (false, (fst st, true)).
Proof.
  unfold validateInput.
  destruct (is_empty (trim wbcText) || is_empty (trim pltText)); [right; reflexivity|].
  destruct (forallb (inRange 100) (parseValues trim parseFloat (trim wbcText))) eqn:Ew;
    [|right; reflexivity].
  destruct (forallb (inRange 1000) (parseValues trim parseFloat (trim pltText))) eqn:Ep;
    [|right; reflexivity].
  destruct (Nat.eqb_spec (length (parseValues trim parseFloat (trim wbcText)))
                         (length (parseValues trim parseFloat (trim pltText)))) as [El|];
    [|right; reflexivity].
  destruct (Nat.leb_spec 3 (length (parseValues trim parseFloat (trim wbcText)))) as [H3|];
    [|right; reflexivity].
  left. split; [reflexivity|]. unfold ready. cbn [wbcData pltData].
  split; [exact El|]. split; [exact H3|].
  split; apply forallb_inRange; assumption.
Qed.

(** X9.  [validateInput] of the trajectory demo accepts the two texts
    exactly by replacing the configuration with the parsed series,
    which then have the same length, at least three points, WBC values
    strictly between 0 and 100 and platelet values strictly between 0
    and 1000; when it rejects them the configuration is left as it
    was and the button is disabled.  So a configuration that is ready
    stays ready through any later input. *)
Theorem validateInput_keeps_ready (wbcText pltText : String.string)
    (st : Config num * bool) :
  let '(ok, st') := validateInput trim parseFloat wbcText pltText st in
  (ok = true ->
     fst st' = {| wbcData := parseValues trim parseFloat (trim wbcText);
                  pltData := parseValues trim parseFloat (trim pltText) |}
     /\ snd st' = false /\ ready (fst st'))
  /\ (ok = false -> st' = (fst st, true))
  /\ (ready (fst st) -> ready (fst st')).
Proof.
  destruct (validateInput_cases wbcText pltText st) as [(-> & Hr)| ->]; cbn [fst snd].
  - split; [auto|]. split; [discriminate | auto].
  - split; [discriminate|]. split; auto.
Qed.

Lemma inputEvents_ready (events : list (String.string * String.string)) :
  forall st, ready (fst st) -> ready (fst (inputEvents trim parseFloat events st)).
Proof.
  induction events as [|[w p] events IH]; intros st Hr; [exact Hr|].
  unfold inputEvents. cbn [fold_left fst snd]. apply IH.
  destruct (validateInput_cases w p st) as [(-> & Hr')| ->]; cbn [fst snd]; assumption.
Qed.

Lemma lookup_Some_lt {A} (l : list A) (i : nat) :
  (i < length l)%nat -> exists x, l !! i = Some x.
Proof. intros Hi. apply lookup_lt_is_Some_2 in Hi. destruct Hi as [x Hx]. eauto. Qed.

(** X10.  Once the button has accepted the two fields, the timer of
    [generateTrajectory] never ends in the alert, whatever is typed
    into the fields before it fires.  It shows one arrow per pair of
    consecutive days, from the point of the day to the point of the
    next day, so that each arrow starts where the previous one ends;
    and the summary gives the first and the last value of each series
    with their difference, marked with a plus sign when positive. *)
Theorem generateTrajectory_never_alerts (wbcText pltText : String.string)
    (st st1 : Config num * bool) (later : list (String.string * String.string)) :
  validateInput trim parseFloat wbcText pltText st = (true, st1) ->
  let c := fst (inputEvents trim parseFloat later st1) in
  let n := length (wbcData c) in
  exists summary,
    generateTrajectory_timer c
    = Shown (seq 0 n, wbcData c, pltData c) (wbcData c, pltData c) (arrows c) summary
    /\ length (arrows c) = (n - 1)%nat
    /\ (forall i, (i < n - 1)%nat ->
          exists w p w' p',
            wbcData c !! i = Some w /\ pltData c !! i = Some p
            /\ wbcData c !! S i = Some w' /\ pltData c !! S i = Some p'
            /\ arrows c !! i
               = Some {| ann_x := Some w'; ann_y := Some p';
                         ann_ax := Some w; ann_ay := Some p |})
    /\ (forall i a a', arrows c !! i = Some a -> arrows c !! S i = Some a' ->
          ann_ax a' = ann_x a /\ ann_ay a' = ann_y a)
    /\ timePoints summary = n
    /\ wbcData c !! 0%nat = Some (initialWBC summary)
    /\ wbcData c !! (n - 1)%nat = Some (finalWBC summary)
    /\ pltData c !! 0%nat = Some (initialPLT summary)
    /\ pltData c !! (n - 1)%nat = Some (finalPLT summary)
    /\ wbcChange summary = finalWBC summary - initialWBC summary
    /\ pltChange summary = finalPLT summary - initialPLT summary
    /\ wbcPlus summary = (of_Z 0 <? wbcChange summary)
    /\ pltPlus summary = (of_Z 0 <? pltChange summary).
Proof.
  intros Hok. cbv zeta.
  assert (Hr1 : ready (fst st1)).
  { destruct (validateInput_cases wbcText pltText st) as [(E & Hr)|E];
      rewrite E in Hok; [|discriminate].
    injection Hok as <-. exact Hr. }
  pose proof (inputEvents_ready later st1 Hr1) as Hr.
  set (c := fst (inputEvents trim parseFloat later st1)) in *.
  destruct Hr as (Hlen & H3 & _ & _).
  set (n := length (wbcData c)) in *.
  destruct (lookup_Some_lt (wbcData c) 0) as (iw & Eiw); [lia|].
  destruct (lookup_Some_lt (wbcData c) (n - 1)) as (fw & Efw); [lia|].
  destruct (lookup_Some_lt (pltData c) 0) as (ip & Eip); [lia|].
  destruct (lookup_Some_lt (pltData c) (n - 1)) as (fp & Efp); [lia|].
  assert (Hn0 : (n =? 0)%nat = false) by (apply Nat.eqb_neq; lia).
  assert (Harrow : forall i, (i < n - 1)%nat ->
            arrows c !! i
            = Some {| ann_x := wbcData c !! (i + 1)%nat; ann_y := pltData c !! (i + 1)%nat;
                      ann_ax := wbcData c !! i; ann_ay := pltData c !! i |}).
  { intros i Hi. unfold arrows. fold n. rewrite lookup_map, lookup_seq_lt by exact Hi.
    reflexivity. }
  eexists. split.
  - unfold generateTrajectory_timer, displayResults, plotTimeSeries. fold n.
    rewrite Hn0, Eiw, Efw, Eip, Efp. reflexivity.
  - cbn [timePoints initialWBC finalWBC initialPLT finalPLT wbcChange pltChange
         wbcPlus pltPlus toNumber].
    split; [unfold arrows; fold n; rewrite length_map, length_seq; reflexivity|].
    split.
    { intros i Hi.
      destruct (lookup_Some_lt (wbcData c) i) as (w & Ew); [lia|].
      destruct (lookup_Some_lt (pltData c) i) as (p & Ep); [lia|].
      destruct (lookup_Some_lt (wbcData c) (S i)) as (w' & Ew'); [lia|].
      destruct (lookup_Some_lt (pltData c) (S i)) as (p' & Ep'); [lia|].
      exists w, p, w', p'. repeat (split; [assumption|]).
      rewrite (Harrow i Hi), Nat.add_1_r, Ew, Ep, Ew', Ep'. reflexivity. }
    split.
    { intros i a a' Ea Ea'.
      assert (Hi : (S i < n - 1)%nat).
      { apply lookup_lt_Some in Ea'. unfold arrows in Ea'. fold n in Ea'.
        rewrite length_map, length_seq in Ea'. exact Ea'. }
      rewrite Harrow in Ea by lia. rewrite Harrow in Ea' by lia.
      injection Ea as <-. injection Ea' as <-. cbn [ann_x ann_y ann_ax ann_ay].
      rewrite Nat.add_1_r. auto. }
    repeat (split; [first [reflexivity | assumption]|]). reflexivity.
Qed.

(** X21.  [displayResults] of the trajectory demo throws exactly when
    there is no WBC value or there are fewer platelet values than WBC
    values: it formats the first and the last WBC value and the
    platelet values at the same two positions. *)
Theorem trajectory_summary_throws_iff (c : Config num) :
  displayResults c = Throw_TypeError
  <-> (length (wbcData c) = 0%nat \/ length (pltData c) < length (wbcData c))%nat.
Proof.
  unfold displayResults. cbv zeta.
  destruct (Nat.eqb_spec (length (wbcData c)) 0) as [E0|N0].
  - split; [auto|]. intros _.
    destruct (wbcData c !! 0%nat); [|reflexivity].
    reflexivity.
  - destruct (lookup_Some_lt (wbcData c) 0) as (iw & ->); [lia|].
    destruct (lookup_Some_lt (wbcData c) (length (wbcData c) - 1)) as (fw & ->); [lia|].
    destruct (Nat.lt_ge_cases (length (pltData c)) (length (wbcData c))) as [Hlt|Hge].
    + rewrite (lookup_ge_None_2 (pltData c) (length (wbcData c) - 1)) by lia.
      split; [auto|]. intros _. destruct (pltData c !! 0%nat); reflexivity.
    + destruct (lookup_Some_lt (pltData c) 0) as (ip & ->); [lia|].
      destruct (lookup_Some_lt (pltData c) (length (wbcData c) - 1)) as (fp & ->); [lia|].
      split; [discriminate|]. intros [H0|Hlt]; lia.
Qed.

End TrajectoryFacts.

(** ** The red-cell demo as a state machine *)

Section RBCFacts.
Import RBCDemo.

Lemma fresh_coherent (p : Page) : fresh p -> coherent p /\ in_step p.
Proof.
  intros (Hs & Hf & Ht). unfold coherent, in_step. rewrite Hs. auto.
Qed.

Lemma handle_coherent (p : Page) (e : Event) :
  fromGallery e -> coherent p -> coherent (handle p e).
Proof.
  intros He Hc. destruct e as [image| |]; cbn [handle].
  - (* a card *)
    unfold coherent, selectImage; cbn [selectedImage isFitted selectedCard timers
                                        imageSectionShown].
    split; [exact He|]. split; [reflexivity|]. split; [reflexivity|]. split.
    + unfold coherent in Hc. destruct (selectedImage p) as [s|].
      * destruct Hc as (_ & _ & _ & Ht & _). exact Ht.
      * destruct Hc as (_ & ->). constructor.
    + unfold showsRaw; cbn. auto.
  - (* the fit button *)
    unfold coherent in Hc |- *. unfold fitModel.
    destruct (selectedImage p) as [s|] eqn:Es; [|cbn beta iota; rewrite Es; exact Hc].
    destruct Hc as (Hin & Hcard & Hsec & Ht & Hshow).
    destruct (isFitted p) eqn:Ef; cbn [negb selectedImage isFitted selectedCard timers
                                        imageSectionShown].
    + split; [exact Hin|]. split; [exact Hcard|]. split; [exact Hsec|].
      split; [exact Ht|]. unfold showsRaw; cbn. auto.
    + split; [exact Hin|]. split; [exact Hcard|]. split; [exact Hsec|]. split.
      * apply Forall_app. split; [exact Ht|]. constructor; [exact Hin | constructor].
      * destruct Hshow as (Hsrc & Hlab & Hres). unfold showsRaw; cbn. auto.
  - (* the timer *)
    unfold coherent in Hc |- *. unfold fitModel_timer.
    destruct (timers p) as [|t pending] eqn:Et; [cbn beta iota; rewrite Et; exact Hc|].
    cbn [selectedImage isFitted selectedCard timers imageSectionShown].
    destruct (selectedImage p) as [s|] eqn:Es; [|destruct Hc; discriminate].
    destruct Hc as (Hin & Hcard & Hsec & Ht & _).
    inversion Ht as [|? ? Hint Hpend]; subst.
    split; [exact Hin|]. split; [exact Hcard|]. split; [exact Hsec|].
    split; [exact Hpend|].
    exists t. split; [exact Hint|]. unfold showsFit; cbn. auto.
Qed.

Lemma run_coherent (events : list Event) :
  forall p, Forall fromGallery events -> coherent p -> coherent (run events p).
Proof.
  induction events as [|e events IH]; intros p Hg Hc; [exact Hc|].
  inversion Hg as [|? ? He Hrest]; subst.
  unfold run. cbn [fold_left]. apply IH; [exact Hrest|]. apply handle_coherent; assumption.
Qed.

Lemma run_before_selection (events : list Event) :
  forall p, fresh p -> selectedImage (run events p) = None -> run events p = p.
Proof.
  induction events as [|e events IH]; intros p Hf Hnone; [reflexivity|].
  unfold run in *. cbn [fold_left] in *.
  assert (Hkeep : forall q, selectedImage q <> None ->
                            selectedImage (fold_left handle events q) <> None).
  { clear. induction events as [|e events IH]; intros q Hq; [exact Hq|].
    cbn [fold_left]. apply IH. destruct e as [image| |]; cbn [handle].
    - discriminate.
    - unfold fitModel. destruct (selectedImage q) eqn:Eq; [|congruence].
      destruct (negb (isFitted q)); cbn [selectedImage]; discriminate.
    - unfold fitModel_timer. destruct (timers q); [exact Hq|]. exact Hq. }
  destruct Hf as (Hs & Hfit & Ht).
  destruct e as [image| |]; cbn [handle] in *.
  - exfalso. revert Hnone. apply Hkeep. discriminate.
  - unfold fitModel in *. rewrite Hs in *. apply IH; [repeat split; assumption | exact Hnone].
  - unfold fitModel_timer in *. rewrite Ht in *.
    apply IH; [repeat split; assumption | exact Hnone].
Qed.

(** X11.  Whatever cards of the gallery are clicked, however often the
    fit button is clicked and whenever the timers fire, the page
    agrees with the state of the demo: before the first selection
    nothing has changed; afterwards the highlighted card is the
    selected one and, when [isFitted] is false, the smear of the
    selected image is shown under its "Smear" label with the results
    hidden, while when [isFitted] is true the fit of some image of the
    gallery is shown under its "Fit Model" label together with the
    results of that same image. *)
Theorem page_stays_coherent (p0 : Page) (events : list Event) :
  fresh p0 ->
  Forall fromGallery events ->
  coherent (run events p0)
  /\ (selectedImage (run events p0) = None -> run events p0 = p0).
Proof.
  intros Hf Hg. split.
  - apply run_coherent; [exact Hg|]. apply fresh_coherent, Hf.
  - apply run_before_selection, Hf.
Qed.

Lemma handle_in_step (p : Page) (e : Event) :
  match e with CardClicked _ => timers p = [] | _ => True end ->
  in_step p -> in_step (handle p e).
Proof.
  intros He Hc. destruct e as [image| |]; cbn [handle].
  - unfold in_step, selectImage; cbn [selectedImage isFitted timers].
    rewrite He. split; [constructor|]. unfold showsRaw; cbn. auto.
  - unfold in_step in Hc |- *. unfold fitModel.
    destruct (selectedImage p) as [s|] eqn:Es; [|cbn beta iota; rewrite Es; exact Hc].
    destruct Hc as (Ht & Hshow).
    destruct (isFitted p) eqn:Ef; cbn [negb selectedImage isFitted timers].
    + split; [exact Ht|]. unfold showsRaw; cbn. auto.
    + split.
      * apply Forall_app. split; [exact Ht|]. constructor; [reflexivity | constructor].
      * destruct Hshow as (Hsrc & Hlab & Hres). unfold showsRaw; cbn. auto.
  - unfold in_step in Hc |- *. unfold fitModel_timer.
    destruct (timers p) as [|t pending] eqn:Et; [cbn beta iota; rewrite Et; exact Hc|].
    cbn [selectedImage isFitted timers].
    destruct (selectedImage p) as [s|] eqn:Es; [|destruct Hc; discriminate].
    destruct Hc as (Ht & _).
    inversion Ht as [|? ? Hts Hpend]; subst.
    split; [exact Hpend|]. unfold showsFit; cbn. auto.
Qed.

(** X12.  As long as no card is clicked while a timer is pending, the
    fit shown is that of the selected image: when [isFitted] is true
    the picture, the label and the table are those of the selected
    image, and every pending timer is for it. *)
Theorem fit_shown_is_of_selected (p0 : Page) (events : list Event) :
  fresh p0 ->
  calm events p0 ->
  in_step (run events p0).
Proof.
  intros Hf. apply fresh_coherent in Hf. destruct Hf as [_ Hin].
  revert p0 Hin. induction events as [|e events IH]; intros p Hin Hcalm; [exact Hin|].
  destruct Hcalm as [He Hrest]. unfold run. cbn [fold_left].
  apply IH; [|exact Hrest]. apply handle_in_step; assumption.
Qed.

(** X13.  A card clicked between the click on the fit button and its
    timer is overtaken by the timer: with [b] selected and highlighted,
    the page then shows the fit, the "Fit Model" label and the results
    of [a].  The fit button was enabled at each of the two clicks on
    it, and the next click on it brings up the smear of [b]. *)
Theorem timer_overtakes_selection (p0 : Page) (a b : Image) :
  timers p0 = [] ->
  let clicked := run [CardClicked a; FitClicked; CardClicked b] p0 in
  let p := run [TimerFired] clicked in
  buttonDisabled (run [CardClicked a] p0) = false
  /\ selectedImage p = Some b
  /\ selectedCard p = Some (id b)
  /\ isFitted p = true
  /\ showsFit a p
  /\ buttonDisabled p = false
  /\ showsRaw b (run [FitClicked] p)
  /\ timers p = [].
Proof.
  intros Ht. cbv zeta. unfold run; cbn [fold_left handle].
  unfold fitModel_timer, selectImage, fitModel;
    cbn [selectedImage isFitted timers negb buttonDisabled selectedCard].
  rewrite Ht. cbn [app selectedImage isFitted timers negb buttonDisabled selectedCard].
  unfold showsFit, showsRaw; cbn. tauto.
Qed.

(** X14.  From a freshly selected image with no timer pending, a click
    on the fit button, its timer and a second click bring the page
    back to where it was, except that the hidden results now hold the
    table of the image. *)
Theorem fit_then_show_original (p : Page) (a : Image) :
  timers p = [] ->
  run [FitClicked; TimerFired; FitClicked] (selectImage a p)
  = {| selectedImage := selectedImage (selectImage a p);
       isFitted := isFitted (selectImage a p);
       selectedCard := selectedCard (selectImage a p);
       imageSrc := imageSrc (selectImage a p);
       labelText := labelText (selectImage a p);
       imageSectionShown := imageSectionShown (selectImage a p);
       buttonDisabled := buttonDisabled (selectImage a p);
       buttonText := buttonText (selectImage a p);
       resultsShown := resultsShown (selectImage a p);
       resultsContent := Some (displayResultsTable a);
       timers := timers (selectImage a p) |}.
Proof.
  intros Ht. unfold run; cbn [fold_left handle].
  unfold fitModel_timer, selectImage, fitModel;
    cbn [selectedImage isFitted timers negb]. rewrite Ht. reflexivity.
Qed.

End RBCFacts.

(** ** The demos on binary64 numbers *)

Section DemosOnBinary64.
Variable lib : MathApprox.
Local Open Scope float_scope.

(** X15.  Equal measurements can end in the message "GMM fitting
    failed".  On the datasets of [repeatedDatasets] that have five
    samples or more, which are [[5,5,5,5,5]] and [n] copies of 1, 2, 4
    or 8 for [n] from 5 to 10, the timer of [fitGMM] stores the
    one-component model whose mean, variance and weight are [NaN],
    with its score, and fails.  This holds whatever [Math.exp] and
    [Math.log] return where the language leaves their value open;
    [Math.pow] is only called with the exponent 2, where it is the
    rounded product.  The statement is about these 25 datasets, not
    about every repeated value. *)
Theorem repeated_values_fail (data : list float) :
  In data repeatedDatasets ->
  (5 <= length data)%nat ->
  @fitGMM_run float (IEEE lib) data
  = (Some (Some (@scored float (IEEE lib) data (@nanModel float (IEEE lib) 1))),
     FittingFailed).
Proof.
  intros Hin. revert data Hin.
  apply (proj1 (List.Forall_forall
                  (fun data => (5 <= length data)%nat ->
                     @fitGMM_run float (IEEE lib) data
                     = (Some (Some (@scored float (IEEE lib) data
                                       (@nanModel float (IEEE lib) 1))),
                        FittingFailed)) repeatedDatasets)).
  unfold repeatedDatasets. cbn [list_prod map seq app].
  repeat (constructor;
          [first [ intros Hn; cbn in Hn; exfalso; lia
                 | intros _; vm_compute; reflexivity ]|]).
  constructor.
Qed.

Lemma is_nan_sub_nan (x y : float) : PrimFloat.is_nan y = true -> PrimFloat.is_nan (x - y) = true.
Proof.
  intros Hy. apply is_nan_Prim2SF in Hy. apply is_nan_Prim2SF.
  rewrite FloatAxioms.sub_spec, Hy. destruct (Prim2SF x) as [[]|[]| |[] m e]; reflexivity.
Qed.

Lemma is_nan_add_nan (x y : float) : PrimFloat.is_nan y = true -> PrimFloat.is_nan (x + y) = true.
Proof.
  intros Hy. apply is_nan_Prim2SF in Hy. apply is_nan_Prim2SF.
  rewrite FloatAxioms.add_spec, Hy. destruct (Prim2SF x) as [[]|[]| |[] m e]; reflexivity.
Qed.

(** X16.  Below five measurements the timer of [fitGMM] shows the
    small-sample model as one component holding 100 percent of the
    values, with the sample mean as setpoint and no share of outliers.
    From three measurements on the standard deviation is the square
    root of the sample variance; for one or two measurements the
    standard deviation and both bounds of the 95 percent interval are
    [NaN]. *)
Theorem small_sample_summary (data : list float) :
  (length data < 5)%nat ->
  exists b summary,
    @plotTimeSeries float (IEEE lib) data = Ok b
    /\ snd (@fitGMM_run float (IEEE lib) data)
       = Displayed (timeSeriesTraces data b)
                   (@plotResults float (IEEE lib) data
                      (@simpleMeanStd float (IEEE_Arith lib) data))
                   summary
    /\ sm_components summary = 1%nat
    /\ sm_setpoint summary = @sampleMean float (IEEE_Arith lib) data
    /\ sm_percent summary = 100
    /\ sm_outlierPct summary = None
    /\ ((3 <= length data)%nat ->
        sm_stdDev summary = PrimFloat.sqrt (@sampleVariance float (IEEE_Arith lib) data))
    /\ ((length data < 3)%nat ->
        PrimFloat.is_nan (sm_stdDev summary) = true
        /\ PrimFloat.is_nan (fst (sm_ci95 summary)) = true
        /\ PrimFloat.is_nan (snd (sm_ci95 summary)) = true).
Proof.
  intros Hn.
  destruct (@plotTimeSeries_triples float (IEEE lib) data) as (ts & _ & Eb & _).
  set (m := @simpleMeanStd float (IEEE_Arith lib) data).
  assert (Ei : @indexOf float (IEEE lib) (weights m) (@Math_max float (IEEE lib) (weights m))
               = Some 0%nat) by (vm_compute; reflexivity).
  assert (Ed : @displayResults float (IEEE lib) m
               = Ok {| sm_components := 1;
                       sm_setpoint := @sampleMean float (IEEE_Arith lib) data;
                       sm_stdDev := PrimFloat.sqrt (@get float (IEEE_Arith lib) (variances m) 0);
                       sm_ci95 :=
                         (@sampleMean float (IEEE_Arith lib) data
                          - 1.96 * PrimFloat.sqrt (@get float (IEEE_Arith lib) (variances m) 0),
                          @sampleMean float (IEEE_Arith lib) data
                          + 1.96 * PrimFloat.sqrt (@get float (IEEE_Arith lib) (variances m) 0));
                       sm_percent := @of_Z float (IEEE_Arith lib) 1
                                     * @of_Z float (IEEE_Arith lib) 100;
                       sm_outlierPct := None |}).
  { unfold displayResults. rewrite Ei. reflexivity. }
  eexists _, _. split; [exact Eb|].
  unfold fitGMM_run, fitGMM_try, fitGMM.
  destruct (Nat.ltb_spec (length data) 5) as [_|]; [|lia].
  rewrite Eb. cbn [exc_bind].
  change (@displayResults float (IEEE lib) (@simpleMeanStd float _ data))
    with (@displayResults float (IEEE lib) m).
  rewrite Ed. cbn [exc_bind snd].
  split; [reflexivity|].
  cbn [sm_components sm_setpoint sm_percent sm_outlierPct sm_stdDev sm_ci95 fst snd].
  split; [reflexivity|]. split; [reflexivity|].
  split; [vm_compute; reflexivity|]. split; [reflexivity|].
  assert (Ev : @get float (IEEE_Arith lib) (variances m) 0
               = if (3 <=? length data)%nat
                 then @sampleVariance float (IEEE_Arith lib) data
                 else PrimFloat.nan).
  { subst m. unfold simpleMeanStd, get. cbn [variances lookup list_lookup toNumber].
    destruct (3 <=? length data)%nat; [|reflexivity].
    unfold sampleVariance, sampleMean, sum_from_0.
    rewrite <- (@fold_left_add_map float (IEEE_Arith lib) float
                  (fun v => @Math_pow float (IEEE_Arith lib)
                              (@nsub float (IEEE_Arith lib) v
                                 (@ndiv float (IEEE_Arith lib)
                                    (fold_left (@nadd float (IEEE_Arith lib)) data
                                               (@of_Z float (IEEE_Arith lib) 0))
                                    (@of_nat float (IEEE_Arith lib) (length data))))
                              (@of_Z float (IEEE_Arith lib) 2))).
    reflexivity. }
  rewrite Ev. split.
  - intros H3. destruct (Nat.leb_spec 3 (length data)) as [_|]; [reflexivity | lia].
  - intros H3. destruct (Nat.leb_spec 3 (length data)) as [|_]; [lia|].
    assert (Hs : PrimFloat.is_nan (1.96 * PrimFloat.sqrt PrimFloat.nan) = true)
      by (vm_compute; reflexivity).
    split; [vm_compute; reflexivity|].
    split; [apply is_nan_sub_nan, Hs | apply is_nan_add_nan, Hs].
Qed.

Lemma ltb_infinity (x : float) :
  PrimFloat.is_nan x = false -> (x <? infinity) = false -> x = infinity.
Proof.
  intros Hx Hlt.
  assert (Hn : Prim2SF x <> S754_nan)
    by (intros E; apply is_nan_Prim2SF in E; congruence).
  rewrite FloatAxioms.ltb_spec in Hlt.
  replace (Prim2SF infinity) with (S754_infinity false) in Hlt by (vm_compute; reflexivity).
  rewrite <- (FloatAxioms.SF2Prim_Prim2SF x).
  unfold SFltb, SFcompare in Hlt.
  destruct (Prim2SF x) as [[]|[]| |[] m e]; simpl in Hlt; try discriminate; try congruence.
  vm_compute. reflexivity.
Qed.

Lemma Math_min_pair (v size : float) :
  PrimFloat.is_nan v = false -> PrimFloat.is_nan size = false ->
  @Math_min float (IEEE lib) [v; size] = if size <? v then size else v.
Proof.
  intros Hv Hs. unfold Math_min, Infinity. cbn [fold_left isNaN IEEE nlt].
  replace (@nopp float (@js_arith float (IEEE lib)) (@neg_Infinity float (IEEE lib)))
    with infinity by (vm_compute; reflexivity).
  replace (PrimFloat.is_nan infinity) with false by (vm_compute; reflexivity).
  rewrite Hv.
  destruct (v <? infinity) eqn:E.
  - rewrite Hv, Hs. reflexivity.
  - rewrite <- (ltb_infinity v Hv E). rewrite Hv, Hs. reflexivity.
Qed.

Lemma Math_max_zero (m : float) :
  PrimFloat.is_nan m = false ->
  @Math_max float (IEEE lib) [@of_Z float (IEEE_Arith lib) 0; m] = if 0 <? m then m else 0.
Proof.
  intros Hm. unfold Math_max. cbn [fold_left isNaN IEEE nlt].
  replace (PrimFloat.is_nan (@neg_Infinity float (IEEE lib))) with false
    by (vm_compute; reflexivity).
  replace (PrimFloat.is_nan (@of_Z float (IEEE_Arith lib) 0)) with false
    by (vm_compute; reflexivity).
  replace (@neg_Infinity float (IEEE lib) <? @of_Z float (IEEE_Arith lib) 0) with true
    by (vm_compute; reflexivity).
  replace (PrimFloat.is_nan (@of_Z float (IEEE_Arith lib) 0)) with false
    by (vm_compute; reflexivity).
  rewrite Hm. reflexivity.
Qed.

(** The clamp keeps a position within the image, and leaves a position
    within the image where it is. *)
Lemma clamp_within (v size : float) :
  PrimFloat.is_nan v = false -> PrimFloat.is_nan size = false -> (size <? 0) = false ->
  let r := RBCDemo.clamp lib v size in
  PrimFloat.is_nan r = false
  /\ (r <? 0) = false
  /\ (size <? r) = false
  /\ ((v <? 0) = false -> (size <? v) = false -> (r =? v) = true).
Proof.
  intros Hv Hs Hs0. cbv zeta. unfold RBCDemo.clamp.
  rewrite (Math_min_pair v size Hv Hs).
  pose proof (@nlt_irrefl float (IEEE lib) _) as Hirr. cbn [nlt IEEE] in Hirr.
  pose proof (@nlt_trans float (IEEE lib) _) as Htr. cbn [nlt IEEE] in Htr.
  pose proof (@nseq_refl float (IEEE lib) _) as Hrefl. cbn [nseq isNaN IEEE] in Hrefl.
  assert (H0 : PrimFloat.is_nan 0 = false) by reflexivity.
  assert (Hmin : forall m, PrimFloat.is_nan m = false -> (size <? m) = false ->
                   let r := if 0 <? m then m else 0 in
                   PrimFloat.is_nan r = false /\ (r <? 0) = false /\ (size <? r) = false).
  { intros m Hm Hsm. cbv zeta. destruct (0 <? m) eqn:E.
    - split; [exact Hm|]. split; [|exact Hsm].
      destruct (m <? 0) eqn:E'; [|reflexivity].
      pose proof (Htr _ _ _ E E') as H00. rewrite (Hirr 0) in H00. discriminate.
    - split; [exact H0|]. split; [apply Hirr | exact Hs0]. }
  destruct (size <? v) eqn:Esv.
  - rewrite (Math_max_zero size Hs).
    destruct (Hmin size Hs (Hirr size)) as (H1 & H2 & H3).
    split; [exact H1|]. split; [exact H2|]. split; [exact H3|]. intros _ Hc. discriminate.
  - rewrite (Math_max_zero v Hv).
    destruct (Hmin v Hv Esv) as (H1 & H2 & H3).
    split; [exact H1|]. split; [exact H2|]. split; [exact H3|].
    intros Hv0 _. destruct (0 <? v) eqn:E; [apply Hrefl, Hv|].
    rewrite FloatAxioms.eqb_spec. rewrite FloatAxioms.ltb_spec in E, Hv0.
    assert (Hn : Prim2SF v <> S754_nan)
      by (intros En; apply is_nan_Prim2SF in En; congruence).
    replace (Prim2SF 0) with (S754_zero false) in * by (vm_compute; reflexivity).
    unfold SFltb, SFeqb, SFcompare in *.
    destruct (Prim2SF v) as [[]|[]| |[] m e]; simpl in *; congruence.
Qed.

(** X17.  While the lens is active, [moveMagnifier] centres it on the
    position of the pointer clamped to the image: for a pointer
    position and an image size that are numbers, the clamped
    coordinates are numbers between 0 and the width and height of the
    image, equal to the pointer position when that lies within the
    image; the lens is put half its size to the left of and above
    that point, and the background is shifted by the zoomed
    coordinates less half the lens. *)
Theorem moveMagnifier_within_image (clientX clientY : float) (lens : RBCDemo.Lens)
    (rect : RBCDemo.Rect) :
  RBCDemo.active lens = true ->
  PrimFloat.is_nan (clientX - RBCDemo.rect_left rect) = false ->
  PrimFloat.is_nan (clientY - RBCDemo.rect_top rect) = false ->
  PrimFloat.is_nan (RBCDemo.rect_width rect) = false ->
  PrimFloat.is_nan (RBCDemo.rect_height rect) = false ->
  (RBCDemo.rect_width rect <? 0) = false ->
  (RBCDemo.rect_height rect <? 0) = false ->
  exists x y,
    RBCDemo.moveMagnifier lib clientX clientY lens rect
    = {| RBCDemo.active := true;
         RBCDemo.left := Some (x - 75);
         RBCDemo.top := Some (y - 75);
         RBCDemo.backgroundPosition := Some (- (x * 2.5 - 75), - (y * 2.5 - 75)) |}
    /\ PrimFloat.is_nan x = false /\ (x <? 0) = false /\ (RBCDemo.rect_width rect <? x) = false
    /\ PrimFloat.is_nan y = false /\ (y <? 0) = false /\ (RBCDemo.rect_height rect <? y) = false
    /\ ((clientX - RBCDemo.rect_left rect <? 0) = false ->
        (RBCDemo.rect_width rect <? clientX - RBCDemo.rect_left rect) = false ->
        (x =? clientX - RBCDemo.rect_left rect) = true)
    /\ ((clientY - RBCDemo.rect_top rect <? 0) = false ->
        (RBCDemo.rect_height rect <? clientY - RBCDemo.rect_top rect) = false ->
        (y =? clientY - RBCDemo.rect_top rect) = true).
Proof.
  intros Ha Hx Hy Hw Hh Hw0 Hh0.
  destruct (clamp_within _ _ Hx Hw Hw0) as (X1 & X2 & X3 & X4).
  destruct (clamp_within _ _ Hy Hh Hh0) as (Y1 & Y2 & Y3 & Y4).
  eexists _, _. split.
  - unfold RBCDemo.moveMagnifier. rewrite Ha. cbn [negb RBCDemo.zoom RBCDemo.lensSize
                                                    RBCDemo.magnifier].
    replace (150 / 2) with 75 by (vm_compute; reflexivity). reflexivity.
  - auto 10.
Qed.

End DemosOnBinary64.

(** ** The estimators in exact arithmetic *)

Module ExactStats.

Import ExactFacts.
Local Open Scope R_scope.
#[local] Existing Instance Exact.RArith.

(** X18.  Computed exactly, [gaussianPDF] with a positive standard
    deviation is the normal density: positive everywhere, symmetric
    about the mean, and nowhere above its value at the mean, which is
    [1 / (stdDev * sqrt(2 pi))]. *)
Theorem gaussianPDF_exact (x mean stdDev : R) :
  0 < stdDev ->
  0 < gaussianPDF x mean stdDev <= gaussianPDF mean mean stdDev
  /\ gaussianPDF mean mean stdDev = 1 / (stdDev * sqrt (2 * PI))
  /\ gaussianPDF (mean + (mean - x)) mean stdDev = gaussianPDF x mean stdDev.
Proof.
  intros Hs. rewrite !gaussianPDF_R.
  pose proof sqrt_2PI_pos as Hpi.
  assert (Hc : 0 < 1 / (stdDev * sqrt (2 * PI))).
  { apply Rdiv_lt_0_compat; [lra|]. apply Rmult_lt_0_compat; assumption. }
  assert (Hden : 0 < 2 * (stdDev * stdDev)).
  { apply Rmult_lt_0_compat; [lra|]. apply Rmult_lt_0_compat; exact Hs. }
  assert (He : - ((x - mean) * (x - mean)) / (2 * (stdDev * stdDev)) <= 0).
  { unfold Rdiv. rewrite <- Ropp_mult_distr_l.
    assert (0 <= (x - mean) * (x - mean) * / (2 * (stdDev * stdDev))); [|lra].
    apply Rmult_le_pos; [apply (Rle_0_sqr (x - mean))|].
    left. apply Rinv_0_lt_compat, Hden. }
  replace (- ((mean - mean) * (mean - mean)) / (2 * (stdDev * stdDev))) with 0
    by (unfold Rdiv; ring).
  rewrite exp_0.
  split; [split|split].
  - apply Rmult_lt_0_compat; [exact Hc | apply exp_pos].
  - apply Rmult_le_compat_l; [lra|].
    destruct He as [He|He]; [left; rewrite <- exp_0; apply exp_increasing, He|].
    rewrite He, exp_0. lra.
  - lra.
  - replace (mean + (mean - x) - mean) with (- (x - mean)) by ring.
    replace (- (x - mean) * - (x - mean)) with ((x - mean) * (x - mean)) by ring.
    reflexivity.
Qed.

Lemma sampleVariance_R (data : list R) :
  sampleVariance data
  = sum_from_0 (map (fun v => (v - sampleMean data) * (v - sampleMean data)) data)
    / IZR (Z.of_nat (length data) - 1).
Proof.
  unfold sampleVariance. cbn [of_Z ndiv nsub Math_pow Exact.RArith]. f_equal. f_equal.
  apply map_ext. intros v. apply pow_2.
Qed.

(** X19.  Computed exactly on three samples or more, [simpleMeanStd]
    returns the sample mean, which lies between any two bounds of the
    data, and the sample variance, which is not negative and is zero
    exactly when all samples are equal. *)
Theorem simpleMeanStd_exact (data : list R) :
  (3 <= length data)%nat ->
  means (simpleMeanStd data) = [sampleMean data]
  /\ variances (simpleMeanStd data) = [sampleVariance data]
  /\ (forall lo hi, (forall x, In x data -> lo <= x <= hi) -> lo <= sampleMean data <= hi)
  /\ 0 <= sampleVariance data
  /\ (sampleVariance data = 0 <-> forall x, In x data -> x = sampleMean data).
Proof.
  intros Hn.
  assert (Hlen : 0 < INR (length data)) by (apply lt_0_INR; lia).
  assert (Hden : 0 < IZR (Z.of_nat (length data) - 1)) by (apply IZR_lt; lia).
  assert (Hsq : forall x, In x data ->
                          0 <= (x - sampleMean data) * (x - sampleMean data))
    by (intros x _; apply (Rle_0_sqr (x - sampleMean data))).
  split; [reflexivity|]. split.
  { unfold simpleMeanStd. cbn [variances].
    destruct (Nat.leb_spec 3 (length data)) as [_|]; [|lia].
    unfold sampleVariance, sampleMean, sum_from_0.
    rewrite <- (fold_left_add_map
                  (fun v => Math_pow (v - fold_left nadd data (of_Z 0)
                                          / of_nat (length data)) (of_Z 2))%num).
    reflexivity. }
  split.
  { intros lo hi Hb.
    pose proof (Rsum_mean_bounds (fun x => x) lo hi data Hb) as (Hlo & Hhi).
    rewrite map_id in Hlo, Hhi.
    unfold sampleMean, of_nat. cbn [of_Z ndiv Exact.RArith]. rewrite <- INR_IZR_INZ.
    split.
    - apply Rmult_le_reg_r with (INR (length data)); [exact Hlen|].
      unfold Rdiv. rewrite Rmult_assoc, Rinv_l by lra. lra.
    - apply Rmult_le_reg_r with (INR (length data)); [exact Hlen|].
      unfold Rdiv. rewrite Rmult_assoc, Rinv_l by lra. lra. }
  rewrite sampleVariance_R.
  pose proof (Rsum_nonneg _ data Hsq) as Hsum.
  split.
  { apply Rmult_le_pos; [exact Hsum | left; apply Rinv_0_lt_compat, Hden]. }
  split.
  - intros Hz x Hx.
    assert (Hs0 : sum_from_0
                    (map (fun v => (v - sampleMean data) * (v - sampleMean data)) data) = 0).
    { apply Rmult_eq_reg_r with (/ IZR (Z.of_nat (length data) - 1)).
      - unfold Rdiv in Hz. rewrite Hz. ring.
      - apply Rinv_neq_0_compat. lra. }
    pose proof (Rsum_zero_terms _ data Hsq Hs0 x Hx) as Hx0. cbv beta in Hx0.
    apply Rmult_integral in Hx0. lra.
  - intros Hall.
    rewrite (map_ext_in _ (fun _ => 0)), Rsum_map_zero; [unfold Rdiv; ring|].
    intros x Hx. rewrite (Hall x Hx). ring.
Qed.

End ExactStats.


(** ** An EM pass in exact arithmetic *)

Module ExactEM.

Import ExactFacts ExactStats.
Local Open Scope R_scope.
#[local] Existing Instance Exact.RArith.

Lemma Rsum_pos {A} (f : A -> R) (l : list A) :
  l <> [] -> (forall x, In x l -> 0 < f x) -> 0 < sum_from_0 (map f l).
Proof.
  intros Hne Hf. destruct l as [|x l]; [congruence|].
  cbn [map]. rewrite Rsum_cons.
  pose proof (Hf x (or_introl eq_refl)).
  assert (0 <= sum_from_0 (map f l)); [|lra].
  apply Rsum_nonneg. intros y Hy. left. apply Hf. right. exact Hy.
Qed.

Lemma Rsum_term_le {A} (f : A -> R) (l : list A) (x : A) :
  (forall y, In y l -> 0 <= f y) -> In x l -> f x <= sum_from_0 (map f l).
Proof.
  induction l as [|y l IH]; intros Hf Hx; [destruct Hx|].
  cbn [map]. rewrite Rsum_cons.
  pose proof (Hf y (or_introl eq_refl)).
  assert (Hl : 0 <= sum_from_0 (map f l))
    by (apply Rsum_nonneg; intros z Hz; apply Hf; right; exact Hz).
  destruct Hx as [<-|Hx]; [lra|].
  assert (f x <= sum_from_0 (map f l)); [|lra].
  apply IH; [intros z Hz; apply Hf; right; exact Hz | exact Hx].
Qed.

Lemma Rsum_lt_bound {A} (f : A -> R) (hi : R) (l : list A) :
  l <> [] -> (forall x, In x l -> f x < hi) -> sum_from_0 (map f l) < hi * INR (length l).
Proof.
  intros Hne Hf. induction l as [|x l IH]; [congruence|].
  cbn [map length]. rewrite Rsum_cons, S_INR.
  pose proof (Hf x (or_introl eq_refl)).
  destruct l as [|y l'].
  - cbn [map length INR]. rewrite Rsum_nil. lra.
  - assert (sum_from_0 (map f (y :: l')) < hi * INR (length (y :: l'))); [|lra].
    apply IH; [discriminate|]. intros z Hz. apply Hf. right. exact Hz.
Qed.

(** A mean with positive weights lies between the bounds of the
    values; the variance about it is not negative, and positive when
    some value differs from the mean. *)
Lemma weighted_mean_bounds {A} (a x : A -> R) (lo hi : R) (l : list A) :
  l <> [] ->
  (forall i, In i l -> 0 < a i) ->
  (forall i, In i l -> lo <= x i <= hi) ->
  lo <= sum_from_0 (map (fun i => a i * x i) l) / sum_from_0 (map a l) <= hi.
Proof.
  intros Hne Ha Hx.
  pose proof (Rsum_pos a l Hne Ha) as Hs.
  assert (Hlo : 0 <= sum_from_0 (map (fun i => a i * (x i - lo)) l)).
  { apply Rsum_nonneg. intros i Hi. specialize (Ha i Hi). specialize (Hx i Hi).
    apply Rmult_le_pos; lra. }
  assert (Hhi : 0 <= sum_from_0 (map (fun i => a i * (hi - x i)) l)).
  { apply Rsum_nonneg. intros i Hi. specialize (Ha i Hi). specialize (Hx i Hi).
    apply Rmult_le_pos; lra. }
  assert (Elo : sum_from_0 (map (fun i => a i * (x i - lo)) l)
                = sum_from_0 (map (fun i => a i * x i) l) - lo * sum_from_0 (map a l)).
  { clear. induction l as [|i l IH]; cbn [map].
    - rewrite !Rsum_nil. ring.
    - rewrite !Rsum_cons, IH. ring. }
  assert (Ehi : sum_from_0 (map (fun i => a i * (hi - x i)) l)
                = hi * sum_from_0 (map a l) - sum_from_0 (map (fun i => a i * x i) l)).
  { clear. induction l as [|i l IH]; cbn [map].
    - rewrite !Rsum_nil. ring.
    - rewrite !Rsum_cons, IH. ring. }
  split.
  - apply Rmult_le_reg_r with (sum_from_0 (map a l)); [exact Hs|].
    unfold Rdiv. rewrite Rmult_assoc, Rinv_l by lra. lra.
  - apply Rmult_le_reg_r with (sum_from_0 (map a l)); [exact Hs|].
    unfold Rdiv. rewrite Rmult_assoc, Rinv_l by lra. lra.
Qed.

Lemma weighted_variance_bounds {A} (a x : A -> R) (m : R) (l : list A) :
  l <> [] ->
  (forall i, In i l -> 0 < a i) ->
  0 <= sum_from_0 (map (fun i => a i * (x i - m) * (x i - m)) l) / sum_from_0 (map a l)
  /\ ((exists i, In i l /\ x i <> m) ->
      0 < sum_from_0 (map (fun i => a i * (x i - m) * (x i - m)) l) / sum_from_0 (map a l)).
Proof.
  intros Hne Ha.
  pose proof (Rsum_pos a l Hne Ha) as Hs.
  assert (Hterm : forall i, In i l -> 0 <= a i * (x i - m) * (x i - m)).
  { intros i Hi. specialize (Ha i Hi). rewrite Rmult_assoc.
    apply Rmult_le_pos; [lra | apply (Rle_0_sqr (x i - m))]. }
  pose proof (Rsum_nonneg _ l Hterm) as Hsum.
  split.
  - apply Rmult_le_pos; [exact Hsum | left; apply Rinv_0_lt_compat, Hs].
  - intros (i & Hi & Hne').
    apply Rmult_lt_0_compat; [|apply Rinv_0_lt_compat, Hs].
    pose proof (Rsum_term_le _ l i Hterm Hi) as Hle. cbv beta in Hle.
    assert (0 < a i * (x i - m) * (x i - m)); [|lra].
    rewrite Rmult_assoc. apply Rmult_lt_0_compat; [apply Ha, Hi|].
    apply (Rsqr_pos_lt (x i - m)). lra.
Qed.

Lemma fold_Rsum {A} (f : A -> R) (l : list A) :
  fold_left (fun s i => s + f i) l 0 = sum_from_0 (map f l).
Proof. unfold sum_from_0. exact (fold_left_add_map f l (of_Z 0)). Qed.

Lemma In_get (data : list R) (i : nat) : (i < length data)%nat -> In (get data i) data.
Proof.
  intros Hi. destruct (lookup_lt_is_Some_2 data i Hi) as (x & Ex).
  unfold get. rewrite Ex. cbn [toNumber].
  apply list_elem_of_In, (list_elem_of_lookup_2 _ _ _ Ex).
Qed.

(** The responsibilities of a state with positive weights and
    variances lie strictly between 0 and 1. *)
Lemma responsibility_bounds (data : list R) (k : nat) (st : EMState R) (i j : nat) :
  has_size k st ->
  Forall (fun w => 0 < w) (st_weights st) ->
  Forall (fun v => 0 < v) (st_variances st) ->
  (j < k)%nat ->
  0 < get (eStepRow data k st i) j < 1.
Proof.
  intros Hst Hw Hv Hj.
  destruct (eStepRow_components data k st i Hst) as (Erow & _ & _).
  destruct Hst as (Hlm & Hlv & Hlw).
  rewrite <- (map_components_seq (get data i)) in Erow by congruence.
  rewrite Hlm in Erow. rewrite Erow. clear Erow.
  set (P := fun j0 => (get (st_weights st) j0
                       * gaussianPDF (get data i) (get (st_means st) j0)
                           (Math_sqrt (get (st_variances st) j0)))%num).
  assert (HP : forall j0, In j0 (seq 0 k) -> 0 < P j0).
  { intros j0 Hj0. apply in_seq in Hj0. unfold P.
    cbn [nmul Math_sqrt Exact.RArith].
    apply Rmult_lt_0_compat.
    - rewrite List.Forall_forall in Hw. apply Hw, In_get. lia.
    - apply gaussianPDF_pos, sqrt_lt_R0.
      rewrite List.Forall_forall in Hv. apply Hv, In_get. lia. }
  assert (Hsum : P j <= sum_from_0 (map P (seq 0 k))).
  { apply Rsum_term_le; [intros y Hy; left; apply HP, Hy | apply in_seq; lia]. }
  assert (Eg : get (map (fun r => (r / (sum_from_0 (map P (seq 0 k)) + lit_1e_10))%num)
                        (map P (seq 0 k))) j
               = P j / (sum_from_0 (map P (seq 0 k)) + / 10000000000)).
  { unfold get. rewrite lookup_map, lookup_map, lookup_seq_lt by lia. reflexivity. }
  rewrite Eg. clear Eg.
  pose proof (HP j ltac:(apply in_seq; lia)) as Hpj.
  assert (Hden : 0 < sum_from_0 (map P (seq 0 k)) + / 10000000000) by lra.
  split.
  - apply Rdiv_lt_0_compat; assumption.
  - apply Rmult_lt_reg_r with (sum_from_0 (map P (seq 0 k)) + / 10000000000);
      [exact Hden|].
    unfold Rdiv. rewrite Rmult_assoc, Rinv_l by lra. lra.
Qed.

Lemma lookup_eStep (data : list R) (k : nat) (st : EMState R) (i : nat) :
  (i < length data)%nat ->
  default [] (eStep data k st !! i) = eStepRow data k st i.
Proof.
  intros Hi. unfold eStep. rewrite lookup_map, lookup_seq_lt by exact Hi. reflexivity.
Qed.

Lemma columnSum_eStep (data : list R) (k : nat) (st : EMState R) (j : nat) :
  columnSum (eStep data k st) j
  = sum_from_0 (map (fun i => get (eStepRow data k st i) j) (seq 0 (length data))).
Proof.
  unfold columnSum, eStep.
  rewrite (fold_left_add_map (fun r : list R => get r j)), map_map. reflexivity.
Qed.

(** X20.  Computed exactly, an EM pass keeps the parameters sound.
    From a state with positive weights and positive variances, on at
    least one sample, the pass returns weights strictly between 0 and
    1, means that lie between any two bounds of the data, and
    variances that are not negative; the variances are positive as
    soon as two samples differ, so that the next pass starts from a
    sound state again. *)
Theorem exact_pass_sound (data : list R) (k : nat) (st : EMState R) (lo hi : R) :
  has_size k st ->
  (1 <= length data)%nat ->
  Forall (fun w => 0 < w) (st_weights st) ->
  Forall (fun v => 0 < v) (st_variances st) ->
  (forall x, In x data -> lo <= x <= hi) ->
  exists st',
    emIteration data k st = Ok st'
    /\ has_size k st'
    /\ Forall (fun w => 0 < w < 1) (st_weights st')
    /\ Forall (fun m => lo <= m <= hi) (st_means st')
    /\ Forall (fun v => 0 <= v) (st_variances st')
    /\ ((exists x y, In x data /\ In y data /\ x <> y) ->
        Forall (fun v => 0 < v) (st_variances st')).
Proof.
  intros Hst Hn Hw Hv Hb.
  set (rows := eStep data k st).
  set (n := length data) in *.
  assert (Hseq : seq 0 n <> []) by (destruct n; [lia | discriminate]).
  assert (Hresp : forall j, (j < k)%nat -> forall i, In i (seq 0 n) ->
                    0 < get (default [] (rows !! i)) j < 1).
  { intros j Hj i Hi. apply in_seq in Hi. unfold rows.
    rewrite lookup_eStep by (fold n; lia).
    apply responsibility_bounds; assumption. }
  assert (Hcol : forall j, columnSum rows j
                           = sum_from_0 (map (fun i => get (default [] (rows !! i)) j)
                                             (seq 0 n))).
  { intros j. unfold rows. rewrite columnSum_eStep. fold n. f_equal.
    apply map_ext_in. intros i Hi. apply in_seq in Hi.
    rewrite lookup_eStep by (fold n; lia). reflexivity. }
  assert (Hmean : forall j, respMean rows data j
                            = sum_from_0 (map (fun i => get (default [] (rows !! i)) j
                                                        * get data i) (seq 0 n))
                              / sum_from_0 (map (fun i => get (default [] (rows !! i)) j)
                                                (seq 0 n))).
  { intros j. unfold respMean. fold n. rewrite Hcol.
    cbn [ndiv nadd nmul of_Z Exact.RArith].
    rewrite (fold_Rsum (fun i => get (default [] (rows !! i)) j * get data i)).
    reflexivity. }
  assert (Hvar : forall j, respVariance rows data j
                           = sum_from_0
                               (map (fun i => get (default [] (rows !! i)) j
                                              * (get data i - respMean rows data j)
                                              * (get data i - respMean rows data j))
                                    (seq 0 n))
                             / sum_from_0 (map (fun i => get (default [] (rows !! i)) j)
                                               (seq 0 n))).
  { intros j. unfold respVariance. fold n. rewrite Hcol.
    cbn [ndiv nadd nmul nsub of_Z Exact.RArith].
    rewrite (fold_Rsum (fun i => get (default [] (rows !! i)) j
                                 * (get data i - respMean rows data j)
                                 * (get data i - respMean rows data j))).
    reflexivity. }
  assert (Hdata : forall i, In i (seq 0 n) -> lo <= get data i <= hi).
  { intros i Hi. apply in_seq in Hi. apply Hb, In_get. fold n. lia. }
  destruct (mStep_each data rows k st
              (fun _ m v w =>
                 0 < w < 1 /\ lo <= m <= hi /\ 0 <= v
                 /\ ((exists x y, In x data /\ In y data /\ x <> y) -> 0 < v)))
    as (st' & E & Hst' & Heach).
  - apply length_eStep.
  - exact Hst.
  - intros j Hj.
    assert (Ha : forall i, In i (seq 0 n) -> 0 < get (default [] (rows !! i)) j)
      by (intros i Hi; apply (Hresp j Hj i Hi)).
    pose proof (Rsum_pos _ (seq 0 n) Hseq Ha) as Hnk.
    assert (Hlen : 0 < INR n) by (apply lt_0_INR; lia).
    split; [|split; [|split]].
    + rewrite Hcol. unfold of_nat. fold n. cbn [ndiv of_Z Exact.RArith].
      rewrite <- INR_IZR_INZ. split.
      * apply Rdiv_lt_0_compat; assumption.
      * pose proof (Rsum_lt_bound (fun i => get (default [] (rows !! i)) j) 1 (seq 0 n)
                      Hseq (fun i Hi => proj2 (Hresp j Hj i Hi))) as Hlt.
        rewrite length_seq in Hlt.
        apply Rmult_lt_reg_r with (INR n); [exact Hlen|].
        unfold Rdiv. rewrite Rmult_assoc, Rinv_l by lra. lra.
    + rewrite Hmean. apply weighted_mean_bounds; assumption.
    + rewrite Hvar.
      apply (weighted_variance_bounds (fun i => get (default [] (rows !! i)) j)
               (get data) (respMean rows data j) (seq 0 n) Hseq Ha).
    + intros (x & y & Hx & Hy & Hxy). rewrite Hvar.
      apply (weighted_variance_bounds (fun i => get (default [] (rows !! i)) j)
               (get data) (respMean rows data j) (seq 0 n) Hseq Ha).
      assert (Hidx : forall z, In z data -> exists i, In i (seq 0 n) /\ get data i = z).
      { intros z Hz. apply list_elem_of_In, list_elem_of_lookup in Hz.
        destruct Hz as (i & Ei). exists i. split.
        - apply in_seq. apply lookup_lt_Some in Ei. fold n in Ei. lia.
        - unfold get. rewrite Ei. reflexivity. }
      destruct (Req_dec x (respMean rows data j)) as [Ex|Nx].
      * destruct (Hidx y Hy) as (i & Hi & Ei). exists i. split; [exact Hi|].
        rewrite Ei. intros Ey. apply Hxy. rewrite Ex, Ey. reflexivity.
      * destruct (Hidx x Hx) as (i & Hi & Ei). exists i. split; [exact Hi|].
        rewrite Ei. exact Nx.
  - exists st'. split; [exact E|]. split; [exact Hst'|].
    destruct Hst' as (Hlm & Hlv & Hlw).
    split; [|split; [|split]].
    + apply Forall_lookup. intros j w Ew.
      destruct (Heach j) as (m' & v' & w' & _ & _ & Ew' & Hq & _);
        [apply lookup_lt_Some in Ew; lia|].
      assert (w = w') by congruence. subst w'. exact Hq.
    + apply Forall_lookup. intros j m Em.
      destruct (Heach j) as (m' & v' & w' & Em' & _ & _ & _ & Hq & _);
        [apply lookup_lt_Some in Em; lia|].
      assert (m = m') by congruence. subst m'. exact Hq.
    + apply Forall_lookup. intros j v Ev.
      destruct (Heach j) as (m' & v' & w' & _ & Ev' & _ & _ & _ & Hq & _);
        [apply lookup_lt_Some in Ev; lia|].
      assert (v = v') by congruence. subst v'. exact Hq.
    + intros Hdiff. apply Forall_lookup. intros j v Ev.
      destruct (Heach j) as (m' & v' & w' & _ & Ev' & _ & _ & _ & _ & Hq);
        [apply lookup_lt_Some in Ev; lia|].
      assert (v = v') by congruence. subst v'. exact (Hq Hdiff).
Qed.

End ExactEM.

(** ** The statements on concrete inputs *)

Section Instances.
Local Open Scope float_scope.

(** A model with two components, the first dominant. *)
Lemma displayResults_dominant_witness :
  exists s,
    @displayResults float (IEEE RefLib.lib)
      {| nComponents := 2; means := [5; 7]; variances := [1; 4]; weights := [0.75; 0.25];
         isSimple := None; bic := None; passesWeightConstraint := None |} = Ok s
    /\ sm_setpoint s = 5 /\ sm_percent s = 75 /\ sm_outlierPct s = Some 25.
Proof.
  destruct (@displayResults float (IEEE RefLib.lib)
              {| nComponents := 2; means := [5; 7]; variances := [1; 4];
                 weights := [0.75; 0.25];
                 isSimple := None; bic := None; passesWeightConstraint := None |})
    as [s|] eqn:E; [|vm_compute in E; discriminate].
  destruct (@displayResults_dominant float (IEEE RefLib.lib) (IEEE_order RefLib.lib)
              (IEEE_eq RefLib.lib) _ s E) as (d & w & _).
  exists s. split; [reflexivity|].
  vm_compute in E. injection E as <-. repeat split.
Defined.

(** The model with [NaN] weights is not displayed. *)
Lemma displayResults_throws_iff_witness :
  length (means (@nanModel float (IEEE RefLib.lib) 2))
  = length (weights (@nanModel float (IEEE RefLib.lib) 2))
  /\ @displayResults float (IEEE RefLib.lib) (@nanModel float (IEEE RefLib.lib) 2)
     = Throw_TypeError.
Proof.
  split; [reflexivity|].
  apply (@displayResults_throws_iff float (IEEE RefLib.lib) (IEEE_order RefLib.lib)
           (IEEE_eq RefLib.lib)); [reflexivity|].
  right. apply Exists_cons_hd. reflexivity.
Defined.

(** The timer on two samples. *)
Lemma fitGMM_run_outcome_witness :
  exists best,
    @fitGMM float (IEEE RefLib.lib) twoSamples = Ok (Some best)
    /\ fst (@fitGMM_run float (IEEE RefLib.lib) twoSamples) = Some (Some best).
Proof.
  destruct (@fitGMM_run_outcome float (IEEE RefLib.lib) (IEEE_order RefLib.lib)
              (IEEE_eq RefLib.lib) twoSamples) as (best & E & F & _).
  exists best. split; [exact E | exact F].
Defined.

(** The 201 abscissas between 3 and 9. *)
Lemma generateRange_exact_witness :
  (0 < 200)%nat
  /\ length (@generateRange R Exact.RArith 3%R 9%R 200) = 201%nat
  /\ @generateRange R Exact.RArith 3%R 9%R 200 !! 200%nat = Some 9%R.
Proof.
  assert (H : (0 < 200)%nat) by lia.
  split; [exact H|].
  destruct (generateRange_exact 3%R 9%R 200 H) as (Hl & _ & Hlast & _).
  split; [exact Hl | exact Hlast].
Defined.

(** Two fields of three values each, with a [parseFloat] that reads
    every piece as 5. *)
Lemma generateTrajectory_never_alerts_witness :
  @TrajectoryDemo.validateInput float (IEEE RefLib.lib) (fun s => s) (fun _ => 5)
    "1,2,3"%string "4,5,6"%string (TrajectoryDemo.initialConfig, true)
  = (true, ({| TrajectoryDemo.wbcData := [5; 5; 5];
               TrajectoryDemo.pltData := [5; 5; 5] |}, false))
  /\ length (TrajectoryDemo.arrows {| TrajectoryDemo.wbcData := [5; 5; 5];
                                      TrajectoryDemo.pltData := [5; 5; 5] |}) = 2%nat.
Proof.
  assert (E : @TrajectoryDemo.validateInput float (IEEE RefLib.lib) (fun s => s)
                (fun _ => 5) "1,2,3"%string "4,5,6"%string (TrajectoryDemo.initialConfig, true)
              = (true, ({| TrajectoryDemo.wbcData := [5; 5; 5];
                           TrajectoryDemo.pltData := [5; 5; 5] |}, false)))
    by (vm_compute; reflexivity).
  split; [exact E|].
  destruct (@generateTrajectory_never_alerts float (IEEE RefLib.lib) (fun s => s)
              (fun _ => 5) "1,2,3"%string "4,5,6"%string _ _ [] E) as (summary & _ & Hlen & _).
  exact Hlen.
Defined.

(** A selection, a fit and a second selection. *)
Lemma page_stays_coherent_witness :
  RBCDemo.fresh RBCDemo.startPage
  /\ Forall RBCDemo.fromGallery
            [RBCDemo.CardClicked RBCDemo.healthy; RBCDemo.FitClicked; RBCDemo.TimerFired;
             RBCDemo.CardClicked RBCDemo.sickle_cell]
  /\ RBCDemo.coherent
       (RBCDemo.run [RBCDemo.CardClicked RBCDemo.healthy; RBCDemo.FitClicked;
                     RBCDemo.TimerFired; RBCDemo.CardClicked RBCDemo.sickle_cell]
                    RBCDemo.startPage).
Proof.
  assert (Hf : RBCDemo.fresh RBCDemo.startPage) by (repeat split; reflexivity).
  assert (Hg : Forall RBCDemo.fromGallery
                 [RBCDemo.CardClicked RBCDemo.healthy; RBCDemo.FitClicked;
                  RBCDemo.TimerFired; RBCDemo.CardClicked RBCDemo.sickle_cell]).
  { constructor; [simpl; auto 10|]. constructor; [exact I|]. constructor; [exact I|].
    constructor; [simpl; auto 10|]. constructor. }
  split; [exact Hf|]. split; [exact Hg|].
  exact (proj1 (page_stays_coherent _ _ Hf Hg)).
Defined.

Lemma fit_shown_is_of_selected_witness :
  RBCDemo.fresh RBCDemo.startPage
  /\ RBCDemo.calm [RBCDemo.CardClicked RBCDemo.healthy; RBCDemo.FitClicked;
                   RBCDemo.TimerFired] RBCDemo.startPage
  /\ RBCDemo.in_step
       (RBCDemo.run [RBCDemo.CardClicked RBCDemo.healthy; RBCDemo.FitClicked;
                     RBCDemo.TimerFired] RBCDemo.startPage).
Proof.
  assert (Hf : RBCDemo.fresh RBCDemo.startPage) by (repeat split; reflexivity).
  assert (Hc : RBCDemo.calm [RBCDemo.CardClicked RBCDemo.healthy; RBCDemo.FitClicked;
                             RBCDemo.TimerFired] RBCDemo.startPage).
  { simpl. repeat split; reflexivity. }
  split; [exact Hf|]. split; [exact Hc|].
  exact (fit_shown_is_of_selected _ _ Hf Hc).
Defined.

Lemma timer_overtakes_selection_witness :
  RBCDemo.timers RBCDemo.startPage = []
  /\ RBCDemo.showsFit RBCDemo.healthy
       (RBCDemo.run [RBCDemo.CardClicked RBCDemo.healthy; RBCDemo.FitClicked;
                     RBCDemo.CardClicked RBCDemo.sickle_cell; RBCDemo.TimerFired]
                    RBCDemo.startPage)
  /\ RBCDemo.selectedImage
       (RBCDemo.run [RBCDemo.CardClicked RBCDemo.healthy; RBCDemo.FitClicked;
                     RBCDemo.CardClicked RBCDemo.sickle_cell; RBCDemo.TimerFired]
                    RBCDemo.startPage)
     = Some RBCDemo.sickle_cell.
Proof.
  assert (Ht : RBCDemo.timers RBCDemo.startPage = []) by reflexivity.
  split; [exact Ht|].
  destruct (timer_overtakes_selection RBCDemo.startPage RBCDemo.healthy RBCDemo.sickle_cell
              Ht) as (_ & Hsel & _ & _ & Hfit & _).
  split; [exact Hfit | exact Hsel].
Defined.

Lemma fit_then_show_original_witness :
  RBCDemo.timers RBCDemo.startPage = []
  /\ RBCDemo.imageSrc
       (RBCDemo.run [RBCDemo.FitClicked; RBCDemo.TimerFired; RBCDemo.FitClicked]
                    (RBCDemo.selectImage RBCDemo.healthy RBCDemo.startPage))
     = Some "images/rbc-diff-demo/Healthy.jpg"%string.
Proof.
  assert (Ht : RBCDemo.timers RBCDemo.startPage = []) by reflexivity.
  split; [exact Ht|].
  rewrite (fit_then_show_original RBCDemo.startPage RBCDemo.healthy Ht). reflexivity.
Defined.

(** Five times the value 5. *)
Lemma repeated_values_fail_witness :
  In (repeat 5 5) repeatedDatasets
  /\ (5 <= length (repeat 5%float 5))%nat
  /\ snd (@fitGMM_run float (IEEE RefLib.lib) (repeat 5 5)) = FittingFailed.
Proof.
  assert (Hin : In (repeat 5 5) repeatedDatasets) by (left; reflexivity).
  assert (Hn : (5 <= length (repeat 5%float 5))%nat) by (simpl; lia).
  split; [exact Hin|]. split; [exact Hn|].
  rewrite (repeated_values_fail RefLib.lib (repeat 5 5) Hin Hn). reflexivity.
Defined.

(** Two samples: the summary has no standard deviation. *)
Lemma small_sample_summary_witness :
  (length twoSamples < 5)%nat
  /\ exists b summary,
       snd (@fitGMM_run float (IEEE RefLib.lib) twoSamples)
       = Displayed (timeSeriesTraces twoSamples b)
                   (@plotResults float (IEEE RefLib.lib) twoSamples
                      (@simpleMeanStd float (IEEE_Arith RefLib.lib) twoSamples))
                   summary
       /\ PrimFloat.is_nan (sm_stdDev summary) = true.
Proof.
  assert (Hn : (length twoSamples < 5)%nat) by (simpl; lia).
  split; [exact Hn|].
  destruct (small_sample_summary RefLib.lib twoSamples Hn)
    as (b & summary & _ & E & _ & _ & _ & _ & _ & Hnan).
  exists b, summary. split; [exact E|].
  apply Hnan. simpl. lia.
Defined.

(** A pointer to the right of the image. *)
Lemma moveMagnifier_within_image_witness :
  exists x y,
    RBCDemo.moveMagnifier RefLib.lib 500 80
      {| RBCDemo.active := true; RBCDemo.left := None; RBCDemo.top := None;
         RBCDemo.backgroundPosition := None |}
      {| RBCDemo.rect_left := 20; RBCDemo.rect_top := 10;
         RBCDemo.rect_width := 400; RBCDemo.rect_height := 300 |}
    = {| RBCDemo.active := true;
         RBCDemo.left := Some (x - 75);
         RBCDemo.top := Some (y - 75);
         RBCDemo.backgroundPosition := Some (- (x * 2.5 - 75), - (y * 2.5 - 75)) |}
    /\ (400 <? x) = false /\ (y =? 70) = true.
Proof.
  destruct (moveMagnifier_within_image RefLib.lib 500 80
              {| RBCDemo.active := true; RBCDemo.left := None; RBCDemo.top := None;
                 RBCDemo.backgroundPosition := None |}
              {| RBCDemo.rect_left := 20; RBCDemo.rect_top := 10;
                 RBCDemo.rect_width := 400; RBCDemo.rect_height := 300 |})
    as (x & y & E & _ & _ & Hx & _ & _ & _ & _ & Hy);
    try (vm_compute; reflexivity).
  exists x, y. split; [exact E|]. split; [exact Hx|].
  apply Hy; vm_compute; reflexivity.
Defined.

Local Open Scope R_scope.

Lemma gaussianPDF_exact_witness :
  0 < 1 /\ 0 < @gaussianPDF R Exact.RArith 0 0 1.
Proof.
  assert (H : 0 < 1) by lra.
  split; [exact H|].
  destruct (ExactStats.gaussianPDF_exact 0 0 1 H) as ((Hpos & _) & _). exact Hpos.
Defined.

Lemma simpleMeanStd_exact_witness :
  (3 <= length [1; 2; 3])%nat
  /\ 0 <= @sampleVariance R Exact.RArith [1; 2; 3].
Proof.
  assert (H : (3 <= length [1; 2; 3])%nat) by (simpl; lia).
  split; [exact H|].
  destruct (ExactStats.simpleMeanStd_exact [1; 2; 3] H) as (_ & _ & _ & Hv & _). exact Hv.
Defined.

(** One pass from the initial state of one component over two
    samples. *)
Lemma exact_pass_sound_witness :
  exists st',
    @emIteration R Exact.RArith [1; 2] 1%nat
      {| st_means := [1]; st_variances := [1]; st_weights := [1] |} = Ok st'
    /\ Forall (fun v => 0 < v) (st_variances st')
    /\ Forall (fun m => 1 <= m <= 2) (st_means st').
Proof.
  destruct (ExactEM.exact_pass_sound [1; 2] 1%nat
              {| st_means := [1]; st_variances := [1]; st_weights := [1] |} 1 2)
    as (st' & E & _ & _ & Hm & _ & Hv).
  - repeat split.
  - simpl. lia.
  - repeat constructor. simpl. lra.
  - repeat constructor. simpl. lra.
  - intros x [<-|[<-|[]]]; lra.
  - exists st'. split; [exact E|]. split; [|exact Hm].
    apply Hv. exists 1, 2. simpl. repeat split; auto. lra.
Defined.

End Instances.

(** ** The curve of the typical recovery *)

Section ReferenceCurve.
Import TrajectoryDemo.
Local Open Scope R_scope.

Lemma day_value (i : nat) : day i = INR i / 7.
Proof.
  unfold day, avgTrajectoryPoints, totalDays.
  replace (INR 50) with 50 by (simpl; lra). field.
Qed.

Lemma exp_halving (t : R) : exp (- decayConstant * t) = / Rpower 2 t.
Proof.
  unfold decayConstant, halfLife, Rpower. rewrite <- exp_Ropp. f_equal. field.
Qed.

Lemma avgWBC_lookup (i : nat) :
  (i < 50)%nat -> avgWBC !! i = Some (7.5 + 7.5 * / Rpower 2 (INR i / 7)).
Proof.
  intros Hi. unfold avgWBC, avgTrajectoryPoints.
  rewrite lookup_map, lookup_seq_lt by exact Hi. cbn [option_map Nat.add].
  rewrite exp_halving, day_value. reflexivity.
Qed.

Lemma avgPLT_lookup (i : nat) :
  (i < 50)%nat ->
  avgPLT !! i = Some (if Rle_dec (INR i / 7) 1 then 140
                      else 140 + 140 * ((INR i / 7 - 1) / 6)).
Proof.
  intros Hi. unfold avgPLT, avgTrajectoryPoints, totalDays.
  rewrite lookup_map, lookup_seq_lt by exact Hi. cbn [option_map Nat.add].
  rewrite day_value. f_equal.
  destruct (Rle_dec (INR i / 7) 1); [reflexivity|]. f_equal. lra.
Qed.

(** X22.  Computed exactly, the curve of the typical recovery has 50
    points, seven per day.  Its WBC value starts at 15, decreases from
    point to point, stays above 7.5, and after [d] whole days is
    [7.5 + 7.5 / 2^d]: the excess over 7.5 halves every day.  Its
    platelet value is 140 up to day 1, then rises by the same amount
    from point to point and ends at 280 on day 7. *)
Theorem typical_recovery_curve :
  length avgWBC = 50%nat /\ length avgPLT = 50%nat
  /\ (forall d, (d <= 7)%nat -> avgWBC !! (7 * d)%nat = Some (7.5 + 7.5 / 2 ^ d))
  /\ (forall i w, avgWBC !! i = Some w -> 7.5 < w <= 15)
  /\ (forall i w w', avgWBC !! i = Some w -> avgWBC !! S i = Some w' -> w' < w)
  /\ (forall i, (i <= 7)%nat -> avgPLT !! i = Some 140)
  /\ (forall i p p', (7 <= i)%nat -> avgPLT !! i = Some p -> avgPLT !! S i = Some p' ->
                     p' - p = 10 / 3)
  /\ avgPLT !! 49%nat = Some 280.
Proof.
  assert (Hlw : length avgWBC = 50%nat)
    by (unfold avgWBC; rewrite length_map, length_seq; reflexivity).
  assert (Hlp : length avgPLT = 50%nat)
    by (unfold avgPLT; rewrite length_map, length_seq; reflexivity).
  assert (Hpow : forall t, 0 < Rpower 2 t) by (intros t; unfold Rpower; apply exp_pos).
  split; [exact Hlw|]. split; [exact Hlp|].
  split; [|split; [|split; [|split; [|split]]]].
  - intros d Hd. rewrite avgWBC_lookup by lia. f_equal.
    replace (INR (7 * d) / 7) with (INR d) by (rewrite mult_INR; simpl; field).
    rewrite Rpower_pow by lra. reflexivity.
  - intros i w Ew.
    assert (Hi : (i < 50)%nat) by (apply lookup_lt_Some in Ew; lia).
    rewrite avgWBC_lookup in Ew by exact Hi.
    assert (Hw : w = 7.5 + 7.5 * / Rpower 2 (INR i / 7)) by congruence.
    rewrite Hw. clear Ew Hw.
    assert (H1 : 1 <= Rpower 2 (INR i / 7)).
    { rewrite <- (Rpower_O 2) by lra.
      destruct (Req_dec (INR i / 7) 0) as [->|Hne]; [lra|].
      left. apply Rpower_lt; [lra|].
      pose proof (pos_INR i). lra. }
    pose proof (Rinv_0_lt_compat _ (Hpow (INR i / 7))) as Hinv.
    assert (Hle : / Rpower 2 (INR i / 7) <= 1).
    { rewrite <- Rinv_1. apply Rinv_le_contravar; lra. }
    lra.
  - intros i w w' Ew Ew'.
    assert (Hi : (S i < 50)%nat) by (apply lookup_lt_Some in Ew'; lia).
    rewrite avgWBC_lookup in Ew, Ew' by lia.
    assert (Hw : w = 7.5 + 7.5 * / Rpower 2 (INR i / 7)) by congruence.
    assert (Hw' : w' = 7.5 + 7.5 * / Rpower 2 (INR (S i) / 7)) by congruence.
    rewrite Hw, Hw'. clear Ew Ew' Hw Hw'.
    assert (Hlt : Rpower 2 (INR i / 7) < Rpower 2 (INR (S i) / 7)).
    { apply Rpower_lt; [lra|]. rewrite S_INR. lra. }
    assert (Hinv : / Rpower 2 (INR (S i) / 7) < / Rpower 2 (INR i / 7)).
    { apply Rinv_lt_contravar; [|exact Hlt].
      apply Rmult_lt_0_compat; apply Hpow. }
    lra.
  - intros i Hi. rewrite avgPLT_lookup by lia.
    assert (Hle : INR i <= 7).
    { replace 7 with (INR 7) by (simpl; lra). apply le_INR, Hi. }
    destruct (Rle_dec (INR i / 7) 1) as [_|Hn]; [reflexivity|].
    exfalso. apply Hn. lra.
  - intros i p p' H7 Ep Ep'.
    assert (Hi : (S i < 50)%nat) by (apply lookup_lt_Some in Ep'; lia).
    rewrite avgPLT_lookup in Ep, Ep' by lia.
    assert (Hge : 7 <= INR i).
    { replace 7 with (INR 7) by (simpl; lra). apply le_INR, H7. }
    rewrite S_INR in Ep'.
    destruct (Rle_dec (INR i / 7) 1) as [Hl|Hl];
      destruct (Rle_dec ((INR i + 1) / 7) 1) as [Hl'|Hl']; try lra.
    + assert (Ei : INR i = 7) by lra.
      assert (Hp : p = 140) by congruence.
      assert (Hp' : p' = 140 + 140 * (((INR i + 1) / 7 - 1) / 6)) by congruence.
      rewrite Hp, Hp', Ei. lra.
    + assert (Hp : p = 140 + 140 * ((INR i / 7 - 1) / 6)) by congruence.
      assert (Hp' : p' = 140 + 140 * (((INR i + 1) / 7 - 1) / 6)) by congruence.
      rewrite Hp, Hp'. lra.
  - rewrite avgPLT_lookup by lia.
    replace (INR 49) with 49 by (simpl; lra).
    destruct (Rle_dec (49 / 7) 1) as [Hl|_]; [lra|]. f_equal. lra.
Qed.

End ReferenceCurve.
